(** * GSSquared: Disk II controller state machine and the execution scheduler

    A shallow embedding of [src/devices/diskii/diskii.cpp] (the soft-switch
    handler [diskII_read_C0xx], the bit-serial read [read_nybble] and the
    initialisation [diskII_init]), of the burst loop of [run_cpus] in
    [src/gs2.cpp] and of the display services it runs every frame
    ([display/display.cpp], [display/text_40x24.cpp]), followed by the
    properties stated about them.

    Machine integers are [Z] with the wrap-around of their C++ type written
    out: [uint8_t], [uint16_t] and [uint64_t] through [to_u8], [to_u16] and
    [to_u64], [int8_t] through [to_i8], [uint32_t] through [to_u32]. *)

From Stdlib Require Import ZArith List Bool Lia ZifyBool.
Import ListNotations.
Local Open Scope Z_scope.

(** ** Fixed-width integers *)

Definition to_u8 (z : Z) : Z := z mod 256.
Definition to_u16 (z : Z) : Z := z mod 65536.
Definition to_u64 (z : Z) : Z := z mod 2 ^ 64.

(** Narrowing of an [int] to [int8_t] (two's complement). *)
Definition to_i8 (z : Z) : Z := (z + 128) mod 256 - 128.

Arguments to_u8 _ : simpl never.
Arguments to_u16 _ : simpl never.
Arguments to_u64 _ : simpl never.
Arguments to_i8 _ : simpl never.

Module DiskII.

(** ** Register map

    The enumeration [DiskII_Ph0_Off .. DiskII_Q7H] is declared in
    [diskii.hpp]; its values are the offsets [$C0S0 .. $C0SF] listed at the
    top of [diskii.cpp]. *)

Abbreviation DiskII_Ph0_Off := 0 (only parsing).
Abbreviation DiskII_Ph0_On := 1 (only parsing).
Abbreviation DiskII_Ph1_Off := 2 (only parsing).
Abbreviation DiskII_Ph1_On := 3 (only parsing).
Abbreviation DiskII_Ph2_Off := 4 (only parsing).
Abbreviation DiskII_Ph2_On := 5 (only parsing).
Abbreviation DiskII_Ph3_Off := 6 (only parsing).
Abbreviation DiskII_Ph3_On := 7 (only parsing).
Abbreviation DiskII_Motor_Off := 8 (only parsing).
Abbreviation DiskII_Motor_On := 9 (only parsing).
Abbreviation DiskII_Drive1_Select := 10 (only parsing).
Abbreviation DiskII_Drive2_Select := 11 (only parsing).
Abbreviation DiskII_Q6L := 12 (only parsing).
Abbreviation DiskII_Q6H := 13 (only parsing).
Abbreviation DiskII_Q7L := 14 (only parsing).
Abbreviation DiskII_Q7H := 15 (only parsing).

(** ** Drive and controller state

    [struct diskII].  The nibblized track store [nibblized_disk_t] is
    declared in [diskii_fmt.hpp]; it is taken here as the function giving the
    byte that [nibblized.tracks[t].data[h]] delivers, for whatever [t] and
    [h] the code indexes it with.  The raw image [media] is not read by the
    register handler and is left out. *)

Record diskII : Type := mkDiskII {
  rw_mode : Z;               (* uint8_t *)
  track : Z;                 (* int8_t, half-tracks *)
  phase0 : Z;                (* uint8_t *)
  phase1 : Z;
  phase2 : Z;
  phase3 : Z;
  last_phase_on : Z;         (* uint8_t *)
  motor : Z;                 (* uint8_t *)
  Q7 : Z;
  Q6 : Z;
  write_protect : Z;         (* uint8_t, 1 = write protect *)
  image_index : Z;           (* uint16_t *)
  head_position : Z;         (* uint16_t, index into the track *)
  bit_position : Z;          (* uint8_t *)
  read_shift_register : Z;   (* uint8_t *)
  last_read_cycle : Z;       (* uint64_t *)
  mark_cycles_turnoff : Z;   (* uint64_t, 0 = no deferred stop pending *)
  nibblized : Z -> Z -> Z
}.

Definition set_track (v : Z) (d : diskII) : diskII :=
  mkDiskII (rw_mode d) v (phase0 d) (phase1 d) (phase2 d) (phase3 d)
    (last_phase_on d) (motor d) (Q7 d) (Q6 d) (write_protect d)
    (image_index d) (head_position d) (bit_position d)
    (read_shift_register d) (last_read_cycle d) (mark_cycles_turnoff d)
    (nibblized d).

Definition set_phase0 (v : Z) (d : diskII) : diskII :=
  mkDiskII (rw_mode d) (track d) v (phase1 d) (phase2 d) (phase3 d)
    (last_phase_on d) (motor d) (Q7 d) (Q6 d) (write_protect d)
    (image_index d) (head_position d) (bit_position d)
    (read_shift_register d) (last_read_cycle d) (mark_cycles_turnoff d)
    (nibblized d).

Definition set_phase1 (v : Z) (d : diskII) : diskII :=
  mkDiskII (rw_mode d) (track d) (phase0 d) v (phase2 d) (phase3 d)
    (last_phase_on d) (motor d) (Q7 d) (Q6 d) (write_protect d)
    (image_index d) (head_position d) (bit_position d)
    (read_shift_register d) (last_read_cycle d) (mark_cycles_turnoff d)
    (nibblized d).

Definition set_phase2 (v : Z) (d : diskII) : diskII :=
  mkDiskII (rw_mode d) (track d) (phase0 d) (phase1 d) v (phase3 d)
    (last_phase_on d) (motor d) (Q7 d) (Q6 d) (write_protect d)
    (image_index d) (head_position d) (bit_position d)
    (read_shift_register d) (last_read_cycle d) (mark_cycles_turnoff d)
    (nibblized d).

Definition set_phase3 (v : Z) (d : diskII) : diskII :=
  mkDiskII (rw_mode d) (track d) (phase0 d) (phase1 d) (phase2 d) v
    (last_phase_on d) (motor d) (Q7 d) (Q6 d) (write_protect d)
    (image_index d) (head_position d) (bit_position d)
    (read_shift_register d) (last_read_cycle d) (mark_cycles_turnoff d)
    (nibblized d).

Definition set_last_phase_on (v : Z) (d : diskII) : diskII :=
  mkDiskII (rw_mode d) (track d) (phase0 d) (phase1 d) (phase2 d) (phase3 d)
    v (motor d) (Q7 d) (Q6 d) (write_protect d)
    (image_index d) (head_position d) (bit_position d)
    (read_shift_register d) (last_read_cycle d) (mark_cycles_turnoff d)
    (nibblized d).

Definition set_motor (v : Z) (d : diskII) : diskII :=
  mkDiskII (rw_mode d) (track d) (phase0 d) (phase1 d) (phase2 d) (phase3 d)
    (last_phase_on d) v (Q7 d) (Q6 d) (write_protect d)
    (image_index d) (head_position d) (bit_position d)
    (read_shift_register d) (last_read_cycle d) (mark_cycles_turnoff d)
    (nibblized d).

Definition set_Q7 (v : Z) (d : diskII) : diskII :=
  mkDiskII (rw_mode d) (track d) (phase0 d) (phase1 d) (phase2 d) (phase3 d)
    (last_phase_on d) (motor d) v (Q6 d) (write_protect d)
    (image_index d) (head_position d) (bit_position d)
    (read_shift_register d) (last_read_cycle d) (mark_cycles_turnoff d)
    (nibblized d).

Definition set_Q6 (v : Z) (d : diskII) : diskII :=
  mkDiskII (rw_mode d) (track d) (phase0 d) (phase1 d) (phase2 d) (phase3 d)
    (last_phase_on d) (motor d) (Q7 d) v (write_protect d)
    (image_index d) (head_position d) (bit_position d)
    (read_shift_register d) (last_read_cycle d) (mark_cycles_turnoff d)
    (nibblized d).

Definition set_write_protect (v : Z) (d : diskII) : diskII :=
  mkDiskII (rw_mode d) (track d) (phase0 d) (phase1 d) (phase2 d) (phase3 d)
    (last_phase_on d) (motor d) (Q7 d) (Q6 d) v
    (image_index d) (head_position d) (bit_position d)
    (read_shift_register d) (last_read_cycle d) (mark_cycles_turnoff d)
    (nibblized d).

Definition set_image_index (v : Z) (d : diskII) : diskII :=
  mkDiskII (rw_mode d) (track d) (phase0 d) (phase1 d) (phase2 d) (phase3 d)
    (last_phase_on d) (motor d) (Q7 d) (Q6 d) (write_protect d)
    v (head_position d) (bit_position d)
    (read_shift_register d) (last_read_cycle d) (mark_cycles_turnoff d)
    (nibblized d).

Definition set_head_position (v : Z) (d : diskII) : diskII :=
  mkDiskII (rw_mode d) (track d) (phase0 d) (phase1 d) (phase2 d) (phase3 d)
    (last_phase_on d) (motor d) (Q7 d) (Q6 d) (write_protect d)
    (image_index d) v (bit_position d)
    (read_shift_register d) (last_read_cycle d) (mark_cycles_turnoff d)
    (nibblized d).

Definition set_bit_position (v : Z) (d : diskII) : diskII :=
  mkDiskII (rw_mode d) (track d) (phase0 d) (phase1 d) (phase2 d) (phase3 d)
    (last_phase_on d) (motor d) (Q7 d) (Q6 d) (write_protect d)
    (image_index d) (head_position d) v
    (read_shift_register d) (last_read_cycle d) (mark_cycles_turnoff d)
    (nibblized d).

Definition set_read_shift_register (v : Z) (d : diskII) : diskII :=
  mkDiskII (rw_mode d) (track d) (phase0 d) (phase1 d) (phase2 d) (phase3 d)
    (last_phase_on d) (motor d) (Q7 d) (Q6 d) (write_protect d)
    (image_index d) (head_position d) (bit_position d)
    v (last_read_cycle d) (mark_cycles_turnoff d)
    (nibblized d).

Definition set_mark_cycles_turnoff (v : Z) (d : diskII) : diskII :=
  mkDiskII (rw_mode d) (track d) (phase0 d) (phase1 d) (phase2 d) (phase3 d)
    (last_phase_on d) (motor d) (Q7 d) (Q6 d) (write_protect d)
    (image_index d) (head_position d) (bit_position d)
    (read_shift_register d) (last_read_cycle d) v
    (nibblized d).

Definition set_nibblized (v : Z -> Z -> Z) (d : diskII) : diskII :=
  mkDiskII (rw_mode d) (track d) (phase0 d) (phase1 d) (phase2 d) (phase3 d)
    (last_phase_on d) (motor d) (Q7 d) (Q6 d) (write_protect d)
    (image_index d) (head_position d) (bit_position d)
    (read_shift_register d) (last_read_cycle d) (mark_cycles_turnoff d)
    v.

(** [struct diskII_controller]: [drive[2]] and [drive_select]. *)
Record diskII_controller : Type := mkController {
  drive0 : diskII;
  drive1 : diskII;
  drive_select : Z           (* uint8_t *)
}.

(** [drive[i]].  The array has two elements; [drive_select] is only ever
    assigned 0 or 1 (see [drive_select_01]), any other index is read as
    element 1 here. *)
Definition drive (c : diskII_controller) (i : Z) : diskII :=
  if i =? 0 then drive0 c else drive1 c.

Definition set_drive (i : Z) (d : diskII) (c : diskII_controller)
  : diskII_controller :=
  if i =? 0 then mkController d (drive1 c) (drive_select c)
  else mkController (drive0 c) d (drive_select c).

Definition set_drive_select (v : Z) (c : diskII_controller)
  : diskII_controller :=
  mkController (drive0 c) (drive1 c) v.

(** ** The bit-serial read *)

(** The constant the head position is compared with. *)
Definition track_wrap : Z := 0x1A00.

(** [uint8_t read_nybble(diskII& disk)], the [#else] ("accurate") branch. *)
Definition read_nybble (disk : diskII) : Z * diskII :=
  if motor disk =? 0 then (read_shift_register disk, disk)
  else
    let disk1 :=
      if bit_position disk =? 0 then
        let loaded :=
          set_read_shift_register
            (to_u8 (nibblized disk (Z.quot (track disk) 2) (head_position disk)))
            disk in
        (* head_position++ >= 0x1A00 compares the value before the increment *)
        if head_position disk >=? track_wrap
        then set_head_position 0 loaded
        else set_head_position (to_u16 (head_position disk + 1)) loaded
      else disk in
    let disk2 := set_bit_position (to_u8 (bit_position disk1 + 1)) disk1 in
    let shiftedbyte :=
      to_u8 (Z.shiftr (read_shift_register disk2) (8 - bit_position disk2)) in
    let disk3 :=
      if bit_position disk2 =? 8 then set_bit_position 0 disk2 else disk2 in
    (shiftedbyte, disk3).

(** The element [(t, h)] of the track store that a call of [read_nybble]
    loads ([tracks[t].data[h]]), if it loads one. *)
Definition read_nybble_load (disk : diskII) : option (Z * Z) :=
  if motor disk =? 0 then None
  else if bit_position disk =? 0
       then Some (Z.quot (track disk) 2, head_position disk)
       else None.

(** ** The soft-switch handler *)

(** How far a deferred motor stop lies after the motor-off command. *)
Definition motor_off_delay : Z := 750000.

(** The value returned by an access that selects nothing to read. *)
Definition read_value : Z := 0xEE.

(** The deferred motor stop, checked on the selected drive at the start of
    every access (the first [if] of [diskII_read_C0xx]). *)
Definition motor_stop_check (cycles : Z) (seldrive : diskII) : diskII :=
  if (motor seldrive =? 1) && negb (mark_cycles_turnoff seldrive =? 0)
     && (cycles >? mark_cycles_turnoff seldrive)
  then set_mark_cycles_turnoff 0 (set_motor 0 seldrive)
  else seldrive.

(** [seldrive.track--] and [seldrive.track++] on an [int8_t]. *)
Definition track_dec (d : diskII) : diskII := set_track (to_i8 (track d - 1)) d.
Definition track_inc (d : diskII) : diskII := set_track (to_i8 (track d + 1)) d.

(** A phase-on case of the switch: step by the phase turned on last, raise
    the phase flag (by [set_phase]) and record the phase. *)
Definition phase_on (phase dec_after inc_after : Z) (set_phase : Z -> diskII -> diskII)
  (last : Z) (seldrive : diskII) : diskII :=
  let stepped :=
    if last =? dec_after then track_dec seldrive
    else if last =? inc_after then track_inc seldrive
    else seldrive in
  set_last_phase_on phase (set_phase 1 stepped).

(** What the switch leaves behind: either the handler returns from inside
    the switch, or it goes on with the selected drive and the (possibly
    changed) [drive_select]. *)
Inductive switch_result : Type :=
| Returned (value : Z) (seldrive : diskII)
| Continue (seldrive : diskII) (drive_select : Z).

(** [switch (reg) { ... }].  [last] is the local [int8_t last_phase_on] read
    before the switch; [sel] is the controller's [drive_select]. *)
Definition register_switch (cycles reg last sel : Z) (seldrive : diskII)
  : switch_result :=
  match reg with
  | DiskII_Ph0_Off => Continue (set_phase0 0 seldrive) sel
  | DiskII_Ph0_On => Continue (phase_on 0 1 3 set_phase0 last seldrive) sel
  | DiskII_Ph1_Off => Continue (set_phase1 0 seldrive) sel
  | DiskII_Ph1_On => Continue (phase_on 1 2 0 set_phase1 last seldrive) sel
  | DiskII_Ph2_Off => Continue (set_phase2 0 seldrive) sel
  | DiskII_Ph2_On => Continue (phase_on 2 3 1 set_phase2 last seldrive) sel
  | DiskII_Ph3_Off => Continue (set_phase3 0 seldrive) sel
  | DiskII_Ph3_On => Continue (phase_on 3 0 2 set_phase3 last seldrive) sel
  | DiskII_Motor_Off =>
      (* if motor already off, do nothing *)
      if motor seldrive =? 1
      then Continue
             (set_mark_cycles_turnoff (to_u64 (cycles + motor_off_delay)) seldrive)
             sel
      else Continue seldrive sel
  | DiskII_Motor_On =>
      Continue (set_mark_cycles_turnoff 0 (set_motor 1 seldrive)) sel
  | DiskII_Drive1_Select => Continue seldrive 0
  | DiskII_Drive2_Select => Continue seldrive 1
  | DiskII_Q6L => Continue (set_Q6 0 seldrive) sel
  | DiskII_Q6H => Continue (set_Q6 1 seldrive) sel
  | DiskII_Q7L =>
      let d := set_Q7 0 seldrive in
      if Q6 d =? 0
      then Returned (to_u8 (Z.shiftl (write_protect d) 7)) d
      else Continue d sel
  | DiskII_Q7H => Continue (set_Q7 1 seldrive) sel
  | _ => Continue seldrive sel
  end.

(** The part of the handler after the switch: the data-register read on an
    even offset in read mode, else the clamp of a negative track and the
    fixed value. *)
Definition after_switch (reg : Z) (seldrive : diskII) : Z * diskII :=
  if (Z.land reg 0x01 =? 0) && ((Q7 seldrive =? 0) && (Q6 seldrive =? 0))
  then read_nybble seldrive
  else
    (read_value,
     if track seldrive <? 0 then set_track 0 seldrive else seldrive).

(** The body of [diskII_read_C0xx] on the controller of the addressed slot,
    for the register [reg = addr & 0x0F] at the cycle count [cycles =
    cpu->cycles].  [seldrive] is a reference to [drive[drive]] bound before
    the switch, so the drive written back is the one selected on entry even
    when the access changes [drive_select]. *)
Definition access_register (cycles reg : Z) (c : diskII_controller)
  : Z * diskII_controller :=
  let drv := drive_select c in
  let seldrive := motor_stop_check cycles (drive c drv) in
  let last := to_i8 (last_phase_on seldrive) in
  match register_switch cycles reg last (drive_select c) seldrive with
  | Returned value d => (value, set_drive drv d c)
  | Continue d sel =>
      let r := after_switch reg d in
      (fst r, set_drive_select sel (set_drive drv (snd r) c))
  end.

(** The module state: [new diskII_controller[8]], one controller per slot. *)
Definition module_state : Type := list diskII_controller.

Fixpoint set_slot (n : nat) (c : diskII_controller) (slots : module_state)
  : module_state :=
  match slots, n with
  | [], _ => []
  | _ :: rest, O => c :: rest
  | x :: rest, S n' => x :: set_slot n' c rest
  end.

(** [uint8_t diskII_read_C0xx(cpu_state *cpu, uint16_t address)]: decode the
    address and run the access on the slot's controller.  A slot index past
    the array has no controller to act on ([None]). *)
Definition diskII_read_C0xx (cycles : Z) (diskII_slot : module_state)
  (address : Z) : option (Z * module_state) :=
  let addr := to_u16 (address - 0xC080) in
  let reg := Z.land addr 0x0F in
  let slot := to_u8 (Z.shiftr addr 4) in
  match nth_error diskII_slot (Z.to_nat slot) with
  | Some c =>
      let r := access_register cycles reg c in
      Some (fst r, set_slot (Z.to_nat slot) (snd r) diskII_slot)
  | None => None
  end.

(** ** Initialisation *)

(** The default member initialisers of [struct diskII], applied by [new];
    the members without one keep whatever the allocation holds ([raw]). *)
Definition diskII_new (raw : diskII) : diskII :=
  mkDiskII (rw_mode raw) (track raw) (phase0 raw) (phase1 raw) (phase2 raw)
    (phase3 raw) (last_phase_on raw) (motor raw)
    0 (* Q7 *) 0 (* Q6 *) 0 (* write_protect *) 0 (* image_index *)
    0 (* head_position *) 0 (* bit_position *) 0 (* read_shift_register *)
    0 (* last_read_cycle *) 0 (* mark_cycles_turnoff *)
    (nibblized raw).

(** The inner loop body of [diskII_init] on one drive. *)
Definition diskII_init_drive (d : diskII) : diskII :=
  set_mark_cycles_turnoff 0 (set_head_position 0 (set_read_shift_register 0
    (set_bit_position 0 (set_write_protect 1 (set_image_index 0
      (set_last_phase_on 0 (set_motor 0 (set_phase3 0 (set_phase2 0
        (set_phase1 0 (set_phase0 0 (set_track 0 d)))))))))))).

(** The outer loop body of [diskII_init] on one controller. *)
Definition diskII_init (c : diskII_controller) : diskII_controller :=
  mkController (diskII_init_drive (drive0 c)) (diskII_init_drive (drive1 c)) 0.

(** One controller as [init_slot_diskII] leaves it: allocated, then reset. *)
Definition init_slot_diskII (raw0 raw1 : diskII) (raw_select : Z)
  : diskII_controller :=
  diskII_init (mkController (diskII_new raw0) (diskII_new raw1) raw_select).

(** [mount_diskII] on one drive: the track store is filled from the image;
    nothing else of the drive changes. *)
Definition mount_diskII (drv : Z) (image : Z -> Z -> Z) (c : diskII_controller)
  : diskII_controller :=
  set_drive drv (set_nibblized image (drive c drv)) c.

(** ** Sequences of accesses *)

(** One access [(cycles, reg)] on a controller: the state it leaves. *)
Definition step (a : Z * Z) (c : diskII_controller) : diskII_controller :=
  snd (access_register (fst a) (snd a) c).

(** The state after a sequence of accesses. *)
Fixpoint run (accesses : list (Z * Z)) (c : diskII_controller)
  : diskII_controller :=
  match accesses with
  | [] => c
  | a :: rest => run rest (step a c)
  end.

(** The states after each access of a sequence, in order. *)
Fixpoint trace (accesses : list (Z * Z)) (c : diskII_controller)
  : list diskII_controller :=
  match accesses with
  | [] => []
  | a :: rest => step a c :: trace rest (step a c)
  end.

(** The states each access of a sequence starts from, in order. *)
Fixpoint entry_states (accesses : list (Z * Z)) (c : diskII_controller)
  : list diskII_controller :=
  match accesses with
  | [] => []
  | a :: rest => c :: entry_states rest (step a c)
  end.

(** The bytes returned by a sequence of accesses, in order. *)
Fixpoint values (accesses : list (Z * Z)) (c : diskII_controller) : list Z :=
  match accesses with
  | [] => []
  | a :: rest =>
      fst (access_register (fst a) (snd a) c) :: values rest (step a c)
  end.

(** The drive an access acts on, as the access leaves it: the drive
    selected on entry, after the stop check, the switch and what follows. *)
Definition acted_drive (cycles reg sel : Z) (d : diskII) : diskII :=
  let seldrive := motor_stop_check cycles d in
  match register_switch cycles reg (to_i8 (last_phase_on seldrive)) sel seldrive with
  | Returned _ d' => d'
  | Continue d' _ => snd (after_switch reg d')
  end.

(** Both drives of a controller satisfy [P]. *)
Definition both_drives (P : diskII -> Prop) (c : diskII_controller) : Prop :=
  P (drive0 c) /\ P (drive1 c).

(** [n] consecutive calls of [read_nybble] on a drive: the bytes returned,
    in order, and the drive they leave. *)
Fixpoint read_nybbles (n : nat) (d : diskII) : list Z * diskII :=
  match n with
  | O => ([], d)
  | S n' =>
      let r := read_nybble d in
      let rest := read_nybbles n' (snd r) in
      (fst r :: fst rest, snd rest)
  end.

(** ** Reference definitions used to state the properties *)

(** The phase-stepping table of the design ("phase turned on",
    "last_phase_on", "step"); any other combination is no step. *)
Definition step_delta (phase last : Z) : Z :=
  match phase, last with
  | 0, 1 => -1
  | 0, 3 => 1
  | 1, 2 => -1
  | 1, 0 => 1
  | 2, 3 => -1
  | 2, 1 => 1
  | 3, 0 => -1
  | 3, 2 => 1
  | _, _ => 0
  end.

(** The length of a track's encoded byte buffer ([data] in
    [diskii_fmt.hpp]), as the design gives it. *)
Definition track_length : Z := 0x1A00.

(** The value ranges of the members of a drive, as their C++ types and the
    assignments of the handler bound them. *)
Record drive_ranges (d : diskII) : Prop := mkRanges {
  track_range : 0 <= track d <= 127;
  last_phase_on_range : 0 <= last_phase_on d <= 3;
  motor_range : motor d = 0 \/ motor d = 1;
  Q7_range : Q7 d = 0 \/ Q7 d = 1;
  Q6_range : Q6 d = 0 \/ Q6 d = 1;
  write_protect_range : write_protect d = 0 \/ write_protect d = 1;
  head_position_range : 0 <= head_position d <= track_wrap;
  bit_position_range : 0 <= bit_position d < 8;
  read_shift_register_range : 0 <= read_shift_register d < 256;
  mark_cycles_turnoff_range : 0 <= mark_cycles_turnoff d < 2 ^ 64
}.

(** A drive whose members are all zero, with an all-zero track store. *)
Definition blank_drive : diskII :=
  mkDiskII 0 0 0 0 0 0 0 0 0 0 0 0 0 0 0 0 0 (fun _ _ => 0).

(** A controller right after [init_slot_diskII]. *)
Definition fresh_controller : diskII_controller :=
  init_slot_diskII blank_drive blank_drive 0.

(** [n] accesses of one register, all at the cycle count [cycles]. *)
Definition repeat_access (cycles reg n : Z) : list (Z * Z) :=
  repeat (cycles, reg) (Z.to_nat n).

(** ** Access sequences used to state how accesses compose *)

(** Data-register reads (accesses of Q6L) at the given cycle counts. *)
Definition data_reads (cycles : list Z) : list (Z * Z) :=
  map (fun t => (t, DiskII_Q6L)) cycles.

(** The register that turns a phase on. *)
Definition phase_on_register (phase : Z) : Z := 2 * phase + 1.

(** Phase-on accesses that walk the phases downwards from [last]
    (3, 2, 1, 0, 3, ...), one per cycle count: each is the phase below the
    one turned on before. *)
Fixpoint outward_steps (cycles : list Z) (last : Z) : list (Z * Z) :=
  match cycles with
  | [] => []
  | t :: rest =>
      let phase := (last - 1) mod 4 in
      (t, phase_on_register phase) :: outward_steps rest phase
  end.

(** Phase-on accesses that walk the phases upwards from [last]
    (0, 1, 2, 3, 0, ...). *)
Fixpoint inward_steps (cycles : list Z) (last : Z) : list (Z * Z) :=
  match cycles with
  | [] => []
  | t :: rest =>
      let phase := (last + 1) mod 4 in
      (t, phase_on_register phase) :: inward_steps rest phase
  end.

(** What [read_nybble] reads and moves: the latched byte, the bit counter
    and the head. *)
Definition read_path (d : diskII) : Z * Z * Z :=
  (read_shift_register d, bit_position d, head_position d).

End DiskII.

(** * The execution scheduler ([run_cpus] in [gs2.cpp]) *)

Module Scheduler.

(** What [run_cpus] uses of the machine.  [cpu_state] is declared in
    [cpu.hpp]; the CPU core behind the function pointer [execute_next], the
    paravirtual trap [prodos_block_pv_trap] and the periodic services
    ([event_poll], [audio_generate_frame], [update_flash_state],
    [update_display]) are external to [gs2.cpp].  [execute_next] returns
    its [int] result with the state it leaves. *)
Class CpuCore (cpu_state : Type) : Type := {
  cycles : cpu_state -> Z;                       (* uint64_t *)
  pc : cpu_state -> Z;                           (* uint16_t *)
  halt : cpu_state -> Z;
  execute_next : cpu_state -> Z * cpu_state;
  prodos_block_pv_trap : cpu_state -> cpu_state;
  frame_services : cpu_state -> cpu_state
}.

Section Loop.

Context {cpu_state : Type} {core : CpuCore cpu_state}.

(** Cycles of one burst: "1/60th second". *)
Definition burst_cycles : Z := 17008.

(** [cpu->cycles - last_cycle_count], in [uint64_t]. *)
Definition elapsed (last_cycle_count : Z) (cpu : cpu_state) : Z :=
  to_u64 (cycles cpu - last_cycle_count).

(** The body of the burst loop up to its [break] test: the trap when the
    program counter stands on it, then one CPU step. *)
Definition burst_step (cpu : cpu_state) : Z * cpu_state :=
  let cpu1 := if pc cpu =? 0xC5C0 then prodos_block_pv_trap cpu else cpu in
  execute_next cpu1.

(** [while (cpu->cycles - last_cycle_count < 17008) { ... }].  The loop has
    no bound of its own; [fuel] bounds the steps taken here, and [None]
    stands for a loop still running when it is used up. *)
Fixpoint burst (fuel : nat) (last_cycle_count : Z) (cpu : cpu_state)
  : option cpu_state :=
  if elapsed last_cycle_count cpu <? burst_cycles then
    match fuel with
    | O => None
    | S fuel' =>
        let r := burst_step cpu in
        if fst r >? 0 then Some (snd r)
        else burst fuel' last_cycle_count (snd r)
    end
  else Some cpu.

(** The state after [n] steps of the burst loop. *)
Definition burst_steps (n : nat) (cpu : cpu_state) : cpu_state :=
  Nat.iter n (fun s => snd (burst_step s)) cpu.

(** How [run_cpus] stands after some iterations of its [while (1)]. *)
Inductive run_state : Type :=
| Running (cpu : cpu_state)
| Halted (cpu : cpu_state)
| Unfinished.

(** [n] iterations of the scheduler loop: a burst from the current cycle
    count, the periodic services, then the halt test.  The pacing wait
    that ends an iteration reads the wall clock only and is not modelled.
    A burst gets [Z.to_nat burst_cycles] steps of fuel, enough whenever
    every step advances the cycle counter. *)
Fixpoint run_cpus (n : nat) (cpu : cpu_state) : run_state :=
  match n with
  | O => Running cpu
  | S n' =>
      let last_cycle_count := cycles cpu in
      match burst (Z.to_nat burst_cycles) last_cycle_count cpu with
      | None => Unfinished
      | Some cpu1 =>
          let cpu2 := frame_services cpu1 in
          if halt cpu2 =? 0 then run_cpus n' cpu2 else Halted cpu2
      end
  end.

End Loop.

(** A CPU that is nothing but its cycle counter, every instruction taking
    three cycles. *)
#[local] Instance counter_core : CpuCore Z := {
  cycles := fun s => s;
  pc := fun _ => 0;
  halt := fun _ => 0;
  execute_next := fun s => (0, to_u64 (s + 3));
  prodos_block_pv_trap := fun s => s;
  frame_services := fun s => s
}.

(** A CPU that halts once its counter reaches 100: from then on a step
    signals a stop and the halt flag is raised; every instruction takes
    four cycles. *)
#[local] Instance halting_core : CpuCore Z := {
  cycles := fun s => s;
  pc := fun _ => 0;
  halt := fun s => if s >=? 100 then 1 else 0;
  execute_next := fun s => (if s >=? 100 then 1 else 0, to_u64 (s + 4));
  prodos_block_pv_trap := fun s => s;
  frame_services := fun s => s
}.

End Scheduler.

(** * The display services run by the scheduler
      ([display.cpp], [text_40x24.cpp]) *)

Module Display.

(** ** Arrays *)

(** [a[i]] on an array held as a list; [dflt] stands for what lies outside. *)
Definition array_get {A : Type} (dflt : A) (a : list A) (i : Z) : A :=
  if i <? 0 then dflt else nth (Z.to_nat i) a dflt.

Fixpoint list_set {A : Type} (n : nat) (v : A) (a : list A) : list A :=
  match a, n with
  | [], _ => []
  | _ :: rest, O => v :: rest
  | x :: rest, S n' => x :: list_set n' v rest
  end.

(** [a[i] = v]; an index outside the array writes nothing here (the code
    never makes one, see below). *)
Definition array_set {A : Type} (i : Z) (v : A) (a : list A) : list A :=
  if i <? 0 then a else list_set (Z.to_nat i) v a.

(** The integers [lo, lo + 1, ..., lo + n - 1]: the values a counting [for]
    loop runs through. *)
Fixpoint range (lo : Z) (n : nat) : list Z :=
  match n with
  | O => []
  | S n' => lo :: range (lo + 1) n'
  end.

(** ** Modes and pages ([display.hpp]) *)

Inductive display_mode_t : Type := TEXT_MODE | GRAPHICS_MODE.
Inductive display_split_mode_t : Type := FULL_SCREEN | SPLIT_SCREEN.
Inductive display_graphics_mode_t : Type := LORES_MODE | HIRES_MODE.
Inductive line_mode_t : Type := LM_TEXT_MODE | LM_LORES_MODE | LM_HIRES_MODE.
Inductive display_page_number_t : Type := DISPLAY_PAGE_1 | DISPLAY_PAGE_2.

(** [display_color_mode_t] is used as a number: [DM_COLOR_MODE = 0],
    [DM_GREEN_MODE = 1], [DM_AMBER_MODE = 2], and their count. *)
Definition DM_NUM_MODES : Z := 3.

(** [display_page_t]. *)
Record display_page_t : Type := mkPage {
  text_page_start : Z;
  text_page_end : Z;
  text_page_table : list Z;
  hgr_page_start : Z;
  hgr_page_end : Z;
  hgr_page_table : list Z
}.

(** [display_pages[NUM_DISPLAY_PAGES]]. *)
Definition display_page_1 : display_page_t :=
  mkPage 0x0400 0x07FF
    [0x0400; 0x0480; 0x0500; 0x0580; 0x0600; 0x0680; 0x0700; 0x0780;
     0x0428; 0x04A8; 0x0528; 0x05A8; 0x0628; 0x06A8; 0x0728; 0x07A8;
     0x0450; 0x04D0; 0x0550; 0x05D0; 0x0650; 0x06D0; 0x0750; 0x07D0]
    0x2000 0x3FFF
    [0x2000; 0x2080; 0x2100; 0x2180; 0x2200; 0x2280; 0x2300; 0x2380;
     0x2028; 0x20A8; 0x2128; 0x21A8; 0x2228; 0x22A8; 0x2328; 0x23A8;
     0x2050; 0x20D0; 0x2150; 0x21D0; 0x2250; 0x22D0; 0x2350; 0x23D0].

Definition display_page_2 : display_page_t :=
  mkPage 0x0800 0x0BFF
    [0x0800; 0x0880; 0x0900; 0x0980; 0x0A00; 0x0A80; 0x0B00; 0x0B80;
     0x0828; 0x08A8; 0x0928; 0x09A8; 0x0A28; 0x0AA8; 0x0B28; 0x0BA8;
     0x0850; 0x08D0; 0x0950; 0x09D0; 0x0A50; 0x0AD0; 0x0B50; 0x0BD0]
    0x4000 0x5FFF
    [0x4000; 0x4080; 0x4100; 0x4180; 0x4200; 0x4280; 0x4300; 0x4380;
     0x4028; 0x40A8; 0x4128; 0x41A8; 0x4228; 0x42A8; 0x4328; 0x43A8;
     0x4050; 0x40D0; 0x4150; 0x41D0; 0x4250; 0x42D0; 0x4350; 0x43D0].

Definition display_pages (page : display_page_number_t) : display_page_t :=
  match page with
  | DISPLAY_PAGE_1 => display_page_1
  | DISPLAY_PAGE_2 => display_page_2
  end.

(** [display_state_t], without the SDL handles.  [display_page_table]
    points into the constant [display_pages] and is held as the page it
    points to. *)
Record display_state_t : Type := mkDisplay {
  color_mode : Z;
  display_mode : display_mode_t;
  display_split_mode : display_split_mode_t;
  display_graphics_mode : display_graphics_mode_t;
  display_page_num : display_page_number_t;
  display_page_table : display_page_t;
  flash_state : bool;
  dirty_line : list Z;                 (* uint32_t[24] *)
  line_mode : list line_mode_t         (* line_mode_t[24] *)
}.

Definition set_color_mode (v : Z) (ds : display_state_t) : display_state_t :=
  mkDisplay v (display_mode ds) (display_split_mode ds)
    (display_graphics_mode ds) (display_page_num ds) (display_page_table ds)
    (flash_state ds) (dirty_line ds) (line_mode ds).

Definition set_display_mode_field (v : display_mode_t) (ds : display_state_t)
  : display_state_t :=
  mkDisplay (color_mode ds) v (display_split_mode ds)
    (display_graphics_mode ds) (display_page_num ds) (display_page_table ds)
    (flash_state ds) (dirty_line ds) (line_mode ds).

Definition set_display_split_mode (v : display_split_mode_t)
  (ds : display_state_t) : display_state_t :=
  mkDisplay (color_mode ds) (display_mode ds) v
    (display_graphics_mode ds) (display_page_num ds) (display_page_table ds)
    (flash_state ds) (dirty_line ds) (line_mode ds).

Definition set_display_graphics_mode (v : display_graphics_mode_t)
  (ds : display_state_t) : display_state_t :=
  mkDisplay (color_mode ds) (display_mode ds) (display_split_mode ds)
    v (display_page_num ds) (display_page_table ds)
    (flash_state ds) (dirty_line ds) (line_mode ds).

Definition set_display_page_table (v : display_page_t) (ds : display_state_t)
  : display_state_t :=
  mkDisplay (color_mode ds) (display_mode ds) (display_split_mode ds)
    (display_graphics_mode ds) (display_page_num ds) v
    (flash_state ds) (dirty_line ds) (line_mode ds).

Definition set_flash_state (v : bool) (ds : display_state_t) : display_state_t :=
  mkDisplay (color_mode ds) (display_mode ds) (display_split_mode ds)
    (display_graphics_mode ds) (display_page_num ds) (display_page_table ds)
    v (dirty_line ds) (line_mode ds).

Definition set_dirty_line (v : list Z) (ds : display_state_t) : display_state_t :=
  mkDisplay (color_mode ds) (display_mode ds) (display_split_mode ds)
    (display_graphics_mode ds) (display_page_num ds) (display_page_table ds)
    (flash_state ds) v (line_mode ds).

Definition set_line_mode (v : list line_mode_t) (ds : display_state_t)
  : display_state_t :=
  mkDisplay (color_mode ds) (display_mode ds) (display_split_mode ds)
    (display_graphics_mode ds) (display_page_num ds) (display_page_table ds)
    (flash_state ds) (dirty_line ds) v.

(** [display_state_t::display_state_t()].  The arrays hold whatever the
    allocation holds ([raw_dirty], [raw_modes]); the constructor clears
    [dirty_line] and does not set [line_mode]. *)
Definition display_state_new (raw_dirty : list Z) (raw_modes : list line_mode_t)
  : display_state_t :=
  mkDisplay 0 TEXT_MODE FULL_SCREEN LORES_MODE DISPLAY_PAGE_1
    (display_pages DISPLAY_PAGE_1) false
    (fold_left (fun dirty i => array_set i 0 dirty) (range 0 24) raw_dirty)
    raw_modes.

(** ** Mode switches ([display.cpp]) *)

(** [set_display_page]: only the page table pointer moves. *)
Definition set_display_page (page : display_page_number_t)
  (ds : display_state_t) : display_state_t :=
  set_display_page_table (display_pages page) ds.

(** [update_line_mode]. *)
Definition update_line_mode (ds : display_state_t) : display_state_t :=
  let top_mode :=
    match display_mode ds with
    | TEXT_MODE => LM_TEXT_MODE
    | GRAPHICS_MODE =>
        match display_graphics_mode ds with
        | LORES_MODE => LM_LORES_MODE
        | HIRES_MODE => LM_HIRES_MODE
        end
    end in
  let bottom_mode :=
    match display_split_mode ds with
    | SPLIT_SCREEN => LM_TEXT_MODE
    | FULL_SCREEN => top_mode
    end in
  let lm1 :=
    fold_left (fun lm y => array_set y top_mode lm) (range 0 20) (line_mode ds) in
  let lm2 :=
    fold_left (fun lm y => array_set y bottom_mode lm) (range 20 4) lm1 in
  set_line_mode lm2 ds.

Definition set_display_mode (mode : display_mode_t) (ds : display_state_t)
  : display_state_t :=
  update_line_mode (set_display_mode_field mode ds).

Definition set_split_mode (mode : display_split_mode_t) (ds : display_state_t)
  : display_state_t :=
  update_line_mode (set_display_split_mode mode ds).

Definition set_graphics_mode (mode : display_graphics_mode_t)
  (ds : display_state_t) : display_state_t :=
  update_line_mode (set_display_graphics_mode mode ds).

(** [force_display_update]. *)
Definition force_display_update (ds : display_state_t) : display_state_t :=
  set_dirty_line
    (fold_left (fun dirty y => array_set y 1 dirty) (range 0 24) (dirty_line ds))
    ds.

(** The soft switches [$C050 .. $C057]; each returns 0.  The write
    handlers [txt_bus_write_C050 ..] call the read handlers and do the
    same. *)
Definition txt_bus_read_C050 (ds : display_state_t) : Z * display_state_t :=
  (0, force_display_update (set_display_mode GRAPHICS_MODE ds)).

Definition txt_bus_read_C051 (ds : display_state_t) : Z * display_state_t :=
  (0, force_display_update (set_display_mode TEXT_MODE ds)).

Definition txt_bus_read_C052 (ds : display_state_t) : Z * display_state_t :=
  (0, force_display_update (set_split_mode FULL_SCREEN ds)).

Definition txt_bus_read_C053 (ds : display_state_t) : Z * display_state_t :=
  (0, force_display_update (set_split_mode SPLIT_SCREEN ds)).

Definition txt_bus_read_C054 (ds : display_state_t) : Z * display_state_t :=
  (0, force_display_update (set_display_page DISPLAY_PAGE_1 ds)).

Definition txt_bus_read_C055 (ds : display_state_t) : Z * display_state_t :=
  (0, force_display_update (set_display_page DISPLAY_PAGE_2 ds)).

Definition txt_bus_read_C056 (ds : display_state_t) : Z * display_state_t :=
  (0, force_display_update (set_graphics_mode LORES_MODE ds)).

Definition txt_bus_read_C057 (ds : display_state_t) : Z * display_state_t :=
  (0, force_display_update (set_graphics_mode HIRES_MODE ds)).

(** The eight handlers, in the order of their addresses. *)
Definition soft_switches : list (display_state_t -> Z * display_state_t) :=
  [txt_bus_read_C050; txt_bus_read_C051; txt_bus_read_C052; txt_bus_read_C053;
   txt_bus_read_C054; txt_bus_read_C055; txt_bus_read_C056; txt_bus_read_C057].

(** [toggle_display_color_mode]. *)
Definition toggle_display_color_mode (ds : display_state_t) : display_state_t :=
  set_color_mode (Z.rem (color_mode ds + 1) DM_NUM_MODES) ds.

(** ** Redrawing ([display.cpp]) *)

(** What [update_display] does to the screen: the lines it has
    [render_line] draw, in order, and whether it presents the texture. *)
Record redraw : Type := mkRedraw {
  rendered : list Z;
  presented : bool
}.

(** The loop of [update_display] over the lines [lines]. *)
Fixpoint update_lines (lines : list Z) (dirty : list Z) (out : redraw)
  : list Z * redraw :=
  match lines with
  | [] => (dirty, out)
  | line :: rest =>
      if negb (array_get 0 dirty line =? 0)
      then update_lines rest (array_set line 0 dirty)
             (mkRedraw (rendered out ++ [line]) true)
      else update_lines rest dirty out
  end.

(** [update_display]. *)
Definition update_display (ds : display_state_t) : redraw * display_state_t :=
  let r := update_lines (range 0 24) (dirty_line ds) (mkRedraw [] false) in
  (snd r, set_dirty_line (fst r) ds).

(** Whether line [y] is marked dirty. *)
Definition is_dirty (dirty : list Z) (y : Z) : bool :=
  negb (array_get 0 dirty y =? 0).

(** ** Text page writes and flashing ([text_40x24.cpp]) *)

(** [txt_memory_write]: the line of the text page that the address falls
    on is marked dirty. *)
Definition txt_memory_write (address value : Z) (ds : display_state_t)
  : display_state_t :=
  let TEXT_PAGE_START := text_page_start (display_page_table ds) in
  let TEXT_PAGE_END := text_page_end (display_page_table ds) in
  if (address <? TEXT_PAGE_START) || (address >? TEXT_PAGE_END) then ds
  else
    let addr_rel := to_u16 (address - TEXT_PAGE_START) in
    let superrow := to_u8 (Z.shiftr addr_rel 7) in
    let superoffset := to_u8 (Z.land addr_rel 0x7F) in
    let subrow := to_u8 (Z.quot superoffset 40) in
    let charoffset := to_u8 (Z.rem superoffset 40) in
    let y_loc := to_u8 (subrow * 8 + superrow) in
    let x_loc := charoffset in
    if (x_loc >=? 40) || (y_loc >=? 24) then ds
    else
      let ds1 :=
        match display_mode ds, display_split_mode ds with
        | GRAPHICS_MODE, SPLIT_SCREEN =>
            if (y_loc >=? 20) && (y_loc <? 24)
            then set_dirty_line (array_set y_loc 1 (dirty_line ds)) ds
            else ds
        | _, _ => ds
        end in
      set_dirty_line (array_set y_loc 1 (dirty_line ds1)) ds1.

(** A flashing character: [(character & 0b11000000) == 0x40]. *)
Definition is_flash_char (character : Z) : bool :=
  Z.land character 0xC0 =? 0x40.

(** The inner loop of [update_flash_state] on one line, from column [x]:
    whether it comes upon a flashing character (and breaks). *)
Fixpoint line_has_flash (memory : Z -> Z) (base x : Z) (columns : nat) : bool :=
  match columns with
  | O => false
  | S columns' =>
      let addr := to_u16 (base + x) in
      let character := to_u8 (memory addr) in
      if is_flash_char character then true
      else line_has_flash memory base (x + 1) columns'
  end.

(** [update_flash_state].  [flash_counter] is the function's static
    counter, passed in and handed back; [memory] is what [raw_memory_read]
    returns. *)
Definition update_flash_state (memory : Z -> Z) (flash_counter : Z)
  (ds : display_state_t) : Z * display_state_t :=
  let flash_counter := flash_counter + 1 in
  if flash_counter <? 30 then (flash_counter, ds)
  else
    let ds1 := set_flash_state (negb (flash_state ds)) ds in
    let TEXT_PAGE_TABLE := text_page_table (display_page_table ds1) in
    (0,
     set_dirty_line
       (fold_left
          (fun dirty y =>
             if line_has_flash memory (array_get 0 TEXT_PAGE_TABLE y) 0 40
             then array_set y 1 dirty else dirty)
          (range 0 24) (dirty_line ds1))
       ds1).

(** [n] calls of [update_flash_state], one per frame. *)
Fixpoint flash_frames (memory : Z -> Z) (n : nat) (flash_counter : Z)
  (ds : display_state_t) : Z * display_state_t :=
  match n with
  | O => (flash_counter, ds)
  | S n' =>
      let r := update_flash_state memory flash_counter ds in
      flash_frames memory n' (fst r) (snd r)
  end.

(** ** The text font and the drawing of a character ([text_40x24.cpp]) *)

(** [uint32_t] arithmetic. *)
Definition to_u32 (z : Z) : Z := z mod 2 ^ 32.

(** [a[i] = v] on an array of pixels held as the function from index to
    pixel. *)
Definition store (a : Z -> Z) (i v : Z) : Z -> Z :=
  fun j => if j =? i then v else a j.

Definition CHAR_GLYPHS_COUNT : Z := 256.
Definition CHAR_GLYPHS_SIZE : Z := 8.

(** The inner loop of [pre_calculate_font] over the columns [cols] of one
    ROM row; [None] is the [exit(1)] of its bounds test. *)
Fixpoint font_columns (rowBits : Z) (cols : list Z) (font : Z -> Z)
  (pos_index : Z) : option ((Z -> Z) * Z) :=
  match cols with
  | [] => Some (font, pos_index)
  | col :: rest =>
      let fg_color := 0xFFFFFFFF in
      let bg_color := 0x00000000 in
      let pixel := negb (Z.land rowBits (Z.shiftl 1 (6 - col)) =? 0) in
      let color := if pixel then fg_color else bg_color in
      let font1 := store font pos_index color in
      let pos_index1 := to_u32 (pos_index + 1) in
      if pos_index1 >? CHAR_GLYPHS_COUNT * CHAR_GLYPHS_SIZE * 8 then None
      else font_columns rowBits rest font1 pos_index1
  end.

(** The outer loop of [pre_calculate_font] over the ROM rows [rows]. *)
Fixpoint font_rows (char_rom_data : Z -> Z) (rows : list Z) (font : Z -> Z)
  (pos_index : Z) : option ((Z -> Z) * Z) :=
  match rows with
  | [] => Some (font, pos_index)
  | row :: rest =>
      let rowBits := to_u8 (char_rom_data row) in
      match font_columns rowBits (range 0 7) font pos_index with
      | Some r => font_rows char_rom_data rest (fst r) (snd r)
      | None => None
      end
  end.

(** [pre_calculate_font]: [APPLE2_FONT_32] filled from the character ROM;
    [font] is what the array held before. *)
Definition pre_calculate_font (char_rom_data : Z -> Z) (font : Z -> Z) :=
  match font_rows char_rom_data (range 0 (Z.to_nat (256 * 8))) font 0 with
  | Some r => Some (fst r)
  | None => None
  end.

(** [text_color_table[DM_NUM_MODES]]. *)
Definition text_color_table : list Z := [0xFFFFFFFF; 0xFFBF00FF; 0x009933FF].

(** One row of the drawing loop of [render_text]: seven pixels from
    [charPixels] to the texture row. *)
Definition render_text_row (font : Z -> Z) (xor_mask color_value : Z)
  (pitchoff charoff : Z) (st : Z * (Z -> Z)) (row : Z) : Z * (Z -> Z) :=
  let charPixels := fst st in
  let base := to_u32 (row * pitchoff) in
  let put k texturePixels :=
    store texturePixels (to_u32 (base + charoff + k))
      (Z.land (Z.lxor (font (charPixels + k)) xor_mask) color_value) in
  (charPixels + 7,
   put 6 (put 5 (put 4 (put 3 (put 2 (put 1 (put 0 (snd st)))))))).

(** Whether [render_text] draws the character inverted. *)
Definition inverse_video (character : Z) (ds : display_state_t) : bool :=
  if Z.land character 0xC0 =? 0 then true
  else if Z.land character 0xC0 =? 0x40 then flash_state ds
  else false.

(** [render_text]: the character at column [x] of line [y] drawn into
    the locked texture [pixels] of the line, [pitch] bytes a row.  The
    address read, [TEXT_PAGE_TABLE[y] + x], is below 0x10000 for every
    line and column that pass the bounds test. *)
Definition render_text (memory font : Z -> Z) (x y : Z) (pitch : Z)
  (ds : display_state_t) (pixels : Z -> Z) : Z -> Z :=
  let color_value := array_get 0 text_color_table (color_mode ds) in
  let TEXT_PAGE_TABLE := text_page_table (display_page_table ds) in
  if (x <? 0) || (x >=? 40) || (y <? 0) || (y >=? 24) then pixels
  else
    let character := to_u8 (memory (array_get 0 TEXT_PAGE_TABLE y + x)) in
    let charPixels := character * 56 in
    let inverse := inverse_video character ds in
    let xor_mask := if inverse then 0xFFFFFFFF else 0x00000000 in
    let pitchoff := Z.quot pitch 4 in
    let charoff := x * 7 in
    snd (fold_left (render_text_row font xor_mask color_value pitchoff charoff)
           (range 0 8) (charPixels, pixels)).

End Display.

Import DiskII.

(** * Properties of the Disk II controller *)

(** ** Basic facts *)

Lemma drive_set_drive (i : Z) (d : diskII) (c : diskII_controller) :
  drive (set_drive i d c) i = d.
Proof. unfold drive, set_drive. destruct (i =? 0); reflexivity. Qed.

Lemma drive_select_set_drive (i : Z) (d : diskII) (c : diskII_controller) :
  drive_select (set_drive i d c) = drive_select c.
Proof. unfold set_drive. destruct (i =? 0); reflexivity. Qed.

Lemma drive_set_drive_select (v i : Z) (c : diskII_controller) :
  drive (set_drive_select v c) i = drive c i.
Proof. reflexivity. Qed.

(** Case analysis on a register number: the sixteen registers, and the
    numbers the switch has no case for. *)
Ltac case_reg reg :=
  let p := fresh "p" in
  destruct reg as [|p|p];
  [ | do 4 (try destruct p as [p|p|]) | ].

(** Projections of updated records. *)
Ltac fields :=
  cbn [rw_mode track phase0 phase1 phase2 phase3 last_phase_on motor Q7 Q6
       write_protect image_index head_position bit_position
       read_shift_register last_read_cycle mark_cycles_turnoff nibblized
       set_track set_phase0 set_phase1 set_phase2 set_phase3
       set_last_phase_on set_motor set_Q7 set_Q6 set_write_protect
       set_image_index set_head_position set_bit_position
       set_read_shift_register set_mark_cycles_turnoff set_nibblized
       fst snd] in *.

Ltac split_ifs :=
  repeat match goal with
    | |- context [if ?b then _ else _] =>
        lazymatch b with
        | context [if _ then _ else _] => fail
        | _ => idtac
        end;
        let E := fresh "E" in
        destruct b eqn:E; fields; cbn [Z.land Pos.land Z.eqb Pos.eqb andb] in E;
        try discriminate E
    end.

(** Linear arithmetic with the fixed-width conversions written out. *)
Ltac zsolve :=
  unfold to_i8, to_u8, to_u16, to_u64 in *; Z.div_mod_to_equations; lia.

Lemma motor_stop_check_track (cycles : Z) (d : diskII) :
  track (motor_stop_check cycles d) = track d.
Proof. unfold motor_stop_check. split_ifs; reflexivity. Qed.

Lemma read_nybble_track (d : diskII) :
  track (snd (read_nybble d)) = track d.
Proof. unfold read_nybble. split_ifs; reflexivity. Qed.

Lemma to_i8_range (z : Z) : -128 <= to_i8 z <= 127.
Proof. unfold to_i8. pose proof (Z.mod_pos_bound (z + 128) 256). lia. Qed.

Lemma to_i8_id (z : Z) : -128 <= z <= 127 -> to_i8 z = z.
Proof. intros H. unfold to_i8. rewrite Z.mod_small; lia. Qed.

Lemma to_u8_id (z : Z) : 0 <= z < 256 -> to_u8 z = z.
Proof. intros H. unfold to_u8. apply Z.mod_small; lia. Qed.

Lemma access_register_acted (cycles reg : Z) (c : diskII_controller) :
  drive (snd (access_register cycles reg c)) (drive_select c)
  = acted_drive cycles reg (drive_select c) (drive c (drive_select c)).
Proof.
  unfold access_register, acted_drive.
  destruct (register_switch _ _ _ _ _); cbn [snd];
    rewrite ?drive_set_drive_select, drive_set_drive; reflexivity.
Qed.

(** An access leaves the track of the drive it acts on non-negative, when it
    was so before. *)
Lemma acted_drive_track_nonneg (cycles reg sel : Z) (d : diskII) :
  0 <= track d -> 0 <= track (acted_drive cycles reg sel d).
Proof.
  intros H. unfold acted_drive.
  rewrite <- (motor_stop_check_track cycles) in H.
  set (d1 := motor_stop_check cycles d) in *. clearbody d1.
  case_reg reg; cbn [register_switch];
    unfold phase_on, track_dec, track_inc, after_switch;
    split_ifs; rewrite ?read_nybble_track; fields; try zsolve.
Qed.

(** The handler is registered for the sixteen addresses of slot 6
    ([init_slot_diskII(&CPUs[0], 6)]): there it is [access_register] on the
    controller of slot 6, with the register number the offset from the slot
    base [0xC0E0]. *)
Lemma diskII_read_C0xx_slot6
  (cycles address : Z) (slots : module_state) (c : diskII_controller) :
  0xC0E0 <= address <= 0xC0EF ->
  nth_error slots 6 = Some c ->
  diskII_read_C0xx cycles slots address
  = Some (fst (access_register cycles (address - 0xC0E0) c),
          set_slot 6 (snd (access_register cycles (address - 0xC0E0) c)) slots).
Proof.
  intros Ha Hc. unfold diskII_read_C0xx.
  assert (to_u16 (address - 0xC080) = address - 0xC080) as ->
    by (unfold to_u16; apply Z.mod_small; lia).
  assert (Z.land (address - 0xC080) 0x0F = address - 0xC0E0) as ->.
  { change 0x0F with (Z.ones 4). rewrite Z.land_ones by lia.
    change (2 ^ 4) with 16. Z.div_mod_to_equations. lia. }
  assert (to_u8 (Z.shiftr (address - 0xC080) 4) = 6) as ->.
  { rewrite Z.shiftr_div_pow2 by lia. change (2 ^ 4) with 16.
    unfold to_u8. Z.div_mod_to_equations. lia. }
  change (Z.to_nat 6) with 6%nat. rewrite Hc. reflexivity.
Qed.

(** An access writes to the drive selected on entry and to [drive_select]
    only: the other drive is left as it was. *)
Lemma access_register_drive1 (cycles reg : Z) (c : diskII_controller) :
  drive_select c = 0 ->
  drive1 (snd (access_register cycles reg c)) = drive1 c.
Proof.
  intros H. unfold access_register. rewrite H.
  destruct (register_switch _ _ _ _ _); reflexivity.
Qed.

Lemma access_register_drive0 (cycles reg : Z) (c : diskII_controller) :
  drive_select c <> 0 ->
  drive0 (snd (access_register cycles reg c)) = drive0 c.
Proof.
  intros H. unfold access_register, set_drive.
  destruct (drive_select c =? 0) eqn:E; [lia|].
  destruct (register_switch _ _ _ _ _); reflexivity.
Qed.

(** [drive_select] changes on the two select registers only. *)
Lemma access_register_drive_select (cycles reg : Z) (c : diskII_controller) :
  drive_select (snd (access_register cycles reg c))
  = match reg with
    | DiskII_Drive1_Select => 0
    | DiskII_Drive2_Select => 1
    | _ => drive_select c
    end.
Proof.
  unfold access_register.
  case_reg reg; cbn [register_switch]; split_ifs; cbn [snd];
    rewrite ?drive_select_set_drive; reflexivity.
Qed.

(** A property of controllers kept by every access holds all along a
    sequence of accesses. *)
Lemma trace_invariant (P : diskII_controller -> Prop) :
  (forall a c, P c -> P (step a c)) ->
  forall accesses c, P c -> Forall P (trace accesses c).
Proof.
  intros Hstep accesses.
  induction accesses as [|a rest IH]; intros c Hc; cbn [trace].
  - constructor.
  - constructor; [|apply IH]; apply Hstep; exact Hc.
Qed.

Lemma run_invariant (P : diskII_controller -> Prop) :
  (forall a c, P c -> P (step a c)) ->
  forall accesses c, P c -> P (run accesses c).
Proof.
  intros Hstep accesses.
  induction accesses as [|a rest IH]; intros c Hc; cbn [run].
  - exact Hc.
  - apply IH, Hstep, Hc.
Qed.

(** A property of drives kept by the acting part of an access is kept, on
    both drives, by the access. *)
Lemma step_both_drives (P : diskII -> Prop) :
  (forall cycles reg sel d, P d -> P (acted_drive cycles reg sel d)) ->
  forall a c, both_drives P c -> both_drives P (step a c).
Proof.
  intros Hact [cycles reg] c [H0 H1]. unfold step, both_drives. cbn [fst snd].
  pose proof (access_register_acted cycles reg c) as Ha.
  unfold drive in Ha.
  destruct (drive_select c =? 0) eqn:E.
  - rewrite Ha, access_register_drive1 by lia. split; [apply Hact|]; assumption.
  - rewrite Ha, access_register_drive0 by lia. split; [|apply Hact]; assumption.
Qed.

Lemma init_slot_diskII_track (raw0 raw1 : diskII) (raw_select : Z) :
  both_drives (fun d => 0 <= track d) (init_slot_diskII raw0 raw1 raw_select).
Proof. split; cbn; lia. Qed.


(** ** The bit-serial read *)

Lemma read_nybble_motor_off (d : diskII) :
  motor d = 0 -> read_nybble d = (read_shift_register d, d).
Proof. intros H. unfold read_nybble. rewrite H. reflexivity. Qed.

(** With the motor on and a byte in progress, a read exposes one more bit of
    the latched byte and leaves the head where it is. *)
Lemma read_nybble_shift (d : diskII) :
  motor d <> 0 -> 0 < bit_position d < 8 ->
  read_nybble d
  = (to_u8 (Z.shiftr (read_shift_register d) (7 - bit_position d)),
     set_bit_position ((bit_position d + 1) mod 8) d).
Proof.
  intros Hm Hb. unfold read_nybble.
  destruct (motor d =? 0) eqn:E; [lia|].
  destruct (bit_position d =? 0) eqn:E0; [lia|]. fields.
  rewrite (to_u8_id (bit_position d + 1)) by lia.
  replace (8 - (bit_position d + 1)) with (7 - bit_position d) by lia.
  destruct (bit_position d + 1 =? 8) eqn:E8.
  - replace ((bit_position d + 1) mod 8) with 0
      by (replace (bit_position d + 1) with 8 by lia; reflexivity).
    reflexivity.
  - rewrite Z.mod_small by lia. reflexivity.
Qed.

(** With the motor on and no byte in progress, a read latches the byte under
    the head, moves the head on, and exposes the top bit of that byte. *)
Lemma read_nybble_latch (d : diskII) :
  motor d <> 0 -> bit_position d = 0 ->
  read_nybble d
  = let b := to_u8 (nibblized d (Z.quot (track d) 2) (head_position d)) in
    (to_u8 (Z.shiftr b 7),
     set_bit_position 1
       (set_head_position
          (if head_position d >=? track_wrap then 0
           else to_u16 (head_position d + 1))
          (set_read_shift_register b d))).
Proof.
  intros Hm Hb. unfold read_nybble.
  destruct (motor d =? 0) eqn:E; [lia|]. rewrite Hb. cbn [Z.eqb].
  destruct (head_position d >=? track_wrap); fields; rewrite Hb; reflexivity.
Qed.

Lemma to_u8_range (z : Z) : 0 <= to_u8 z < 256.
Proof. unfold to_u8. apply Z.mod_pos_bound. lia. Qed.

Lemma shiftr_byte (b k : Z) : 0 <= b < 256 -> 0 <= k -> 0 <= Z.shiftr b k < 256.
Proof.
  intros Hb Hk. rewrite Z.shiftr_div_pow2 by lia.
  assert (0 < 2 ^ k) by (apply Z.pow_pos_nonneg; lia).
  split.
  - apply Z.div_pos; lia.
  - apply Z.div_lt_upper_bound; nia.
Qed.

Lemma read_nybble_ranges (d : diskII) :
  drive_ranges d -> drive_ranges (snd (read_nybble d)).
Proof.
  intros [Ht Hl Hm H7 H6 Hw Hh Hb Hr Hk].
  destruct (Z.eq_dec (motor d) 0) as [E|E].
  - rewrite read_nybble_motor_off by exact E. constructor; assumption.
  - destruct (Z.eq_dec (bit_position d) 0) as [E0|E0].
    + rewrite read_nybble_latch by assumption. cbv zeta.
      constructor; fields; try assumption; try lia.
      * unfold track_wrap in *.
        destruct (head_position d >=? 6656) eqn:Eh; zsolve.
      * apply to_u8_range.
    + rewrite read_nybble_shift by lia.
      constructor; fields; try assumption.
      pose proof (Z.mod_pos_bound (bit_position d + 1) 8). lia.
Qed.

(** ** Value ranges are kept by every access *)

Lemma motor_stop_check_ranges (cycles : Z) (d : diskII) :
  drive_ranges d -> drive_ranges (motor_stop_check cycles d).
Proof.
  intros [Ht Hl Hm H7 H6 Hw Hh Hb Hr Hk]. unfold motor_stop_check.
  split_ifs; constructor; fields; try assumption; lia.
Qed.

Lemma acted_drive_ranges (cycles reg sel : Z) (d : diskII) :
  drive_ranges d -> drive_ranges (acted_drive cycles reg sel d).
Proof.
  intros H. apply (motor_stop_check_ranges cycles) in H.
  unfold acted_drive.
  set (d1 := motor_stop_check cycles d) in *. clearbody d1.
  case_reg reg; cbn [register_switch];
    unfold phase_on, track_dec, track_inc, after_switch;
    split_ifs; try apply read_nybble_ranges;
    destruct H as [Ht Hl Hm H7 H6 Hw Hh Hb Hr Hk];
    constructor; fields; try assumption; try lia;
    try (pose proof (Z.mod_pos_bound (cycles + motor_off_delay) (2 ^ 64));
         unfold to_u64; lia);
    zsolve.
Qed.

Lemma init_slot_diskII_ranges (raw0 raw1 : diskII) (raw_select : Z) :
  both_drives drive_ranges (init_slot_diskII raw0 raw1 raw_select).
Proof.
  split; constructor; cbn; unfold track_wrap; lia.
Qed.

(** Every state reached from an initialised controller keeps the members of
    both drives in range. *)
Lemma run_ranges (raw0 raw1 : diskII) (raw_select : Z) (accesses : list (Z * Z)) :
  both_drives drive_ranges
    (run accesses (init_slot_diskII raw0 raw1 raw_select)).
Proof.
  apply run_invariant.
  - apply step_both_drives. intros. apply acted_drive_ranges. assumption.
  - apply init_slot_diskII_ranges.
Qed.

(** [drive_select] is 0 or 1 in every state reached from an initialised
    controller. *)
Lemma drive_select_01 (raw0 raw1 : diskII) (raw_select : Z) (accesses : list (Z * Z)) :
  let c := run accesses (init_slot_diskII raw0 raw1 raw_select) in
  drive_select c = 0 \/ drive_select c = 1.
Proof.
  cbv zeta.
  apply (run_invariant (fun c => drive_select c = 0 \/ drive_select c = 1)).
  - intros [cycles reg] c H. unfold step. cbn [fst snd].
    rewrite access_register_drive_select.
    case_reg reg; auto.
  - left. reflexivity.
Qed.

Lemma motor_stop_check_last_phase_on (cycles : Z) (d : diskII) :
  last_phase_on (motor_stop_check cycles d) = last_phase_on d.
Proof. unfold motor_stop_check. split_ifs; reflexivity. Qed.

(** ** Head stepping *)

Lemma step_delta_other (phase last : Z) :
  last < 0 \/ 4 <= last -> step_delta phase last = 0.
Proof.
  intros H. unfold step_delta.
  destruct phase as [|p|p]; [ | do 2 (try destruct p as [p|p|]) | ];
    (destruct last as [|q|q]; [ | do 3 (try destruct q as [q|q|]) | ]);
    try reflexivity; lia.
Qed.

(** A phase-on access steps by the table, narrows the track to [int8_t] and
    clamps a negative track to 0; it records the phase turned on. *)
Lemma acted_drive_phase_on (cycles sel phase : Z) (d : diskII) :
  0 <= phase <= 3 ->
  0 <= last_phase_on d <= 255 ->
  let d' := acted_drive cycles (2 * phase + 1) sel d in
  let stepped :=
    if step_delta phase (last_phase_on d) =? 0 then track d
    else to_i8 (track d + step_delta phase (last_phase_on d)) in
  track d' = (if stepped <? 0 then 0 else stepped)
  /\ last_phase_on d' = phase.
Proof.
  intros Hp Hl. cbv zeta. unfold acted_drive.
  rewrite <- (motor_stop_check_track cycles d).
  rewrite <- (motor_stop_check_last_phase_on cycles d) in *.
  set (d1 := motor_stop_check cycles d) in *. clearbody d1.
  assert (last_phase_on d1 = 0 \/ last_phase_on d1 = 1 \/ last_phase_on d1 = 2
          \/ last_phase_on d1 = 3 \/ 4 <= last_phase_on d1 <= 255) as Hc by lia.
  assert (phase = 0 \/ phase = 1 \/ phase = 2 \/ phase = 3) as Hq by lia.
  destruct Hq as [ -> | [ -> | [ -> | -> ]]];
    cbn [Z.mul Z.add Pos.mul Pos.add register_switch];
    unfold phase_on, track_dec, track_inc, after_switch;
    (destruct Hc as [E | [E | [E | [E | E]]]];
     [ rewrite (to_i8_id (last_phase_on d1)) by lia; rewrite E ..
     | rewrite step_delta_other by lia ]);
    cbn [step_delta Z.eqb Pos.eqb Z.land Pos.land andb];
    split_ifs; fields; split; try reflexivity; try zsolve.
Qed.

Lemma read_nybble_last_phase_on (d : diskII) :
  last_phase_on (snd (read_nybble d)) = last_phase_on d.
Proof. unfold read_nybble. split_ifs; reflexivity. Qed.

(** A phase-off access leaves the (non-negative) track and the recorded
    phase as they were. *)
Lemma acted_drive_phase_off (cycles sel phase : Z) (d : diskII) :
  0 <= phase <= 3 ->
  0 <= track d ->
  let d' := acted_drive cycles (2 * phase) sel d in
  track d' = track d /\ last_phase_on d' = last_phase_on d.
Proof.
  intros Hp Ht. cbv zeta. unfold acted_drive.
  rewrite <- (motor_stop_check_track cycles d) in *.
  rewrite <- (motor_stop_check_last_phase_on cycles d).
  set (d1 := motor_stop_check cycles d) in *. clearbody d1.
  assert (phase = 0 \/ phase = 1 \/ phase = 2 \/ phase = 3) as Hq by lia.
  destruct Hq as [ -> | [ -> | [ -> | -> ]]];
    cbn [Z.mul Pos.mul register_switch]; unfold after_switch;
    split_ifs; rewrite ?read_nybble_track, ?read_nybble_last_phase_on;
    fields; split; try reflexivity; lia.
Qed.

(** C1, as stated, fails where the table steps outward from track 0: on a
    freshly initialised controller ([track = 0], [last_phase_on = 0]) the
    access "phase 3 on" has the table delta -1, yet the track stays 0. *)
Lemma phase_on_delta_counterexample :
  let c := fresh_controller in
  let d := drive c (drive_select c) in
  let d' := drive (snd (access_register 0 DiskII_Ph3_On c)) (drive_select c) in
  step_delta 3 (last_phase_on d) = -1
  /\ track d' <> track d + step_delta 3 (last_phase_on d).
Proof. cbv zeta. split; [reflexivity|]. vm_compute. discriminate. Qed.

(** C1 (amended): a phase-on access (offset [2 * phase + 1]) changes the
    track of the selected drive by the delta of the stepping table resolved
    from the stored [last_phase_on], a result below 0 being clamped to 0
    (for a track of 0..126, short of the [int8_t] limit), and then records
    the phase turned on in [last_phase_on]; a phase-off access (offset
    [2 * phase]) changes neither [track] nor [last_phase_on]. *)
Theorem phase_access_steps_by_table (cycles phase : Z) (c : diskII_controller) :
  let d := drive c (drive_select c) in
  0 <= phase <= 3 ->
  0 <= track d <= 126 ->
  0 <= last_phase_on d <= 255 ->
  let on := drive (snd (access_register cycles (2 * phase + 1) c)) (drive_select c) in
  let off := drive (snd (access_register cycles (2 * phase) c)) (drive_select c) in
  track on = Z.max 0 (track d + step_delta phase (last_phase_on d))
  /\ last_phase_on on = phase
  /\ track off = track d
  /\ last_phase_on off = last_phase_on d.
Proof.
  cbv zeta. intros Hp Ht Hl. rewrite !access_register_acted.
  destruct (acted_drive_phase_on cycles (drive_select c) phase _ Hp Hl) as [H1 H2].
  destruct (acted_drive_phase_off cycles (drive_select c) phase
              (drive c (drive_select c)) Hp) as [H3 H4]; [lia|].
  repeat split; try assumption.
  rewrite H1.
  assert (-1 <= step_delta phase (last_phase_on (drive c (drive_select c))) <= 1) as Hd.
  { assert (phase = 0 \/ phase = 1 \/ phase = 2 \/ phase = 3) as Hq by lia.
    destruct (Z_lt_le_dec (last_phase_on (drive c (drive_select c))) 4) as [Hs|Hs].
    - assert (last_phase_on (drive c (drive_select c)) = 0
              \/ last_phase_on (drive c (drive_select c)) = 1
              \/ last_phase_on (drive c (drive_select c)) = 2
              \/ last_phase_on (drive c (drive_select c)) = 3) as Hc by lia.
      destruct Hq as [ -> | [ -> | [ -> | -> ]]];
        destruct Hc as [ -> | [ -> | [ -> | -> ]]]; cbn; lia.
    - rewrite step_delta_other by lia. lia. }
  split_ifs; try rewrite to_i8_id in * by lia; lia.
Qed.

Lemma phase_access_steps_by_table_witness :
  let c := fresh_controller in
  track (drive (snd (access_register 0 DiskII_Ph1_On c)) 0) = 1
  /\ track (drive (snd (access_register 0 DiskII_Ph3_On c)) 0) = 0.
Proof.
  cbv zeta.
  pose proof (phase_access_steps_by_table 0 1 fresh_controller) as H1.
  pose proof (phase_access_steps_by_table 0 3 fresh_controller) as H3.
  cbv zeta in H1, H3.
  split.
  - apply H1; vm_compute; intuition discriminate.
  - apply H3; vm_compute; intuition discriminate.
Defined.

(** ** The track never goes negative *)

Lemma read_nybble_value_byte (d : diskII) :
  0 <= read_shift_register d < 256 -> 0 <= fst (read_nybble d) < 256.
Proof.
  intros H. unfold read_nybble. split_ifs; cbn [fst]; try assumption;
    apply to_u8_range.
Qed.

Lemma motor_stop_check_read_shift_register (cycles : Z) (d : diskII) :
  read_shift_register (motor_stop_check cycles d) = read_shift_register d.
Proof. unfold motor_stop_check. split_ifs; reflexivity. Qed.

(** Every access returns a byte. *)
Lemma access_register_value_byte (cycles reg : Z) (c : diskII_controller) :
  0 <= read_shift_register (drive c (drive_select c)) < 256 ->
  0 <= fst (access_register cycles reg c) < 256.
Proof.
  intros H. unfold access_register.
  rewrite <- (motor_stop_check_read_shift_register cycles) in H.
  set (d1 := motor_stop_check cycles (drive c (drive_select c))) in *.
  clearbody d1.
  case_reg reg; cbn [register_switch];
    unfold phase_on, track_dec, track_inc, after_switch, read_value;
    split_ifs; cbn [fst]; try apply to_u8_range;
    try (apply read_nybble_value_byte; fields; assumption); lia.
Qed.

Lemma values_bytes (accesses : list (Z * Z)) :
  forall c, both_drives drive_ranges c ->
  Forall (fun v => 0 <= v < 256) (values accesses c).
Proof.
  induction accesses as [|[cycles reg] rest IH]; intros c Hc; cbn [values].
  - constructor.
  - constructor.
    + cbn [fst snd]. apply access_register_value_byte.
      destruct Hc as [H0 H1]. unfold drive.
      destruct (drive_select c =? 0);
        [destruct H0|destruct H1]; assumption.
    + apply IH. apply step_both_drives; [|exact Hc].
      intros. apply acted_drive_ranges. assumption.
Qed.

(** C5: along every sequence of register accesses from the initialised
    state, the track of each drive is at least 0 after every single access
    (so a step below 0 is clamped at that step), and every access returns an
    ordinary byte: the handler has no error result. *)
Theorem track_nonnegative_after_every_access
  (raw0 raw1 : diskII) (raw_select : Z) (accesses : list (Z * Z)) :
  let c := init_slot_diskII raw0 raw1 raw_select in
  Forall (fun c' => 0 <= track (drive0 c') /\ 0 <= track (drive1 c'))
    (trace accesses c)
  /\ Forall (fun v => 0 <= v < 256) (values accesses c).
Proof.
  cbv zeta. split.
  - apply (trace_invariant (both_drives (fun d => 0 <= track d))).
    + apply step_both_drives. intros. apply acted_drive_track_nonneg. assumption.
    + apply init_slot_diskII_track.
  - apply values_bytes, init_slot_diskII_ranges.
Qed.

(** ** The value returned when no mode applies *)

Lemma read_nybble_flags (d : diskII) :
  Q6 (snd (read_nybble d)) = Q6 d /\ Q7 (snd (read_nybble d)) = Q7 d
  /\ motor (snd (read_nybble d)) = motor d
  /\ mark_cycles_turnoff (snd (read_nybble d)) = mark_cycles_turnoff d.
Proof. unfold read_nybble. split_ifs; repeat split; reflexivity. Qed.




(** ** The deferred motor stop *)

Lemma motor_stop_check_fires (cycles : Z) (d : diskII) :
  motor d = 1 -> mark_cycles_turnoff d <> 0 -> cycles > mark_cycles_turnoff d ->
  motor_stop_check cycles d = set_mark_cycles_turnoff 0 (set_motor 0 d).
Proof.
  intros Hm Hk Hc. unfold motor_stop_check. rewrite Hm.
  destruct (mark_cycles_turnoff d =? 0) eqn:E; [lia|].
  destruct (cycles >? mark_cycles_turnoff d) eqn:E0; [reflexivity|lia].
Qed.

Lemma motor_stop_check_idle (cycles : Z) (d : diskII) :
  motor d <> 1 \/ mark_cycles_turnoff d = 0 \/ cycles <= mark_cycles_turnoff d ->
  motor_stop_check cycles d = d.
Proof.
  intros H. unfold motor_stop_check.
  destruct (motor d =? 1) eqn:E; [|reflexivity].
  destruct (mark_cycles_turnoff d =? 0) eqn:E0; [reflexivity|].
  destruct (cycles >? mark_cycles_turnoff d) eqn:E1; [lia|reflexivity].
Qed.

(** The drive with index [j] (0 or 1) is untouched by an access made while
    the other drive is selected. *)
Lemma access_register_other_drive (cycles reg j : Z) (c : diskII_controller) :
  j = 0 \/ j = 1 ->
  drive_select c = 0 \/ drive_select c = 1 ->
  drive_select c <> j ->
  drive (snd (access_register cycles reg c)) j = drive c j.
Proof.
  intros Hj Hs Hne. unfold drive.
  destruct Hj as [-> | ->]; cbn [Z.eqb].
  - apply access_register_drive0. lia.
  - apply access_register_drive1. lia.
Qed.

Lemma run_other_drive (j : Z) (accesses : list (Z * Z)) :
  j = 0 \/ j = 1 ->
  forall c,
  Forall (fun s => (drive_select s = 0 \/ drive_select s = 1)
                   /\ drive_select s <> j) (entry_states accesses c) ->
  drive (run accesses c) j = drive c j.
Proof.
  intros Hj.
  induction accesses as [|[cycles reg] rest IH]; intros c H; cbn [run].
  - reflexivity.
  - cbn [entry_states] in H. inversion H as [|s l [Hs Hne] Hrest]; subst.
    rewrite IH by exact Hrest.
    unfold step. cbn [fst snd].
    apply access_register_other_drive; assumption.
Qed.

(** An access made while a drive is selected whose deadline has passed stops
    that drive's motor, unless the access is the motor-on command. *)
Lemma access_register_stops_motor (cycles reg : Z) (c : diskII_controller) :
  let d := drive c (drive_select c) in
  motor d = 1 -> mark_cycles_turnoff d <> 0 -> cycles > mark_cycles_turnoff d ->
  reg <> DiskII_Motor_On ->
  let d' := drive (snd (access_register cycles reg c)) (drive_select c) in
  motor d' = 0 /\ mark_cycles_turnoff d' = 0.
Proof.
  cbv zeta. intros Hm Hk Hc Hreg. rewrite access_register_acted.
  unfold acted_drive. rewrite motor_stop_check_fires by assumption.
  set (d := drive c (drive_select c)) in *. clearbody d.
  case_reg reg; cbn [register_switch];
    unfold phase_on, track_dec, track_inc, after_switch;
    split_ifs; try lia;
    try match goal with
      | |- context [read_nybble ?x] =>
          destruct (read_nybble_flags x) as [_ [_ [G1 G2]]]; rewrite G1, G2
      end; fields; split; reflexivity.
Qed.

(** C10: the deferred-stop check of an access acts on the drive selected on
    entry only.  Along any sequence of accesses each made while the other
    drive is selected, the drive [j] stays exactly as it was (whatever the
    cycle counts, so also with its deadline long passed and [motor = 1]);
    the first later access made while [j] is selected, at a cycle count past
    the deadline, stops its motor and clears the deadline (the motor-on
    command apart, which restarts it). *)
Theorem stop_check_only_on_selected_drive
  (j : Z) (accesses : list (Z * Z)) (c : diskII_controller) :
  j = 0 \/ j = 1 ->
  Forall (fun s => (drive_select s = 0 \/ drive_select s = 1)
                   /\ drive_select s <> j) (entry_states accesses c) ->
  let c' := run accesses c in
  drive c' j = drive c j
  /\ (forall cycles reg,
        drive_select c' = j ->
        motor (drive c j) = 1 ->
        mark_cycles_turnoff (drive c j) <> 0 ->
        cycles > mark_cycles_turnoff (drive c j) ->
        reg <> DiskII_Motor_On ->
        let d' := drive (snd (access_register cycles reg c')) j in
        motor d' = 0 /\ mark_cycles_turnoff d' = 0).
Proof.
  intros Hj H. cbv zeta.
  pose proof (run_other_drive j accesses Hj c H) as Hsame.
  split; [exact Hsame|].
  intros cycles reg Hsel Hm Hk Hc Hreg.
  rewrite <- Hsame in Hm, Hk, Hc. rewrite <- Hsel in *.
  apply access_register_stops_motor; assumption.
Qed.

Lemma stop_check_only_on_selected_drive_witness :
  let c := run [(0, DiskII_Drive2_Select); (0, DiskII_Motor_On);
                (10, DiskII_Motor_Off); (20, DiskII_Drive1_Select)]
             fresh_controller in
  let accesses := [(2000000, DiskII_Q6L); (3000000, DiskII_Ph0_Off);
                   (4000000, DiskII_Drive2_Select)] in
  mark_cycles_turnoff (drive c 1) = 750010
  /\ motor (drive (run accesses c) 1) = 1
  /\ motor (drive (snd (access_register 4000001 DiskII_Q6L (run accesses c))) 1) = 0.
Proof.
  cbv zeta.
  pose proof (stop_check_only_on_selected_drive 1
                [(2000000, DiskII_Q6L); (3000000, DiskII_Ph0_Off);
                 (4000000, DiskII_Drive2_Select)]
                (run [(0, DiskII_Drive2_Select); (0, DiskII_Motor_On);
                      (10, DiskII_Motor_Off); (20, DiskII_Drive1_Select)]
                   fresh_controller)) as H.
  cbv zeta in H.
  destruct H as [Hsame Hstop].
  - right. reflexivity.
  - repeat constructor; vm_compute; discriminate.
  - split; [reflexivity|]. split.
    + rewrite Hsame. reflexivity.
    + apply Hstop; vm_compute; try reflexivity; discriminate.
Defined.

(** ** Which accesses read the data register *)

(** An access on an even offset other than Q7L whose mode flags end up
    Q6=0 and Q7=0 returns the bit-serial read of the drive as the switch
    left it. *)
Lemma even_register_reads_nybble (cycles reg : Z) (c : diskII_controller) :
  let seldrive := motor_stop_check cycles (drive c (drive_select c)) in
  let switched :=
    match register_switch cycles reg (to_i8 (last_phase_on seldrive))
            (drive_select c) seldrive with
    | Returned _ d => d
    | Continue d _ => d
    end in
  Z.land reg 0x01 = 0 -> reg <> DiskII_Q7L ->
  Q6 switched = 0 -> Q7 switched = 0 ->
  fst (access_register cycles reg c) = fst (read_nybble switched)
  /\ drive (snd (access_register cycles reg c)) (drive_select c)
     = snd (read_nybble switched).
Proof.
  cbv zeta. intros He Hr H6 H7. rewrite access_register_acted.
  unfold access_register, acted_drive.
  set (d1 := motor_stop_check cycles (drive c (drive_select c))) in *.
  clearbody d1.
  case_reg reg; cbn [Z.land Pos.land] in He; try discriminate He; try lia;
    cbn [register_switch] in *; unfold after_switch;
    split_ifs; cbn [fst snd]; try (split; reflexivity); fields; lia.
Qed.

(** C7 at its failing input.  With the motor on, a track of sync bytes
    mounted and Q6 = Q7 = 0, the access of the even register Q7L leaves the
    flags at Q6=0 and Q7=0 but returns [write_protect << 7] = 0x80 from
    inside the switch, without shifting a bit; the bit-serial read of the
    same drive would return 1 and move [bit_position] to 1. *)
Theorem q7l_read_skips_the_data_register :
  let c := run [(0, DiskII_Motor_On)]
             (mount_diskII 0 (fun _ _ => 0xFF) fresh_controller) in
  let r := access_register 1 DiskII_Q7L c in
  let d' := drive (snd r) (drive_select c) in
  let nybble := read_nybble (set_Q7 0 (drive c (drive_select c))) in
  Q6 d' = 0 /\ Q7 d' = 0
  /\ fst r = 0x80 /\ bit_position d' = 0
  /\ fst nybble = 1 /\ bit_position (snd nybble) = 1.
Proof. cbv zeta. vm_compute. repeat split. Qed.

(** C6 at its failing input.  After Q6H the drive is in the mode Q6=1, Q7=0
    of the write-protect sense, yet the access of Q7L returns the filler
    0xEE: the return of [write_protect << 7] is guarded by [Q6 == 0].  The
    low seven bits of the byte are not 0, and with the flag cleared bit 7 is
    still set. *)
Theorem write_protect_sense_in_mode_q6_high :
  let c := run [(0, DiskII_Q6H)] fresh_controller in
  let d := drive c (drive_select c) in
  let r := access_register 1 DiskII_Q7L c in
  let unprotected := set_drive 0 (set_write_protect 0 d) c in
  let r0 := access_register 1 DiskII_Q7L unprotected in
  Q6 d = 1 /\ Q7 d = 0 /\ write_protect d = 1
  /\ fst r = 0xEE /\ Z.land (fst r) 0x7F = 0x6E
  /\ fst r0 = 0xEE /\ Z.testbit (fst r0) 7 = true.
Proof. cbv zeta. vm_compute. repeat split. Qed.

(** ** Data-register reads and the deferred stop *)

Lemma set_Q6_same (d : diskII) : Q6 d = 0 -> set_Q6 0 d = d.
Proof. intros H. destruct d. cbn in H. subst. reflexivity. Qed.

Lemma set_drive_twice (i : Z) (d d' : diskII) (c : diskII_controller) :
  set_drive i d' (set_drive i d c) = set_drive i d' c.
Proof. unfold set_drive. destruct (i =? 0); reflexivity. Qed.

Lemma set_drive_same (c : diskII_controller) :
  set_drive (drive_select c) (drive c (drive_select c)) c = c.
Proof.
  unfold set_drive, drive. destruct c as [d0 d1 sel]. cbn.
  destruct (sel =? 0); reflexivity.
Qed.

Lemma set_drive_select_same (i : Z) (d : diskII) (c : diskII_controller) :
  set_drive_select (drive_select c) (set_drive i d c) = set_drive i d c.
Proof. unfold set_drive, set_drive_select. destruct (i =? 0); reflexivity. Qed.

(** A read of the data register Q6L with Q7 = 0: the stop check, then the
    bit-serial read of the selected drive with Q6 cleared. *)
Lemma data_register_read (cycles : Z) (c : diskII_controller) :
  let d := motor_stop_check cycles (drive c (drive_select c)) in
  Q7 (drive c (drive_select c)) = 0 ->
  access_register cycles DiskII_Q6L c
  = (fst (read_nybble (set_Q6 0 d)),
     set_drive (drive_select c) (snd (read_nybble (set_Q6 0 d))) c).
Proof.
  cbv zeta. intros H7. unfold access_register. cbn [register_switch].
  unfold after_switch.
  assert (Q7 (motor_stop_check cycles (drive c (drive_select c))) = 0) as H7'
    by (unfold motor_stop_check; split_ifs; exact H7).
  set (d := motor_stop_check cycles (drive c (drive_select c))) in *.
  clearbody d. fields. rewrite H7'. cbn [Z.land Pos.land Z.eqb andb].
  rewrite set_drive_select_same. reflexivity.
Qed.

(** The same on a controller: the access behaves as if the motor of the
    selected drive had been stopped and the deadline cleared beforehand. *)
Lemma access_register_after_deadline (cycles reg : Z) (c : diskII_controller) :
  let d := drive c (drive_select c) in
  motor d = 1 -> mark_cycles_turnoff d <> 0 -> cycles > mark_cycles_turnoff d ->
  access_register cycles reg c
  = access_register cycles reg
      (set_drive (drive_select c) (set_mark_cycles_turnoff 0 (set_motor 0 d)) c).
Proof.
  cbv zeta. intros Hm Hk Hc. unfold access_register.
  rewrite drive_select_set_drive, drive_set_drive.
  rewrite (motor_stop_check_fires cycles (drive c (drive_select c))) by assumption.
  rewrite (motor_stop_check_idle cycles (set_mark_cycles_turnoff 0 _))
    by (left; fields; lia).
  destruct (register_switch _ _ _ _ _); rewrite !set_drive_twice; reflexivity.
Qed.

Lemma motor_off_schedules_stop (cycles : Z) (c : diskII_controller) :
  let d := drive c (drive_select c) in
  motor d = 1 ->
  mark_cycles_turnoff d = 0 \/ cycles <= mark_cycles_turnoff d ->
  0 <= cycles < 2 ^ 64 - motor_off_delay ->
  let d1 := drive (snd (access_register cycles DiskII_Motor_Off c)) (drive_select c) in
  motor d1 = 1 /\ mark_cycles_turnoff d1 = cycles + motor_off_delay.
Proof.
  cbv zeta. intros Hm Hk Hc. rewrite access_register_acted.
  unfold acted_drive. rewrite motor_stop_check_idle by tauto.
  cbn [register_switch]. rewrite Hm. cbn [Z.eqb Pos.eqb].
  unfold after_switch, motor_off_delay in *.
  split_ifs;
    try match goal with
      | |- context [read_nybble ?x] =>
          destruct (read_nybble_flags x) as [_ [_ [G1 G2]]]; rewrite G1, G2
      end; fields; (split; [assumption|]);
    unfold to_u64; apply Z.mod_small; lia.
Qed.

Lemma motor_on_cancels_stop (cycles : Z) (c : diskII_controller) :
  let d1 := drive (snd (access_register cycles DiskII_Motor_On c)) (drive_select c) in
  motor d1 = 1 /\ mark_cycles_turnoff d1 = 0.
Proof.
  cbv zeta. rewrite access_register_acted. unfold acted_drive.
  cbn [register_switch]. unfold after_switch.
  cbn [Z.land Pos.land Z.eqb andb]. fields.
  split_ifs; fields; split; reflexivity.
Qed.

(** A data-register read with the motor running (no deadline passed):
    shifting data, the head moving on when a new byte is latched. *)
Lemma data_register_read_running (cycles : Z) (c : diskII_controller) :
  let d := drive c (drive_select c) in
  motor d = 1 -> cycles <= mark_cycles_turnoff d \/ mark_cycles_turnoff d = 0 ->
  Q7 d = 0 -> 0 <= bit_position d < 8 ->
  let r := access_register cycles DiskII_Q6L c in
  let d' := drive (snd r) (drive_select c) in
  motor d' = 1 /\ mark_cycles_turnoff d' = mark_cycles_turnoff d
  /\ fst r = to_u8 (Z.shiftr (read_shift_register d') (7 - bit_position d))
  /\ bit_position d' = (bit_position d + 1) mod 8
  /\ (bit_position d = 0 ->
      read_shift_register d'
      = to_u8 (nibblized d (Z.quot (track d) 2) (head_position d))
      /\ head_position d'
         = if head_position d >=? track_wrap then 0
           else to_u16 (head_position d + 1))
  /\ (bit_position d <> 0 ->
      read_shift_register d' = read_shift_register d
      /\ head_position d' = head_position d).
Proof.
  cbv zeta. intros Hm Hk H7 Hb.
  rewrite data_register_read by assumption. cbn [fst snd].
  rewrite drive_set_drive, motor_stop_check_idle by tauto.
  set (d := drive c (drive_select c)) in *. clearbody d.
  destruct (Z.eq_dec (bit_position d) 0) as [E|E].
  - rewrite read_nybble_latch by (fields; lia). cbv zeta. fields. rewrite E.
    repeat split; try assumption; try reflexivity; lia.
  - rewrite read_nybble_shift by (fields; lia). fields.
    repeat split; try assumption; try reflexivity; lia.
Qed.

(** A data-register read once the deadline has passed: the latched byte,
    nothing advancing. *)
Lemma data_register_read_stopped (cycles : Z) (c : diskII_controller) :
  let d := drive c (drive_select c) in
  motor d = 1 -> mark_cycles_turnoff d <> 0 -> cycles > mark_cycles_turnoff d ->
  Q7 d = 0 ->
  let r := access_register cycles DiskII_Q6L c in
  let d' := drive (snd r) (drive_select c) in
  motor d' = 0 /\ mark_cycles_turnoff d' = 0
  /\ fst r = read_shift_register d
  /\ read_shift_register d' = read_shift_register d
  /\ head_position d' = head_position d
  /\ bit_position d' = bit_position d.
Proof.
  cbv zeta. intros Hm Hk Hc H7.
  rewrite data_register_read by assumption. cbn [fst snd].
  rewrite drive_set_drive, motor_stop_check_fires by assumption.
  rewrite read_nybble_motor_off by reflexivity. fields.
  repeat split; reflexivity.
Qed.

(** C3, as stated, fails at the deadline itself: the check is
    [cycles > mark_cycles_turnoff], so an access at exactly the deadline
    still finds the motor on.  Motor on at cycle 0, motor off at cycle 100
    (deadline 750100), data-register read at cycle 750100: the motor is
    still on and the read shifts ([bit_position] moves from 1 to 2). *)
Lemma read_at_deadline_counterexample :
  let c := run [(0, DiskII_Motor_On); (100, DiskII_Motor_Off)] fresh_controller in
  let d' := drive (snd (access_register 750100 DiskII_Q6L c)) (drive_select c) in
  mark_cycles_turnoff (drive c (drive_select c)) = 750100
  /\ motor d' = 1
  /\ bit_position (drive c (drive_select c)) = 1
  /\ bit_position d' = 2.
Proof. cbv zeta. vm_compute. repeat split. Qed.

(** C3 (amended): a motor-off command issued while the motor is on sets the
    deadline to the current cycle count plus 750000 (a 64-bit count, taken
    short of overflow) and leaves [motor] set; every data-register read of
    that drive at a cycle count up to and including the deadline still finds
    the motor on and returns shifting, head-advancing data; every register
    access of that drive strictly after the deadline behaves as on the drive
    with [motor] cleared and the deadline cleared, so a data-register read
    then returns the frozen latched byte and advances nothing; a motor-on
    command sets [motor] and clears any pending deadline. *)
Theorem deferred_motor_stop (cycles0 cycles : Z) (c : diskII_controller) :
  let sel := drive_select c in
  let d := drive c sel in
  (motor d = 1 ->
   mark_cycles_turnoff d = 0 \/ cycles0 <= mark_cycles_turnoff d ->
   0 <= cycles0 < 2 ^ 64 - motor_off_delay ->
   let d1 := drive (snd (access_register cycles0 DiskII_Motor_Off c)) sel in
   motor d1 = 1 /\ mark_cycles_turnoff d1 = cycles0 + motor_off_delay)
  /\ (motor d = 1 ->
      cycles <= mark_cycles_turnoff d ->
      Q7 d = 0 -> 0 <= bit_position d < 8 ->
      let r := access_register cycles DiskII_Q6L c in
      let d' := drive (snd r) sel in
      motor d' = 1 /\ mark_cycles_turnoff d' = mark_cycles_turnoff d
      /\ fst r = to_u8 (Z.shiftr (read_shift_register d') (7 - bit_position d))
      /\ bit_position d' = (bit_position d + 1) mod 8
      /\ (bit_position d = 0 ->
          read_shift_register d'
          = to_u8 (nibblized d (Z.quot (track d) 2) (head_position d))
          /\ head_position d'
             = if head_position d >=? track_wrap then 0
               else to_u16 (head_position d + 1))
      /\ (bit_position d <> 0 ->
          read_shift_register d' = read_shift_register d
          /\ head_position d' = head_position d))
  /\ (motor d = 1 ->
      mark_cycles_turnoff d <> 0 ->
      cycles > mark_cycles_turnoff d ->
      (forall reg,
         access_register cycles reg c
         = access_register cycles reg
             (set_drive sel (set_mark_cycles_turnoff 0 (set_motor 0 d)) c))
      /\ (Q7 d = 0 ->
          let r := access_register cycles DiskII_Q6L c in
          let d' := drive (snd r) sel in
          motor d' = 0 /\ mark_cycles_turnoff d' = 0
          /\ fst r = read_shift_register d
          /\ read_shift_register d' = read_shift_register d
          /\ head_position d' = head_position d
          /\ bit_position d' = bit_position d))
  /\ (let d1 := drive (snd (access_register cycles DiskII_Motor_On c)) sel in
      motor d1 = 1 /\ mark_cycles_turnoff d1 = 0).
Proof.
  cbv zeta. split; [|split; [|split]].
  - intros. apply motor_off_schedules_stop; assumption.
  - intros. apply data_register_read_running; auto.
  - intros Hm Hk Hc. split.
    + intros reg. apply access_register_after_deadline; assumption.
    + intros H7. apply data_register_read_stopped; assumption.
  - apply motor_on_cancels_stop.
Qed.

Lemma deferred_motor_stop_witness :
  let c := run [(0, DiskII_Motor_On)] fresh_controller in
  let c1 := snd (access_register 100 DiskII_Motor_Off c) in
  mark_cycles_turnoff (drive c1 (drive_select c)) = 100 + motor_off_delay
  /\ motor (drive (snd (access_register 750100 DiskII_Q6L c1)) (drive_select c1)) = 1
  /\ motor (drive (snd (access_register 750101 DiskII_Q6L c1)) (drive_select c1)) = 0.
Proof.
  cbv zeta. split; [|split].
  - refine (proj2 (proj1 (deferred_motor_stop 100 0 _) _ _ _));
      vm_compute; intuition discriminate.
  - refine (proj1 (proj1 (proj2 (deferred_motor_stop 0 750100 _)) _ _ _ _));
      vm_compute; intuition discriminate.
  - refine (proj1 (proj2 (proj1 (proj2 (proj2 (deferred_motor_stop 0 750101 _)))
                            _ _ _) _));
      vm_compute; intuition discriminate.
Defined.

(** ** Eight reads shift out one byte *)

(** A run of data-register reads with the motor on, in read mode and with no
    deadline passing, is a run of [read_nybble] on the selected drive. *)
Lemma data_register_reads (cycles : list Z) :
  forall c : diskII_controller,
  let d := drive c (drive_select c) in
  let accesses := map (fun t => (t, DiskII_Q6L)) cycles in
  motor d = 1 -> Q6 d = 0 -> Q7 d = 0 ->
  Forall (fun t => t <= mark_cycles_turnoff d \/ mark_cycles_turnoff d = 0) cycles ->
  values accesses c = fst (read_nybbles (length cycles) d)
  /\ run accesses c
     = set_drive (drive_select c) (snd (read_nybbles (length cycles) d)) c.
Proof.
  induction cycles as [|t rest IH]; intros c; cbv zeta; intros Hm H6 H7 Hk.
  - cbn. rewrite set_drive_same. split; reflexivity.
  - inversion Hk as [|x l Ht Hrest]; subst.
    cbn [map values run length read_nybbles fst snd]. unfold step. cbn [fst snd].
    rewrite data_register_read by assumption. cbn [fst snd].
    rewrite motor_stop_check_idle by tauto.
    rewrite set_Q6_same by assumption.
    set (d := drive c (drive_select c)) in *.
    destruct (read_nybble_flags d) as [G6 [G7 [Gm Gk]]].
    specialize (IH (set_drive (drive_select c) (snd (read_nybble d)) c)).
    cbv zeta in IH.
    rewrite drive_select_set_drive, drive_set_drive in IH.
    destruct IH as [IHv IHr]; try congruence.
    + rewrite Gk. exact Hrest.
    + rewrite IHv, IHr, set_drive_twice. split; reflexivity.
Qed.

Lemma to_u16_id (z : Z) : 0 <= z < 65536 -> to_u16 z = z.
Proof. intros H. unfold to_u16. apply Z.mod_small; lia. Qed.

Lemma set_bit_position_twice (a b : Z) (d : diskII) :
  set_bit_position a (set_bit_position b d) = set_bit_position a d.
Proof. reflexivity. Qed.

Lemma read_nybbles_step (n : nat) (d d' : diskII) (v : Z) :
  read_nybble d = (v, d') ->
  read_nybbles (S n) d
  = (v :: fst (read_nybbles n d'), snd (read_nybbles n d')).
Proof. intros H. cbn [read_nybbles]. rewrite H. reflexivity. Qed.

(** One shifting read, from the drive [d] with [k] bits of the latched byte
    already out. *)
Lemma read_nybble_shift_at (k k' : Z) (d : diskII) :
  motor d <> 0 -> 0 < k < 8 -> k' = (k + 1) mod 8 ->
  read_nybble (set_bit_position k d)
  = (to_u8 (Z.shiftr (read_shift_register d) (7 - k)),
     set_bit_position k' d).
Proof.
  intros Hm Hk ->. rewrite read_nybble_shift by (fields; lia).
  fields. rewrite set_bit_position_twice. reflexivity.
Qed.

(** Eight calls of [read_nybble] from the start of a byte. *)
Lemma read_nybbles_eight (d : diskII) :
  motor d = 1 -> bit_position d = 0 -> 0 <= head_position d < track_wrap ->
  read_nybbles 8 d
  = (map (Z.shiftr (to_u8 (nibblized d (Z.quot (track d) 2) (head_position d))))
       [7; 6; 5; 4; 3; 2; 1; 0],
     set_bit_position 0
       (set_head_position (head_position d + 1)
          (set_read_shift_register
             (to_u8 (nibblized d (Z.quot (track d) 2) (head_position d))) d))).
Proof.
  intros Hm Hb Hh.
  pose proof (to_u8_range (nibblized d (Z.quot (track d) 2) (head_position d))) as Hr.
  pose proof (read_nybble_latch d ltac:(lia) Hb) as Hlatch. cbv zeta in Hlatch.
  replace (head_position d >=? track_wrap) with false in Hlatch by lia.
  unfold track_wrap in Hh.
  rewrite (to_u16_id (head_position d + 1)) in Hlatch by lia.
  revert Hr Hlatch.
  generalize (to_u8 (nibblized d (Z.quot (track d) 2) (head_position d))).
  intros b Hr Hlatch.
  assert (motor (set_head_position (head_position d + 1)
                   (set_read_shift_register b d)) <> 0) as HmD
    by (fields; lia).
  assert (read_shift_register (set_head_position (head_position d + 1)
                                 (set_read_shift_register b d)) = b) as HrD
    by reflexivity.
  revert Hlatch HmD HrD.
  generalize (set_head_position (head_position d + 1)
                (set_read_shift_register b d)).
  intros D Hlatch HmD HrD.
  rewrite (read_nybbles_step 7 d _ _ Hlatch).
  rewrite (read_nybbles_step 6 _ _ _ (read_nybble_shift_at 1 2 D HmD ltac:(lia) eq_refl)).
  rewrite (read_nybbles_step 5 _ _ _ (read_nybble_shift_at 2 3 D HmD ltac:(lia) eq_refl)).
  rewrite (read_nybbles_step 4 _ _ _ (read_nybble_shift_at 3 4 D HmD ltac:(lia) eq_refl)).
  rewrite (read_nybbles_step 3 _ _ _ (read_nybble_shift_at 4 5 D HmD ltac:(lia) eq_refl)).
  rewrite (read_nybbles_step 2 _ _ _ (read_nybble_shift_at 5 6 D HmD ltac:(lia) eq_refl)).
  rewrite (read_nybbles_step 1 _ _ _ (read_nybble_shift_at 6 7 D HmD ltac:(lia) eq_refl)).
  rewrite (read_nybbles_step 0 _ _ _ (read_nybble_shift_at 7 0 D HmD ltac:(lia) eq_refl)).
  rewrite HrD.
  change (7 - 1) with 6. change (7 - 2) with 5. change (7 - 3) with 4.
  change (7 - 4) with 3. change (7 - 5) with 2. change (7 - 6) with 1.
  change (7 - 7) with 0.
  rewrite !to_u8_id by (apply shiftr_byte; [exact Hr | lia]).
  reflexivity.
Qed.

(** X24: inside the track buffer a byte is shifted out most significant
    bit first.  With the motor on, Q6 = 0 and Q7 = 0, from
    [bit_position = 0] and a head on an element of the buffer
    ([0 <= head_position < 0x1A00]), eight consecutive data-register reads
    (made at cycle counts at which no deferred stop falls due) return the
    byte of the track buffer at the pre-read [head_position] shifted right
    by 7, 6, 5, 4, 3, 2, 1, 0 bits, advance [head_position] by exactly 1 in
    total, and leave [bit_position] back at 0. *)
Theorem eight_reads_shift_out_one_byte
  (cycles : list Z) (c : diskII_controller) :
  let d := drive c (drive_select c) in
  let accesses := map (fun t => (t, DiskII_Q6L)) cycles in
  let b := to_u8 (nibblized d (Z.quot (track d) 2) (head_position d)) in
  length cycles = 8%nat ->
  motor d = 1 -> Q6 d = 0 -> Q7 d = 0 -> bit_position d = 0 ->
  0 <= head_position d < track_length ->
  Forall (fun t => t <= mark_cycles_turnoff d \/ mark_cycles_turnoff d = 0) cycles ->
  let d' := drive (run accesses c) (drive_select c) in
  values accesses c = map (Z.shiftr b) [7; 6; 5; 4; 3; 2; 1; 0]
  /\ head_position d' = head_position d + 1
  /\ bit_position d' = 0
  /\ read_shift_register d' = b.
Proof.
  cbv zeta. intros Hlen Hm H6 H7 Hb Hh Hk.
  destruct (data_register_reads cycles c Hm H6 H7 Hk) as [Hv Hr].
  rewrite Hv, Hr, Hlen, drive_set_drive.
  rewrite read_nybbles_eight by assumption.
  cbn [fst snd]. fields. repeat split; reflexivity.
Qed.

Lemma eight_reads_shift_out_one_byte_witness :
  let c := run [(0, DiskII_Motor_On)]
             (mount_diskII 0 (fun _ _ => 0xD5) fresh_controller) in
  let accesses := map (fun t => (t, DiskII_Q6L)) [1; 2; 3; 4; 5; 6; 7; 8] in
  values accesses c = [1; 3; 6; 13; 26; 53; 106; 213]
  /\ head_position (drive (run accesses c) 0) = 1.
Proof.
  cbv zeta.
  pose proof (eight_reads_shift_out_one_byte [1; 2; 3; 4; 5; 6; 7; 8]
                (run [(0, DiskII_Motor_On)]
                   (mount_diskII 0 (fun _ _ => 0xD5) fresh_controller))) as H.
  cbv zeta in H.
  destruct H as [Hv [Hh _]].
  - reflexivity.
  - reflexivity.
  - reflexivity.
  - reflexivity.
  - reflexivity.
  - vm_compute. split; [discriminate | reflexivity].
  - repeat (constructor; [right; reflexivity|]). constructor.
  - split; [exact Hv | exact Hh].
Defined.

(** ** The head position and the end of the track *)

(** The head position of every drive stays within [0, 0x1A00] inclusive
    along every sequence of accesses from the initialised state. *)
Lemma head_position_bounded (raw0 raw1 : diskII) (raw_select : Z)
  (accesses : list (Z * Z)) :
  let c := run accesses (init_slot_diskII raw0 raw1 raw_select) in
  0 <= head_position (drive0 c) <= track_wrap
  /\ 0 <= head_position (drive1 c) <= track_wrap.
Proof.
  cbv zeta.
  destruct (run_ranges raw0 raw1 raw_select accesses) as [[] []].
  split; assumption.
Qed.

(** The comparison [head_position++ >= 0x1A00] tests the position before the
    increment: from the last byte of the track the head moves on to 0x1A00,
    and only the read after that wraps it to 0. *)
Lemma read_nybble_past_the_end (d : diskII) :
  motor d <> 0 -> bit_position d = 0 ->
  (head_position d = track_length - 1 ->
   head_position (snd (read_nybble d)) = track_length)
  /\ (head_position d = track_length ->
      read_nybble_load d = Some (Z.quot (track d) 2, track_length)
      /\ head_position (snd (read_nybble d)) = 0).
Proof.
  intros Hm Hb. unfold track_length. split; intros Hh.
  - rewrite read_nybble_latch by assumption. cbv zeta. fields.
    rewrite Hh. reflexivity.
  - split.
    + unfold read_nybble_load.
      destruct (motor d =? 0) eqn:E; [lia|]. rewrite Hb, Hh. reflexivity.
    + rewrite read_nybble_latch by assumption. cbv zeta. fields.
      rewrite Hh. reflexivity.
Qed.

(** C4 at its failing input.  From the initialised controller, motor on and
    then 8 * 0x1A00 data-register reads (one full turn of the track):
    [head_position] is 0x1A00, outside [0, track_length), and the next read
    loads element 0x1A00 of the track buffer, one past its last element,
    before the head wraps to 0. *)
Theorem head_position_reaches_track_length :
  let accesses :=
    (0, DiskII_Motor_On) :: repeat_access 1 DiskII_Q6L (8 * 0x1A00) in
  let d := drive (run accesses fresh_controller) 0 in
  head_position d = track_length
  /\ (head_position d <? track_length) = false
  /\ read_nybble_load d = Some (0, track_length)
  /\ head_position (snd (read_nybble d)) = 0.
Proof. cbv zeta. vm_compute. repeat split. Qed.

(** C2 at its failing input.  A disk whose track buffer holds 0x96
    throughout is mounted on the initialised controller; what lies past the
    buffer's last element reads as 0xD5.  After motor on and 8 * 0x1A00
    data-register reads the motor is on, Q6 = 0, Q7 = 0, [bit_position] is
    0 and [head_position] is 0x1A00.  The eight reads that follow do not
    return a byte of the track buffer: they shift out element 0x1A00, one
    past its last element; and they do not advance the head by 1: it goes
    from 0x1A00 to 0. *)
Theorem eight_reads_at_the_track_end :
  let image := fun _ h : Z => if h <? track_length then 0x96 else 0xD5 in
  let c := run ((0, DiskII_Motor_On) :: repeat_access 1 DiskII_Q6L (8 * 0x1A00))
             (mount_diskII 0 image fresh_controller) in
  let d := drive c (drive_select c) in
  let accesses := map (fun t => (t, DiskII_Q6L)) [1; 1; 1; 1; 1; 1; 1; 1] in
  let d' := drive (run accesses c) (drive_select c) in
  (motor d = 1 /\ Q6 d = 0 /\ Q7 d = 0 /\ bit_position d = 0
   /\ mark_cycles_turnoff d = 0)
  /\ head_position d = track_length
  /\ read_nybble_load d = Some (0, track_length)
  /\ values accesses c = map (Z.shiftr 0xD5) [7; 6; 5; 4; 3; 2; 1; 0]
  /\ values accesses c <> map (Z.shiftr 0x96) [7; 6; 5; 4; 3; 2; 1; 0]
  /\ head_position d' = 0
  /\ head_position d' <> head_position d + 1
  /\ bit_position d' = 0.
Proof.
  vm_compute. repeat split; discriminate.
Qed.

(** * Properties of the execution scheduler *)

Section BurstLoop.

Import Scheduler.

Context {cpu_state : Type} {core : CpuCore cpu_state}.

(** The most cycles one step of the burst loop takes. *)
Variable max_step : Z.

Hypothesis max_step_fits : burst_cycles + max_step <= 2 ^ 64.

(** Each step advances the cycle counter, by [max_step] at most. *)
Hypothesis step_advances :
  forall cpu,
    1 <= to_u64 (cycles (snd (burst_step cpu)) - cycles cpu) <= max_step.

(** No step signals a stop. *)
Hypothesis step_continues : forall cpu, fst (burst_step cpu) <= 0.

Lemma to_u64_range (z : Z) : 0 <= to_u64 z < 2 ^ 64.
Proof. unfold to_u64. apply Z.mod_pos_bound. lia. Qed.

(** Cycle differences add up, as long as the sum fits 64 bits. *)
Lemma to_u64_chain (a b c : Z) :
  to_u64 (c - b) + to_u64 (b - a) < 2 ^ 64 ->
  to_u64 (c - a) = to_u64 (c - b) + to_u64 (b - a).
Proof.
  intros H.
  pose proof (to_u64_range (c - b)). pose proof (to_u64_range (b - a)).
  unfold to_u64 in *.
  replace (c - a) with ((c - b) + (b - a)) by lia.
  rewrite Z.add_mod by lia.
  apply Z.mod_small. lia.
Qed.

Lemma elapsed_step (last : Z) (cpu : cpu_state) :
  elapsed last cpu < burst_cycles ->
  elapsed last cpu + 1 <= elapsed last (snd (burst_step cpu))
  /\ elapsed last (snd (burst_step cpu)) <= elapsed last cpu + max_step.
Proof.
  intros H. unfold elapsed in *.
  pose proof (step_advances cpu) as Hs.
  rewrite (to_u64_chain last (cycles cpu) (cycles (snd (burst_step cpu))))
    by (unfold burst_cycles in *; lia).
  lia.
Qed.

Lemma burst_steps_succ (n : nat) (cpu : cpu_state) :
  burst_steps (S n) cpu = burst_steps n (snd (burst_step cpu)).
Proof. unfold burst_steps. apply Nat.iter_succ_r. Qed.

(** With fuel for the cycles still missing, the burst loop ends, in the
    first state in which [burst_cycles] have elapsed. *)
Lemma burst_terminates (last : Z) (fuel : nat) :
  forall cpu,
  burst_cycles - elapsed last cpu <= Z.of_nat fuel ->
  exists n,
    burst fuel last cpu = Some (burst_steps n cpu)
    /\ (forall k, (k < n)%nat -> elapsed last (burst_steps k cpu) < burst_cycles)
    /\ burst_cycles <= elapsed last (burst_steps n cpu)
    /\ (elapsed last cpu < burst_cycles ->
        elapsed last (burst_steps n cpu) < burst_cycles + max_step).
Proof.
  induction fuel as [|fuel IH]; intros cpu Hfuel.
  - exists 0%nat. cbn [burst]. change (burst_steps 0 cpu) with cpu.
    destruct (elapsed last cpu <? burst_cycles) eqn:E; [lia|].
    split; [reflexivity|]. split; [intros k Hk; inversion Hk|].
    split; [lia|intros; lia].
  - cbn [burst].
    destruct (elapsed last cpu <? burst_cycles) eqn:E.
    + pose proof (step_continues cpu) as Hc.
      destruct (fst (burst_step cpu) >? 0) eqn:E0; [lia|].
      assert (elapsed last cpu < burst_cycles) as Hin0 by lia.
      destruct (elapsed_step last cpu Hin0) as [Hlo Hhi].
      assert (burst_cycles - elapsed last (snd (burst_step cpu))
              <= Z.of_nat fuel) as Hfuel' by lia.
      destruct (IH (snd (burst_step cpu)) Hfuel') as [n [Hb [Hk [Hge Hlt]]]].
      exists (S n). rewrite burst_steps_succ.
      split; [exact Hb|]. split; [|split; [exact Hge|]].
      * intros k Hlt'. destruct k as [|k].
        -- change (burst_steps 0 cpu) with cpu. lia.
        -- rewrite burst_steps_succ. apply Hk. lia.
      * intros _.
        destruct (Z_lt_le_dec (elapsed last (snd (burst_step cpu))) burst_cycles)
          as [Hin|Hout].
        -- apply Hlt. exact Hin.
        -- destruct n as [|n].
           ++ change (burst_steps 0 (snd (burst_step cpu)))
                with (snd (burst_step cpu)). lia.
           ++ specialize (Hk 0%nat ltac:(lia)).
              change (burst_steps 0 (snd (burst_step cpu)))
                with (snd (burst_step cpu)) in Hk. lia.
    + exists 0%nat. change (burst_steps 0 cpu) with cpu.
      split; [reflexivity|]. split; [intros k Hk; inversion Hk|].
      split; [lia|intros; lia].
Qed.

(** The periodic services leave the cycle counter alone. *)
Hypothesis services_keep_cycles :
  forall cpu, cycles (frame_services cpu) = cycles cpu.

(** The halt flag is never raised. *)
Hypothesis never_halts : forall cpu, halt cpu = 0.

Lemma elapsed_start (cpu : cpu_state) : elapsed (cycles cpu) cpu = 0.
Proof. unfold elapsed. rewrite Z.sub_diag. reflexivity. Qed.

(** One burst from its own start. *)
Lemma burst_from_start (cpu : cpu_state) :
  exists n,
    burst (Z.to_nat burst_cycles) (cycles cpu) cpu = Some (burst_steps n cpu)
    /\ (forall k, (k < n)%nat ->
          elapsed (cycles cpu) (burst_steps k cpu) < burst_cycles)
    /\ burst_cycles <= elapsed (cycles cpu) (burst_steps n cpu)
       < burst_cycles + max_step.
Proof.
  destruct (burst_terminates (cycles cpu) (Z.to_nat burst_cycles) cpu)
    as [n [Hb [Hk [Hge Hlt]]]].
  - rewrite elapsed_start, Z2Nat.id by (unfold burst_cycles; lia). lia.
  - exists n. split; [exact Hb|]. split; [exact Hk|]. split; [exact Hge|].
    apply Hlt. rewrite elapsed_start. unfold burst_cycles. lia.
Qed.

(** [n] iterations without halt: the cycles run are [n] bursts' worth, up to
    the overshoot of the last step of each burst. *)
Lemma run_cpus_cycles (n : nat) :
  forall cpu,
  Z.of_nat n * (burst_cycles + max_step - 1) < 2 ^ 64 ->
  exists cpu',
    run_cpus n cpu = Running cpu'
    /\ Z.of_nat n * burst_cycles
       <= to_u64 (cycles cpu' - cycles cpu)
       <= Z.of_nat n * (burst_cycles + max_step - 1).
Proof.
  induction n as [|n IH]; intros cpu Hfit.
  - exists cpu. cbn [run_cpus]. rewrite Z.sub_diag.
    split; [reflexivity|]. change (to_u64 0) with 0. lia.
  - cbn [run_cpus].
    destruct (burst_from_start cpu) as [k [Hb [_ Hrange]]].
    rewrite Hb, never_halts. cbn [Z.eqb].
    set (cpu1 := burst_steps k cpu) in *.
    assert (burst_cycles = 17008) as HB by reflexivity.
    pose proof (step_advances cpu) as Hpos.
    destruct (IH (frame_services cpu1) ltac:(nia)) as [cpu' [Hrun Htotal]].
    exists cpu'. split; [exact Hrun|].
    rewrite services_keep_cycles in Htotal.
    unfold elapsed in Hrange.
    rewrite (to_u64_chain (cycles cpu) (cycles cpu1) (cycles cpu')) by nia.
    nia.
Qed.

(** C8: provided each step of the burst loop advances the cycle counter (by
    [max_step] cycles at most) and signals no stop, the burst loop of an
    iteration ends; it has stepped the CPU while fewer than 17008 cycles had
    elapsed since the burst start and stopped in the first state with at
    least 17008 elapsed, less than one step's worth beyond them.  Hence
    after 300 iterations with no halt the cycles run are [300 * 17008] up
    to the overshoot of each burst. *)
Theorem burst_loop_runs_one_frame (cpu : cpu_state) :
  300 * (burst_cycles + max_step - 1) < 2 ^ 64 ->
  (exists n,
     burst (Z.to_nat burst_cycles) (cycles cpu) cpu = Some (burst_steps n cpu)
     /\ (forall k, (k < n)%nat ->
           elapsed (cycles cpu) (burst_steps k cpu) < burst_cycles)
     /\ burst_cycles <= elapsed (cycles cpu) (burst_steps n cpu)
        < burst_cycles + max_step)
  /\ (exists cpu',
        run_cpus 300 cpu = Running cpu'
        /\ 300 * burst_cycles
           <= to_u64 (cycles cpu' - cycles cpu)
           <= 300 * (burst_cycles + max_step - 1)).
Proof.
  intros Hfit. split.
  - apply burst_from_start.
  - apply (run_cpus_cycles 300 cpu). exact Hfit.
Qed.

End BurstLoop.

Lemma burst_loop_runs_one_frame_witness :
  exists cpu' : Z,
    Scheduler.run_cpus (core := Scheduler.counter_core) 300 0
    = Scheduler.Running cpu'
    /\ 300 * Scheduler.burst_cycles
       <= to_u64 (cpu' - 0)
       <= 300 * (Scheduler.burst_cycles + 3 - 1).
Proof.
  refine (proj2 (burst_loop_runs_one_frame (core := Scheduler.counter_core)
                   3 _ _ _ _ _ 0 _)).
  - vm_compute. discriminate.
  - intros cpu. unfold Scheduler.burst_step. cbn.
    unfold to_u64. rewrite Zminus_mod_idemp_l.
    replace (cpu + 3 - cpu) with 3 by lia. vm_compute.
    split; discriminate.
  - intros cpu. cbn. lia.
  - intros cpu. reflexivity.
  - intros cpu. reflexivity.
  - vm_compute. reflexivity.
Defined.

(** * Further properties of the Disk II controller *)

(** ** Members stay in range *)

(** X1: in every state after every access of every sequence from the
    initialised controller, the members of both drives are in range (track
    0..127, [last_phase_on] 0..3, the flags 0 or 1, [bit_position] below 8,
    [head_position] at most 0x1A00, the latched value a byte) and
    [drive_select] is 0 or 1, so [drive[drive_select]] is always one of the
    two drives. *)
Theorem reachable_states_in_range
  (raw0 raw1 : diskII) (raw_select : Z) (accesses : list (Z * Z)) :
  Forall (fun c => both_drives drive_ranges c
                   /\ (drive_select c = 0 \/ drive_select c = 1))
    (trace accesses (init_slot_diskII raw0 raw1 raw_select)).
Proof.
  apply (trace_invariant
           (fun c => both_drives drive_ranges c
                     /\ (drive_select c = 0 \/ drive_select c = 1))).
  - intros [cycles reg] c [Hr Hs]. split.
    + apply step_both_drives; [|exact Hr].
      intros. apply acted_drive_ranges. assumption.
    + unfold step. cbn [fst snd]. rewrite access_register_drive_select.
      case_reg reg; auto.
  - split; [apply init_slot_diskII_ranges | left; reflexivity].
Qed.

(** ** The motor changes by command or deadline only *)

Lemma acted_drive_stopped (cycles reg sel : Z) (d : diskII) :
  motor d = 0 -> reg <> DiskII_Motor_On ->
  let d' := acted_drive cycles reg sel d in
  motor d' = 0
  /\ mark_cycles_turnoff d' = mark_cycles_turnoff d
  /\ read_path d' = read_path d.
Proof.
  cbv zeta. intros Hm Hreg. unfold acted_drive, read_path.
  rewrite motor_stop_check_idle by (left; lia).
  case_reg reg; cbn [register_switch];
    unfold phase_on, track_dec, track_inc, after_switch;
    try rewrite Hm; cbn [Z.eqb];
    split_ifs; try lia;
    try rewrite read_nybble_motor_off by (fields; exact Hm);
    fields; repeat split; try assumption; reflexivity.
Qed.

(** X2: a stopped motor stays stopped.  Whatever register other than
    motor-on is accessed while the selected drive's motor is off, at
    whatever cycle count, the motor stays off, the deadline is left as it
    was, and the latched byte, the bit counter and the head do not move. *)
Theorem stopped_motor_stays_stopped (cycles reg : Z) (c : diskII_controller) :
  let d := drive c (drive_select c) in
  motor d = 0 -> reg <> DiskII_Motor_On ->
  let d' := drive (snd (access_register cycles reg c)) (drive_select c) in
  motor d' = 0
  /\ mark_cycles_turnoff d' = mark_cycles_turnoff d
  /\ read_path d' = read_path d.
Proof.
  cbv zeta. intros Hm Hreg. rewrite access_register_acted.
  apply acted_drive_stopped; assumption.
Qed.

Lemma stopped_motor_stays_stopped_witness :
  let c := fresh_controller in
  motor (drive (snd (access_register 5 DiskII_Q6L c)) (drive_select c)) = 0.
Proof.
  cbv zeta.
  refine (proj1 (stopped_motor_stays_stopped 5 DiskII_Q6L fresh_controller _ _)).
  - reflexivity.
  - discriminate.
Defined.

(** X3: a running motor with no stop pending keeps running.  Whatever
    register other than motor-off is accessed while the selected drive's
    motor is on and no deadline is set, the motor stays on and no deadline
    appears. *)
Theorem running_motor_keeps_running (cycles reg : Z) (c : diskII_controller) :
  let d := drive c (drive_select c) in
  motor d = 1 -> mark_cycles_turnoff d = 0 -> reg <> DiskII_Motor_Off ->
  let d' := drive (snd (access_register cycles reg c)) (drive_select c) in
  motor d' = 1 /\ mark_cycles_turnoff d' = 0.
Proof.
  cbv zeta. intros Hm Hk Hreg. rewrite access_register_acted.
  unfold acted_drive. rewrite motor_stop_check_idle by (right; left; exact Hk).
  set (d := drive c (drive_select c)) in *. clearbody d.
  case_reg reg; cbn [register_switch];
    unfold phase_on, track_dec, track_inc, after_switch;
    split_ifs; try lia;
    try match goal with
      | |- context [read_nybble ?x] =>
          destruct (read_nybble_flags x) as [_ [_ [G1 G2]]]; rewrite G1, G2
      end; fields; split; first [assumption | reflexivity].
Qed.

Lemma running_motor_keeps_running_witness :
  let c := run [(0, DiskII_Motor_On)] fresh_controller in
  motor (drive (snd (access_register 9000000 DiskII_Q6L c)) (drive_select c)) = 1.
Proof.
  cbv zeta.
  refine (proj1 (running_motor_keeps_running 9000000 DiskII_Q6L
                   (run [(0, DiskII_Motor_On)] fresh_controller) _ _ _)).
  - reflexivity.
  - reflexivity.
  - discriminate.
Defined.

(** ** Reads of a stopped drive *)

Lemma stopped_data_reads (cycles : list Z) :
  forall c : diskII_controller,
  let d := drive c (drive_select c) in
  motor d = 0 -> Q7 d = 0 ->
  values (data_reads cycles) c = repeat (read_shift_register d) (length cycles)
  /\ read_path (drive (run (data_reads cycles) c) (drive_select c)) = read_path d
  /\ drive_select (run (data_reads cycles) c) = drive_select c.
Proof.
  induction cycles as [|t rest IH]; intros c; cbv zeta; intros Hm H7.
  - cbn. repeat split; reflexivity.
  - cbn [data_reads map values run length repeat]. unfold step. cbn [fst snd].
    fold (data_reads rest).
    rewrite data_register_read by assumption. cbn [fst snd].
    rewrite motor_stop_check_idle by (left; lia).
    rewrite read_nybble_motor_off by (fields; exact Hm). cbn [fst snd]. fields.
    specialize (IH (set_drive (drive_select c)
                      (set_Q6 0 (drive c (drive_select c))) c)).
    cbv zeta in IH. rewrite drive_select_set_drive, drive_set_drive in IH.
    destruct IH as [IHv [IHp IHs]]; try (fields; assumption).
    rewrite IHv, IHp, IHs. fields. repeat split; reflexivity.
Qed.

(** X4: with the motor off, any number of consecutive data-register reads,
    at whatever cycle counts, all return the same byte, the latched
    [read_shift_register], and leave the latched byte, the bit counter and
    the head where they were. *)
Theorem stopped_drive_reads_are_frozen
  (cycles : list Z) (c : diskII_controller) :
  let d := drive c (drive_select c) in
  motor d = 0 -> Q7 d = 0 ->
  values (data_reads cycles) c = repeat (read_shift_register d) (length cycles)
  /\ read_path (drive (run (data_reads cycles) c) (drive_select c)) = read_path d.
Proof.
  cbv zeta. intros Hm H7.
  destruct (stopped_data_reads cycles c Hm H7) as [Hv [Hp _]].
  split; assumption.
Qed.

Lemma stopped_drive_reads_are_frozen_witness :
  let c := run [(0, DiskII_Motor_On); (1, DiskII_Q6L); (2, DiskII_Motor_Off);
                (750003, DiskII_Ph0_Off)]
             (mount_diskII 0 (fun _ _ => 0xFF) fresh_controller) in
  values (data_reads [800000; 800001; 900000]) c
  = repeat (read_shift_register (drive c (drive_select c))) 3
  /\ read_shift_register (drive c (drive_select c)) = 0xFF.
Proof.
  cbv zeta. split; [|reflexivity].
  refine (proj1 (stopped_drive_reads_are_frozen [800000; 800001; 900000]
                   (run [(0, DiskII_Motor_On); (1, DiskII_Q6L);
                         (2, DiskII_Motor_Off); (750003, DiskII_Ph0_Off)]
                      (mount_diskII 0 (fun _ _ => 0xFF) fresh_controller))
                   _ _)); reflexivity.
Defined.

(** ** Accesses that change nothing, accesses that never read *)

(** X5: the motor-off command on a drive whose motor is already off does
    nothing at all: the controller is left exactly as it was (the track
    being non-negative, as it always is), and the byte returned is the
    latched byte in read mode, the filler 0xEE otherwise. *)
Theorem motor_off_when_stopped_changes_nothing
  (cycles : Z) (c : diskII_controller) :
  let d := drive c (drive_select c) in
  motor d = 0 -> 0 <= track d ->
  access_register cycles DiskII_Motor_Off c
  = (if (Q7 d =? 0) && (Q6 d =? 0) then read_shift_register d else read_value,
     c).
Proof.
  cbv zeta. intros Hm Ht. unfold access_register.
  rewrite motor_stop_check_idle by (left; lia).
  cbn [register_switch]. rewrite Hm. cbn [Z.eqb].
  unfold after_switch. cbn [Z.land Z.eqb andb].
  destruct ((Q7 (drive c (drive_select c)) =? 0)
            && (Q6 (drive c (drive_select c)) =? 0)) eqn:E.
  - rewrite read_nybble_motor_off by exact Hm. cbn [fst snd].
    rewrite set_drive_same. destruct c; reflexivity.
  - destruct (track (drive c (drive_select c)) <? 0) eqn:E0; [lia|].
    cbn [fst snd]. rewrite set_drive_same. destruct c; reflexivity.
Qed.

Lemma motor_off_when_stopped_changes_nothing_witness :
  snd (access_register 42 DiskII_Motor_Off fresh_controller) = fresh_controller.
Proof.
  rewrite (motor_off_when_stopped_changes_nothing 42 fresh_controller).
  - reflexivity.
  - reflexivity.
  - vm_compute. discriminate.
Defined.

Lemma after_switch_odd (reg : Z) (d : diskII) :
  Z.land reg 0x01 = 1 ->
  after_switch reg d
  = (read_value, if track d <? 0 then set_track 0 d else d).
Proof. intros H. unfold after_switch. rewrite H. reflexivity. Qed.

(** X6: an access on an odd offset never reads the disk: it returns the
    filler 0xEE and leaves the latched byte, the bit counter and the head
    of the selected drive where they were. *)
Theorem odd_register_never_reads (cycles reg : Z) (c : diskII_controller) :
  let d := drive c (drive_select c) in
  Z.land reg 0x01 = 1 ->
  let r := access_register cycles reg c in
  fst r = read_value
  /\ read_path (drive (snd r) (drive_select c)) = read_path d.
Proof.
  cbv zeta. intros Hodd. rewrite access_register_acted.
  unfold access_register, acted_drive, read_path.
  assert (read_path (motor_stop_check cycles (drive c (drive_select c)))
          = read_path (drive c (drive_select c))) as Hp
    by (unfold motor_stop_check, read_path; split_ifs; reflexivity).
  unfold read_path in Hp. rewrite <- Hp.
  set (d1 := motor_stop_check cycles (drive c (drive_select c))) in *.
  clearbody d1.
  case_reg reg;
    try (exfalso; clear - Hodd; cbn in Hodd; discriminate Hodd);
    cbn [register_switch]; rewrite ?after_switch_odd by exact Hodd;
    unfold phase_on, track_dec, track_inc;
    split_ifs; fields; split; reflexivity.
Qed.

Lemma odd_register_never_reads_witness :
  fst (access_register 7 DiskII_Q6H fresh_controller) = read_value.
Proof.
  refine (proj1 (odd_register_never_reads 7 DiskII_Q6H fresh_controller _)).
  reflexivity.
Defined.

(** ** Head stepping along phase sequences *)

Lemma run_app (a b : list (Z * Z)) (c : diskII_controller) :
  run (a ++ b) c = run b (run a c).
Proof. revert c. induction a as [|x a IH]; intros c; cbn; [reflexivity|apply IH]. Qed.

Lemma step_delta_down (last : Z) :
  0 <= last <= 3 -> step_delta ((last - 1) mod 4) last = -1.
Proof.
  intros H. assert (last = 0 \/ last = 1 \/ last = 2 \/ last = 3) as Hc by lia.
  destruct Hc as [ -> | [ -> | [ -> | -> ]]]; reflexivity.
Qed.

Lemma step_delta_up (last : Z) :
  0 <= last <= 3 -> step_delta ((last + 1) mod 4) last = 1.
Proof.
  intros H. assert (last = 0 \/ last = 1 \/ last = 2 \/ last = 3) as Hc by lia.
  destruct Hc as [ -> | [ -> | [ -> | -> ]]]; reflexivity.
Qed.

(** One phase-on access on a controller: the selection stays, the track of
    the selected drive steps and is clamped, the phase is recorded. *)
Lemma phase_on_access (cycles phase : Z) (c : diskII_controller) :
  let d := drive c (drive_select c) in
  0 <= phase <= 3 -> 0 <= last_phase_on d <= 3 -> 0 <= track d <= 127 ->
  let c' := snd (access_register cycles (phase_on_register phase) c) in
  let stepped := track d + step_delta phase (last_phase_on d) in
  drive_select c' = drive_select c
  /\ last_phase_on (drive c' (drive_select c)) = phase
  /\ (stepped <= 127 ->
      track (drive c' (drive_select c)) = Z.max 0 stepped).
Proof.
  cbv zeta. intros Hp Hl Ht. unfold phase_on_register.
  split; [|split].
  - rewrite access_register_drive_select.
    assert (phase = 0 \/ phase = 1 \/ phase = 2 \/ phase = 3) as Hq by lia.
    destruct Hq as [ -> | [ -> | [ -> | -> ]]]; reflexivity.
  - rewrite access_register_acted.
    apply (acted_drive_phase_on cycles (drive_select c) phase); lia.
  - intros Hs. rewrite access_register_acted.
    destruct (acted_drive_phase_on cycles (drive_select c) phase
                (drive c (drive_select c)) Hp ltac:(lia)) as [H1 _].
    rewrite H1.
    assert (-1 <= step_delta phase (last_phase_on (drive c (drive_select c))) <= 1)
      as Hd.
    { assert (phase = 0 \/ phase = 1 \/ phase = 2 \/ phase = 3) as Hq by lia.
      assert (last_phase_on (drive c (drive_select c)) = 0
              \/ last_phase_on (drive c (drive_select c)) = 1
              \/ last_phase_on (drive c (drive_select c)) = 2
              \/ last_phase_on (drive c (drive_select c)) = 3) as Hc by lia.
      destruct Hq as [ -> | [ -> | [ -> | -> ]]];
        destruct Hc as [ -> | [ -> | [ -> | -> ]]]; cbn; lia. }
    split_ifs; try rewrite to_i8_id in * by lia; lia.
Qed.

Lemma outward_run (cycles : list Z) :
  forall c : diskII_controller,
  let d := drive c (drive_select c) in
  0 <= last_phase_on d <= 3 -> 0 <= track d <= 127 ->
  let c' := run (outward_steps cycles (last_phase_on d)) c in
  drive_select c' = drive_select c
  /\ track (drive c' (drive_select c))
     = Z.max 0 (track d - Z.of_nat (length cycles))
  /\ last_phase_on (drive c' (drive_select c))
     = (last_phase_on d - Z.of_nat (length cycles)) mod 4.
Proof.
  induction cycles as [|t rest IH]; intros c; cbv zeta; intros Hl Ht.
  - cbn [outward_steps run length Z.of_nat].
    rewrite !Z.sub_0_r, Z.mod_small by lia. repeat split; lia.
  - cbn [outward_steps run length]. unfold step. cbn [fst snd].
    set (l := last_phase_on (drive c (drive_select c))) in *.
    pose proof (Z.mod_pos_bound (l - 1) 4 ltac:(lia)) as Hm.
    destruct (phase_on_access t ((l - 1) mod 4) c ltac:(lia) Hl Ht)
      as [Hs [Hp Hk]].
    fold l in Hk. rewrite step_delta_down in Hk by exact Hl.
    specialize (Hk ltac:(lia)).
    set (c1 := snd (access_register t (phase_on_register ((l - 1) mod 4)) c)) in *.
    specialize (IH c1). cbv zeta in IH. rewrite Hs, Hp in IH.
    destruct IH as [IHs [IHt IHl]]; try lia.
    rewrite IHs, IHt, IHl, Hk.
    repeat split; try lia.
    rewrite Zminus_mod_idemp_l. f_equal. lia.
Qed.

Lemma inward_run (cycles : list Z) :
  forall c : diskII_controller,
  let d := drive c (drive_select c) in
  0 <= last_phase_on d <= 3 -> 0 <= track d ->
  track d + Z.of_nat (length cycles) <= 127 ->
  let c' := run (inward_steps cycles (last_phase_on d)) c in
  drive_select c' = drive_select c
  /\ track (drive c' (drive_select c)) = track d + Z.of_nat (length cycles)
  /\ last_phase_on (drive c' (drive_select c))
     = (last_phase_on d + Z.of_nat (length cycles)) mod 4.
Proof.
  induction cycles as [|t rest IH]; intros c; cbv zeta; intros Hl Ht Hfit.
  - cbn [inward_steps run length Z.of_nat].
    rewrite !Z.add_0_r, Z.mod_small by lia. repeat split; lia.
  - cbn [inward_steps run length] in *. unfold step. cbn [fst snd].
    set (l := last_phase_on (drive c (drive_select c))) in *.
    pose proof (Z.mod_pos_bound (l + 1) 4 ltac:(lia)) as Hm.
    destruct (phase_on_access t ((l + 1) mod 4) c ltac:(lia) Hl ltac:(lia))
      as [Hs [Hp Hk]].
    fold l in Hk. rewrite step_delta_up in Hk by exact Hl.
    specialize (Hk ltac:(lia)).
    set (c1 := snd (access_register t (phase_on_register ((l + 1) mod 4)) c)) in *.
    specialize (IH c1). cbv zeta in IH. rewrite Hs, Hp in IH.
    destruct IH as [IHs [IHt IHl]]; try lia.
    rewrite IHs, IHt, IHl, Hk.
    repeat split; try lia.
    rewrite Zplus_mod_idemp_l. f_equal. lia.
Qed.

(** X7: stepping outward.  [n] phase-on accesses that walk the phases
    downwards from the recorded phase move the head of the selected drive
    out by one half-track each and stop at track 0: the track ends at
    [max 0 (track - n)], so stepping out at least [track] times always ends
    on track 0, whatever the cycle counts. *)
Theorem outward_steps_stop_at_track_zero
  (cycles : list Z) (c : diskII_controller) :
  let d := drive c (drive_select c) in
  0 <= last_phase_on d <= 3 -> 0 <= track d <= 127 ->
  let c' := run (outward_steps cycles (last_phase_on d)) c in
  track (drive c' (drive_select c))
  = Z.max 0 (track d - Z.of_nat (length cycles))
  /\ last_phase_on (drive c' (drive_select c))
     = (last_phase_on d - Z.of_nat (length cycles)) mod 4.
Proof.
  cbv zeta. intros Hl Ht.
  destruct (outward_run cycles c Hl Ht) as [_ H]. exact H.
Qed.

Lemma outward_steps_stop_at_track_zero_witness :
  let c := run (inward_steps [1; 2] 0) fresh_controller in
  let d := drive c (drive_select c) in
  track (drive (run (outward_steps [3; 4; 5] (last_phase_on d)) c)
           (drive_select c))
  = Z.max 0 (track d - 3)
  /\ track d = 2.
Proof.
  cbv zeta. split; [|reflexivity].
  refine (proj1 (outward_steps_stop_at_track_zero [3; 4; 5]
                   (run (inward_steps [1; 2] 0) fresh_controller) _ _));
    vm_compute; split; discriminate.
Defined.

(** X8: stepping inward.  [n] phase-on accesses that walk the phases
    upwards from the recorded phase move the head of the selected drive in
    by one half-track each: the track ends at [track + n], as long as that
    does not pass 127, the largest [int8_t]. *)
Theorem inward_steps_add_up
  (cycles : list Z) (c : diskII_controller) :
  let d := drive c (drive_select c) in
  0 <= last_phase_on d <= 3 -> 0 <= track d ->
  track d + Z.of_nat (length cycles) <= 127 ->
  let c' := run (inward_steps cycles (last_phase_on d)) c in
  track (drive c' (drive_select c)) = track d + Z.of_nat (length cycles)
  /\ last_phase_on (drive c' (drive_select c))
     = (last_phase_on d + Z.of_nat (length cycles)) mod 4.
Proof.
  cbv zeta. intros Hl Ht Hfit.
  destruct (inward_run cycles c Hl Ht Hfit) as [_ H]. exact H.
Qed.

Lemma inward_steps_add_up_witness :
  let c := fresh_controller in
  let d := drive c (drive_select c) in
  track (drive (run (inward_steps [1; 2; 3] (last_phase_on d)) c)
           (drive_select c))
  = track d + 3.
Proof.
  cbv zeta.
  refine (proj1 (inward_steps_add_up [1; 2; 3] fresh_controller _ _ _));
    vm_compute; try split; discriminate.
Defined.

(** X9: a step in followed by a step out brings the head back to the track
    and phase it started from; a step out followed by a step in does so
    too, except on track 0, where the outward step is swallowed by the stop
    and the head ends on track 1. *)
Theorem step_pairs_return (a b : Z) (c : diskII_controller) :
  let d := drive c (drive_select c) in
  let l := last_phase_on d in
  0 <= l <= 3 -> 0 <= track d <= 126 ->
  let in_out := run (inward_steps [a] l ++ outward_steps [b] ((l + 1) mod 4)) c in
  let out_in := run (outward_steps [a] l ++ inward_steps [b] ((l - 1) mod 4)) c in
  track (drive in_out (drive_select c)) = track d
  /\ last_phase_on (drive in_out (drive_select c)) = l
  /\ track (drive out_in (drive_select c)) = Z.max 1 (track d)
  /\ last_phase_on (drive out_in (drive_select c)) = l.
Proof.
  cbv zeta. intros Hl Ht. rewrite !run_app.
  set (l := last_phase_on (drive c (drive_select c))) in *.
  destruct (inward_run [a] c Hl ltac:(lia) ltac:(cbn; lia)) as [Is [It Il]].
  destruct (outward_run [a] c Hl ltac:(lia)) as [Os [Ot Ol]].
  fold l in Is, It, Il, Os, Ot, Ol.
  cbn [length Z.of_nat Pos.of_succ_nat] in It, Il, Ot, Ol.
  pose proof (Z.mod_pos_bound (l + 1) 4 ltac:(lia)) as Hup.
  pose proof (Z.mod_pos_bound (l - 1) 4 ltac:(lia)) as Hdown.
  set (c1 := run (inward_steps [a] l) c) in *.
  set (c2 := run (outward_steps [a] l) c) in *.
  destruct (outward_run [b] c1) as [_ [Ot' Ol']];
    rewrite ?Is, ?It, ?Il; try lia.
  destruct (inward_run [b] c2) as [_ [It' Il']];
    rewrite ?Os, ?Ot, ?Ol; cbn [length Z.of_nat Pos.of_succ_nat]; try lia.
  rewrite Is, Il in Ot', Ol'. rewrite Os, Ol in It', Il'.
  rewrite Ot', Ol', It', Il', It, Ot.
  cbn [length Z.of_nat Pos.of_succ_nat].
  rewrite Zminus_mod_idemp_l, Zplus_mod_idemp_l.
  replace (l + 1 - 1) with l by lia. replace (l - 1 + 1) with l by lia.
  rewrite Z.mod_small by lia.
  repeat split; lia.
Qed.

Lemma step_pairs_return_witness :
  let c := fresh_controller in
  track (drive (run (outward_steps [1] 0 ++ inward_steps [2] 3) c) 0) = 1.
Proof.
  cbv zeta.
  refine (proj1 (proj2 (proj2 (step_pairs_return 1 2 fresh_controller _ _))));
    vm_compute; split; discriminate.
Defined.

(** ** The head goes round the track *)

(** Eight calls of [read_nybble] from the start of a byte, wherever the head
    stands: the drive they leave. *)
Lemma read_nybbles_eight_state (d : diskII) :
  motor d = 1 -> bit_position d = 0 ->
  snd (read_nybbles 8 d)
  = set_bit_position 0
      (set_head_position
         (if head_position d >=? track_wrap then 0
          else to_u16 (head_position d + 1))
         (set_read_shift_register
            (to_u8 (nibblized d (Z.quot (track d) 2) (head_position d))) d)).
Proof.
  intros Hm Hb.
  pose proof (read_nybble_latch d ltac:(lia) Hb) as Hlatch. cbv zeta in Hlatch.
  revert Hlatch.
  generalize (if head_position d >=? track_wrap then 0
              else to_u16 (head_position d + 1)).
  generalize (to_u8 (nibblized d (Z.quot (track d) 2) (head_position d))).
  intros b h Hlatch.
  assert (motor (set_head_position h (set_read_shift_register b d)) <> 0) as HmD
    by (fields; lia).
  revert Hlatch HmD.
  generalize (set_head_position h (set_read_shift_register b d)).
  intros D Hlatch HmD.
  rewrite (read_nybbles_step 7 d _ _ Hlatch).
  rewrite (read_nybbles_step 6 _ _ _ (read_nybble_shift_at 1 2 D HmD ltac:(lia) eq_refl)).
  rewrite (read_nybbles_step 5 _ _ _ (read_nybble_shift_at 2 3 D HmD ltac:(lia) eq_refl)).
  rewrite (read_nybbles_step 4 _ _ _ (read_nybble_shift_at 3 4 D HmD ltac:(lia) eq_refl)).
  rewrite (read_nybbles_step 3 _ _ _ (read_nybble_shift_at 4 5 D HmD ltac:(lia) eq_refl)).
  rewrite (read_nybbles_step 2 _ _ _ (read_nybble_shift_at 5 6 D HmD ltac:(lia) eq_refl)).
  rewrite (read_nybbles_step 1 _ _ _ (read_nybble_shift_at 6 7 D HmD ltac:(lia) eq_refl)).
  rewrite (read_nybbles_step 0 _ _ _ (read_nybble_shift_at 7 0 D HmD ltac:(lia) eq_refl)).
  reflexivity.
Qed.

Lemma read_nybbles_add (a b : nat) :
  forall d, snd (read_nybbles (a + b) d)
            = snd (read_nybbles b (snd (read_nybbles a d))).
Proof.
  induction a as [|a IH]; intros d; [reflexivity|].
  cbn [Nat.add read_nybbles snd]. apply IH.
Qed.

(** After [n] whole bytes the head has moved on by [n] places round a ring
    of [track_wrap + 1] positions. *)
Lemma read_nybbles_bytes (n : nat) :
  forall d,
  motor d = 1 -> bit_position d = 0 -> 0 <= head_position d <= track_wrap ->
  let d' := snd (read_nybbles (n * 8) d) in
  motor d' = 1 /\ bit_position d' = 0
  /\ head_position d' = (head_position d + Z.of_nat n) mod (track_wrap + 1).
Proof.
  induction n as [|n IH]; intros d; cbv zeta; intros Hm Hb Hh.
  - cbn [Nat.mul read_nybbles snd Z.of_nat]. unfold track_wrap in *.
    rewrite Z.add_0_r, Z.mod_small by lia. auto.
  - change (S n * 8)%nat with (8 + n * 8)%nat.
    rewrite read_nybbles_add, read_nybbles_eight_state by assumption.
    set (h' := if head_position d >=? track_wrap then 0
               else to_u16 (head_position d + 1)).
    assert (h' = (head_position d + 1) mod (track_wrap + 1)) as Hh'.
    { unfold h', track_wrap in *.
      destruct (head_position d >=? 6656) eqn:E.
      - replace (head_position d) with 6656 by lia. reflexivity.
      - rewrite to_u16_id, Z.mod_small by lia. reflexivity. }
    pose proof (Z.mod_pos_bound (head_position d + 1) (track_wrap + 1)
                  ltac:(unfold track_wrap; lia)) as Hb'.
    match goal with
    | |- context [read_nybbles (n * 8) ?x] =>
        pose proof (IH x) as IH'
    end.
    cbv zeta in IH'.
    destruct IH' as [IHm [IHb IHh]];
      fields; try assumption; try reflexivity;
      try (fold h'; rewrite Hh'; lia).
    rewrite IHm, IHb, IHh. fields. fold h'. rewrite Hh'.
    split; [reflexivity|]. split; [reflexivity|].
    rewrite Zplus_mod_idemp_l. f_equal. lia.
Qed.

(** X10: the head goes round a ring of 0x1A01 positions.  With the motor
    on, in read mode, from the start of a byte and with no deferred stop
    falling due, [8 * n] consecutive data-register reads leave
    [bit_position] at 0 and the head at [(head_position + n) mod 0x1A01]:
    the positions run 0 .. 0x1A00 inclusive, and 8 * 0x1A01 reads bring the
    head back to where it started. *)
Theorem head_goes_round_the_track
  (n : nat) (cycles : list Z) (c : diskII_controller) :
  let d := drive c (drive_select c) in
  length cycles = (n * 8)%nat ->
  motor d = 1 -> Q6 d = 0 -> Q7 d = 0 -> bit_position d = 0 ->
  0 <= head_position d <= track_wrap ->
  Forall (fun t => t <= mark_cycles_turnoff d \/ mark_cycles_turnoff d = 0) cycles ->
  let d' := drive (run (data_reads cycles) c) (drive_select c) in
  bit_position d' = 0
  /\ head_position d' = (head_position d + Z.of_nat n) mod (track_wrap + 1)
  /\ (Z.of_nat n = track_wrap + 1 -> head_position d' = head_position d).
Proof.
  cbv zeta. intros Hlen Hm H6 H7 Hb Hh Hk.
  destruct (data_register_reads cycles c Hm H6 H7 Hk) as [_ Hr].
  unfold data_reads. rewrite Hr, Hlen, drive_set_drive.
  destruct (read_nybbles_bytes n (drive c (drive_select c)) Hm Hb Hh)
    as [_ [Hb' Hh']].
  split; [exact Hb'|]. split; [exact Hh'|].
  intros Hn. rewrite Hh', Hn.
  rewrite <- Zplus_mod_idemp_r, Z.mod_same, Z.add_0_r
    by (unfold track_wrap; lia).
  apply Z.mod_small. unfold track_wrap in *. lia.
Qed.

Lemma head_goes_round_the_track_witness :
  let c := run [(0, DiskII_Motor_On)] fresh_controller in
  head_position
    (drive (run (data_reads [1; 2; 3; 4; 5; 6; 7; 8; 9; 10; 11; 12; 13; 14; 15; 16]) c)
       (drive_select c))
  = (head_position (drive c (drive_select c)) + Z.of_nat 2) mod (track_wrap + 1).
Proof.
  cbv zeta.
  refine (proj1 (proj2 (head_goes_round_the_track 2
            [1; 2; 3; 4; 5; 6; 7; 8; 9; 10; 11; 12; 13; 14; 15; 16]
            (run [(0, DiskII_Motor_On)] fresh_controller) _ _ _ _ _ _ _)));
    try reflexivity.
  - vm_compute. split; discriminate.
  - repeat (constructor; [right; reflexivity|]). constructor.
Defined.

(** ** Address decoding *)

Lemma set_slot_length (n : nat) (c : diskII_controller) (slots : module_state) :
  length (set_slot n c slots) = length slots.
Proof.
  revert n. induction slots as [|x rest IH]; intros [|n]; cbn;
    try reflexivity. rewrite IH. reflexivity.
Qed.

Lemma set_slot_same (n : nat) (c : diskII_controller) (slots : module_state) :
  (n < length slots)%nat -> nth_error (set_slot n c slots) n = Some c.
Proof.
  revert n. induction slots as [|x rest IH]; intros [|n] H; cbn in *;
    try lia; [reflexivity|]. apply IH. lia.
Qed.

Lemma set_slot_other (n k : nat) (c : diskII_controller) (slots : module_state) :
  k <> n -> nth_error (set_slot n c slots) k = nth_error slots k.
Proof.
  revert n k. induction slots as [|x rest IH]; intros [|n] [|k] H; cbn;
    try reflexivity; try lia. apply IH. lia.
Qed.

Lemma address_decode (slot reg : Z) :
  0 <= slot <= 255 -> 0 <= reg <= 15 ->
  let addr := to_u16 (0xC080 + 16 * slot + reg - 0xC080) in
  Z.land addr 0x0F = reg /\ to_u8 (Z.shiftr addr 4) = slot.
Proof.
  cbv zeta. intros Hs Hr.
  replace (0xC080 + 16 * slot + reg - 0xC080) with (16 * slot + reg) by lia.
  rewrite to_u16_id by lia. split.
  - change 0x0F with (Z.ones 4). rewrite Z.land_ones by lia.
    change (2 ^ 4) with 16. Z.div_mod_to_equations. lia.
  - rewrite Z.shiftr_div_pow2 by lia. change (2 ^ 4) with 16.
    unfold to_u8. Z.div_mod_to_equations. lia.
Qed.

(** X11: the handler splits the address [0xC080 + 16 * slot + reg] into the
    slot and the register.  When the slot has a controller, the access is
    [access_register] for [reg] on that controller: the slot's controller
    is replaced by the one the access leaves, every other slot's
    controller is left as it was, and the number of slots stays.  When the
    slot lies past the controllers there are, there is nothing to act
    on. *)
Theorem handler_decodes_slot_and_register
  (cycles slot reg : Z) (slots : module_state) :
  0 <= slot <= 255 -> 0 <= reg <= 15 ->
  let address := 0xC080 + 16 * slot + reg in
  match nth_error slots (Z.to_nat slot) with
  | Some c =>
      let r := access_register cycles reg c in
      exists slots',
        diskII_read_C0xx cycles slots address = Some (fst r, slots')
        /\ nth_error slots' (Z.to_nat slot) = Some (snd r)
        /\ (forall k, k <> Z.to_nat slot -> nth_error slots' k = nth_error slots k)
        /\ length slots' = length slots
  | None => diskII_read_C0xx cycles slots address = None
  end.
Proof.
  cbv zeta. intros Hs Hr. unfold diskII_read_C0xx.
  destruct (address_decode slot reg Hs Hr) as [-> ->].
  destruct (nth_error slots (Z.to_nat slot)) as [c|] eqn:E; [|reflexivity].
  eexists. split; [reflexivity|].
  assert (Z.to_nat slot < length slots)%nat as Hlt
    by (apply nth_error_Some; congruence).
  split; [apply set_slot_same; exact Hlt|].
  split; [intros k Hk; apply set_slot_other; exact Hk|].
  apply set_slot_length.
Qed.

Lemma handler_decodes_slot_and_register_witness :
  let slots := repeat fresh_controller 8 in
  exists slots',
    diskII_read_C0xx 0 slots 0xC0E9
    = Some (read_value, slots')
    /\ nth_error slots' 6
       = Some (snd (access_register 0 DiskII_Motor_On fresh_controller)).
Proof.
  cbv zeta.
  pose proof (handler_decodes_slot_and_register 0 6 9
                (repeat fresh_controller 8)) as H.
  cbv zeta in H.
  destruct H as [slots' [H1 [H2 _]]].
  - vm_compute. split; discriminate.
  - vm_compute. split; discriminate.
  - exists slots'. split; [exact H1 | exact H2].
Defined.

(** * Further properties of the execution scheduler *)

Section BurstStops.

Import Scheduler.

Context {cpu_state : Type} {core : CpuCore cpu_state}.

Variable max_step : Z.

Hypothesis max_step_fits : burst_cycles + max_step <= 2 ^ 64.

(** Each step advances the cycle counter, by [max_step] at most; nothing is
    assumed of what the steps return. *)
Hypothesis step_advances :
  forall cpu,
    1 <= to_u64 (cycles (snd (burst_step cpu)) - cycles cpu) <= max_step.

Lemma burst_ends (last : Z) (fuel : nat) :
  forall cpu,
  burst_cycles - elapsed last cpu <= Z.of_nat fuel ->
  exists n,
    burst fuel last cpu = Some (burst_steps n cpu)
    /\ (forall k, (k < n)%nat ->
          elapsed last (burst_steps k cpu) < burst_cycles
          /\ ((S k < n)%nat -> fst (burst_step (burst_steps k cpu)) <= 0))
    /\ (burst_cycles <= elapsed last (burst_steps n cpu)
        \/ exists k, n = S k /\ fst (burst_step (burst_steps k cpu)) > 0)
    /\ (elapsed last cpu < burst_cycles ->
        elapsed last (burst_steps n cpu) < burst_cycles + max_step).
Proof.
  induction fuel as [|fuel IH]; intros cpu Hfuel.
  - exists 0%nat. cbn [burst]. change (burst_steps 0 cpu) with cpu.
    destruct (elapsed last cpu <? burst_cycles) eqn:E; [lia|].
    split; [reflexivity|]. split; [intros k Hk; inversion Hk|].
    split; [left; lia|intros; lia].
  - cbn [burst].
    destruct (elapsed last cpu <? burst_cycles) eqn:E.
    + assert (elapsed last cpu < burst_cycles) as Hin0 by lia.
      destruct (elapsed_step max_step max_step_fits step_advances last cpu Hin0)
        as [Hlo Hhi].
      destruct (fst (burst_step cpu) >? 0) eqn:E0.
      * exists 1%nat.
        change (burst_steps 1 cpu) with (snd (burst_step cpu)).
        split; [reflexivity|]. split; [|split].
        -- intros k Hk. assert (k = 0%nat) as -> by lia.
           change (burst_steps 0 cpu) with cpu. split; [lia|intros; lia].
        -- right. exists 0%nat. change (burst_steps 0 cpu) with cpu.
           split; [reflexivity|lia].
        -- intros _. lia.
      * assert (burst_cycles - elapsed last (snd (burst_step cpu))
                <= Z.of_nat fuel) as Hfuel' by lia.
        destruct (IH (snd (burst_step cpu)) Hfuel')
          as [n [Hb [Hk [Hend Hlt]]]].
        exists (S n). rewrite burst_steps_succ.
        split; [exact Hb|]. split; [|split].
        -- intros k Hlt'. destruct k as [|k].
           ++ change (burst_steps 0 cpu) with cpu. split; [lia|intros; lia].
           ++ rewrite burst_steps_succ.
              destruct (Hk k ltac:(lia)) as [Hk1 Hk2].
              split; [exact Hk1|]. intros Hlt''. apply Hk2. lia.
        -- destruct Hend as [Hge|[k [Hn Hstop]]]; [left; exact Hge|].
           right. exists (S k). rewrite burst_steps_succ.
           split; [lia|exact Hstop].
        -- intros _.
           destruct (Z_lt_le_dec (elapsed last (snd (burst_step cpu))) burst_cycles)
             as [Hin|Hout].
           ++ apply Hlt. exact Hin.
           ++ destruct n as [|n].
              ** change (burst_steps 0 (snd (burst_step cpu)))
                   with (snd (burst_step cpu)). lia.
              ** destruct (Hk 0%nat ltac:(lia)) as [Hk1 _].
                 change (burst_steps 0 (snd (burst_step cpu)))
                   with (snd (burst_step cpu)) in Hk1. lia.
    + exists 0%nat. change (burst_steps 0 cpu) with cpu.
      split; [reflexivity|]. split; [intros k Hk; inversion Hk|].
      split; [left; lia|intros; lia].
Qed.

(** X12: whatever the CPU steps return, a burst ends, as long as every
    step advances the cycle counter.  It ends after the first step that
    signals a stop or in the first state with at least 17008 cycles elapsed
    since the burst start, whichever comes first; before that every state
    had fewer than 17008 elapsed and no step had signalled a stop; and it
    never runs a whole step's worth past the 17008. *)
Theorem burst_ends_on_stop_or_frame (cpu : cpu_state) :
  exists n,
    burst (Z.to_nat burst_cycles) (cycles cpu) cpu = Some (burst_steps n cpu)
    /\ (forall k, (k < n)%nat ->
          elapsed (cycles cpu) (burst_steps k cpu) < burst_cycles
          /\ ((S k < n)%nat -> fst (burst_step (burst_steps k cpu)) <= 0))
    /\ (burst_cycles <= elapsed (cycles cpu) (burst_steps n cpu)
        \/ exists k, n = S k /\ fst (burst_step (burst_steps k cpu)) > 0)
    /\ elapsed (cycles cpu) (burst_steps n cpu) < burst_cycles + max_step.
Proof.
  assert (elapsed (cycles cpu) cpu = 0) as H0
    by (unfold elapsed; rewrite Z.sub_diag; reflexivity).
  destruct (burst_ends (cycles cpu) (Z.to_nat burst_cycles) cpu)
    as [n [Hb [Hk [Hend Hlt]]]].
  - rewrite H0, Z2Nat.id by (unfold burst_cycles; lia). lia.
  - exists n. split; [exact Hb|]. split; [exact Hk|]. split; [exact Hend|].
    apply Hlt. rewrite H0. unfold burst_cycles. lia.
Qed.

End BurstStops.

Lemma burst_ends_on_stop_or_frame_witness :
  exists n,
    Scheduler.burst (core := Scheduler.halting_core)
      (Z.to_nat Scheduler.burst_cycles) 0 0
    = Some (Scheduler.burst_steps (core := Scheduler.halting_core) n 0).
Proof.
  destruct (burst_ends_on_stop_or_frame (core := Scheduler.halting_core)
              4 ltac:(vm_compute; discriminate)
              ltac:(intros cpu; unfold Scheduler.burst_step; cbn;
                    destruct (cpu >=? 100); cbn;
                    unfold to_u64; rewrite Zminus_mod_idemp_l;
                    replace (cpu + 4 - cpu) with 4 by lia; vm_compute;
                    split; discriminate)
              0) as [n [Hb _]].
  exists n. exact Hb.
Defined.

(** * Properties of the display services *)

Import Display.

(** ** Arrays and counting loops *)

Lemma list_set_length {A : Type} (n : nat) (v : A) (a : list A) :
  length (list_set n v a) = length a.
Proof.
  revert n. induction a as [|x rest IH]; intros [|n]; cbn;
    try reflexivity. rewrite IH. reflexivity.
Qed.

Lemma nth_list_set {A : Type} (n k : nat) (v dflt : A) (a : list A) :
  nth k (list_set n v a) dflt
  = if (k =? n)%nat && (n <? length a)%nat then v else nth k a dflt.
Proof.
  revert n k. induction a as [|x rest IH]; intros n k.
  - destruct n, k; cbn; rewrite ?andb_false_r; reflexivity.
  - destruct n as [|n], k as [|k]; cbn [list_set nth length]; try reflexivity.
    rewrite IH. reflexivity.
Qed.

Lemma array_set_length {A : Type} (i : Z) (v : A) (a : list A) :
  length (array_set i v a) = length a.
Proof. unfold array_set. destruct (i <? 0); [reflexivity|apply list_set_length]. Qed.

(** Reading an array after a write. *)
Lemma array_get_set {A : Type} (i j : Z) (v dflt : A) (a : list A) :
  0 <= j ->
  array_get dflt (array_set i v a) j
  = if (j =? i) && (i <? Z.of_nat (length a)) then v else array_get dflt a j.
Proof.
  intros Hj. unfold array_get, array_set.
  destruct (j <? 0) eqn:Ej; [lia|].
  destruct (i <? 0) eqn:Ei.
  - destruct (j =? i) eqn:E; [lia|reflexivity].
  - rewrite nth_list_set.
    destruct (j =? i) eqn:E.
    + assert (j = i) as -> by lia. rewrite Nat.eqb_refl. cbn [andb].
      destruct (i <? Z.of_nat (length a)) eqn:E1;
        destruct (Z.to_nat i <? length a)%nat eqn:E2; try reflexivity; lia.
    + destruct (Z.to_nat j =? Z.to_nat i)%nat eqn:E1; [lia|reflexivity].
Qed.

Lemma in_range (lo j : Z) (n : nat) :
  In j (range lo n) <-> lo <= j < lo + Z.of_nat n.
Proof.
  revert lo. induction n as [|n IH]; intros lo; cbn [range In].
  - lia.
  - rewrite IH. lia.
Qed.

Lemma range_NoDup (lo : Z) (n : nat) : NoDup (range lo n).
Proof.
  revert lo. induction n as [|n IH]; intros lo; cbn [range]; constructor.
  - rewrite in_range. lia.
  - apply IH.
Qed.

(** Two arrays of the same length with the same elements are the same. *)
Lemma array_ext {A : Type} (dflt : A) (a b : list A) :
  length a = length b ->
  (forall j, 0 <= j < Z.of_nat (length a) -> array_get dflt a j = array_get dflt b j) ->
  a = b.
Proof.
  intros Hlen H. apply (nth_ext a b dflt dflt Hlen).
  intros n Hn. specialize (H (Z.of_nat n) ltac:(lia)).
  unfold array_get in H.
  destruct (Z.of_nat n <? 0) eqn:E; [lia|].
  rewrite Nat2Z.id in H. exact H.
Qed.

Lemma array_get_repeat {A : Type} (dflt v : A) (n : nat) (j : Z) :
  0 <= j < Z.of_nat n -> array_get dflt (repeat v n) j = v.
Proof.
  intros H. unfold array_get. destruct (j <? 0) eqn:E; [lia|].
  apply nth_repeat_lt. lia.
Qed.

(** A counting loop that writes some of the elements it passes: what each
    element holds afterwards. *)
Lemma fold_array_set {A : Type} (dflt : A) (write : Z -> option A)
  (lines : list Z) :
  forall a : list A,
  NoDup lines ->
  (forall l, In l lines -> 0 <= l < Z.of_nat (length a)) ->
  let a' := fold_left (fun acc y => match write y with
                                    | Some v => array_set y v acc
                                    | None => acc
                                    end) lines a in
  length a' = length a
  /\ forall j, 0 <= j ->
       array_get dflt a' j
       = match write j with
         | Some v => if existsb (Z.eqb j) lines then v else array_get dflt a j
         | None => array_get dflt a j
         end.
Proof.
  induction lines as [|l rest IH]; intros a Hnd Hin; cbv zeta.
  - cbn. split; [reflexivity|]. intros j Hj. destruct (write j); reflexivity.
  - cbn [fold_left existsb]. inversion Hnd as [|x xs Hnot Hnd']; subst.
    set (a1 := match write l with Some v => array_set l v a | None => a end).
    assert (length a1 = length a) as Hlen1
      by (unfold a1; destruct (write l); [apply array_set_length|reflexivity]).
    destruct (IH a1 Hnd') as [Hlen Hget].
    { intros k Hk. rewrite Hlen1. apply Hin. right. exact Hk. }
    split; [congruence|].
    intros j Hj. rewrite Hget by exact Hj.
    assert (existsb (Z.eqb l) rest = false) as Hl.
    { apply not_true_iff_false. intros He. apply Hnot.
      apply existsb_exists in He. destruct He as [k [Hk1 Hk2]].
      assert (l = k) as -> by lia. exact Hk1. }
    destruct (j =? l) eqn:E.
    + assert (j = l) as -> by lia. rewrite Hl. cbn [orb].
      unfold a1. destruct (write l) as [v|]; [|reflexivity].
      rewrite array_get_set by exact Hj. rewrite Z.eqb_refl. cbn [andb].
      specialize (Hin l (or_introl eq_refl)).
      destruct (l <? Z.of_nat (length a)) eqn:E1; [reflexivity|lia].
    + cbn [orb]. unfold a1.
      destruct (write j) as [v|];
        destruct (write l) as [w|]; try reflexivity;
        rewrite array_get_set by exact Hj; rewrite E; reflexivity.
Qed.

Lemma existsb_range (lo j : Z) (n : nat) :
  existsb (Z.eqb j) (range lo n) = (lo <=? j) && (j <? lo + Z.of_nat n).
Proof.
  destruct (existsb (Z.eqb j) (range lo n)) eqn:E.
  - apply existsb_exists in E. destruct E as [k [Hk1 Hk2]].
    apply in_range in Hk1. lia.
  - destruct ((lo <=? j) && (j <? lo + Z.of_nat n)) eqn:E1; [|reflexivity].
    assert (existsb (Z.eqb j) (range lo n) = true) as Ht.
    { apply existsb_exists. exists j. split; [apply in_range; lia|lia]. }
    congruence.
Qed.

(** ** Redrawing *)

Lemma update_lines_spec (lines : list Z) :
  forall (dirty : list Z) (out : redraw),
  NoDup lines ->
  (forall l, In l lines -> 0 <= l < Z.of_nat (length dirty)) ->
  let r := update_lines lines dirty out in
  length (fst r) = length dirty
  /\ rendered (snd r) = rendered out ++ filter (is_dirty dirty) lines
  /\ presented (snd r) = presented out || existsb (is_dirty dirty) lines
  /\ forall j, 0 <= j ->
       array_get 0 (fst r) j
       = if existsb (Z.eqb j) lines then 0 else array_get 0 dirty j.
Proof.
  induction lines as [|l rest IH]; intros dirty out Hnd Hin; cbv zeta.
  - cbn. rewrite app_nil_r, orb_false_r. auto.
  - inversion Hnd as [|x xs Hnot Hnd']; subst.
    assert (forall y, In y rest ->
              is_dirty (array_set l 0 dirty) y = is_dirty dirty y) as Hsame.
    { intros y Hy. unfold is_dirty.
      rewrite array_get_set by (specialize (Hin y (or_intror Hy)); lia).
      destruct (y =? l) eqn:E; [|reflexivity].
      assert (y = l) as -> by lia. contradiction. }
    cbn [update_lines filter existsb]. fold (is_dirty dirty l).
    destruct (is_dirty dirty l) eqn:Ed.
    + destruct (IH (array_set l 0 dirty) (mkRedraw (rendered out ++ [l]) true) Hnd')
        as [Hlen [Hr [Hp Hg]]].
      { intros k Hk. rewrite array_set_length. apply Hin. right. exact Hk. }
      rewrite array_set_length in Hlen.
      split; [exact Hlen|]. split; [|split].
      * rewrite Hr. cbn [rendered]. rewrite <- app_assoc. cbn [app].
        rewrite (filter_ext_in _ _ rest Hsame). reflexivity.
      * rewrite Hp. cbn [presented orb]. rewrite orb_true_r. reflexivity.
      * intros j Hj. rewrite Hg by exact Hj.
        rewrite array_get_set by exact Hj.
        specialize (Hin l (or_introl eq_refl)).
        destruct (j =? l) eqn:E; cbn [orb andb].
        -- destruct (existsb (Z.eqb j) rest);
             destruct (l <? Z.of_nat (length dirty)) eqn:E1; try reflexivity; lia.
        -- reflexivity.
    + destruct (IH dirty out Hnd') as [Hlen [Hr [Hp Hg]]].
      { intros k Hk. apply Hin. right. exact Hk. }
      split; [exact Hlen|]. split; [exact Hr|]. split; [exact Hp|].
      intros j Hj. rewrite Hg by exact Hj.
      destruct (j =? l) eqn:E; cbn [orb]; [|reflexivity].
      assert (j = l) as -> by lia.
      unfold is_dirty in Ed.
      destruct (array_get 0 dirty l =? 0) eqn:E0; [|discriminate Ed].
      destruct (existsb (Z.eqb l) rest); lia.
Qed.

Lemma all_zero_lines (dirty : list Z) (n : nat) :
  length dirty = n ->
  (forall j, 0 <= j < Z.of_nat n -> array_get 0 dirty j = 0) ->
  dirty = repeat 0 n.
Proof.
  intros Hlen H. apply (array_ext 0).
  - rewrite repeat_length. exact Hlen.
  - intros j Hj. rewrite Hlen in Hj.
    rewrite H, array_get_repeat by exact Hj. reflexivity.
Qed.

(** X13: [update_display] has [render_line] draw exactly the lines marked
    dirty, each once and in ascending order, presents the texture exactly
    when it drew a line, and leaves no line marked; called again with
    nothing written in between, it draws nothing and presents nothing. *)
Theorem update_display_draws_dirty_lines_once (ds : display_state_t) :
  length (dirty_line ds) = 24%nat ->
  let r := update_display ds in
  rendered (fst r) = filter (is_dirty (dirty_line ds)) (range 0 24)
  /\ presented (fst r) = existsb (is_dirty (dirty_line ds)) (range 0 24)
  /\ dirty_line (snd r) = repeat 0 24
  /\ update_display (snd r) = (mkRedraw [] false, snd r).
Proof.
  cbv zeta. intros Hlen. unfold update_display. cbn [fst snd].
  destruct (update_lines_spec (range 0 24) (dirty_line ds) (mkRedraw [] false)
              (range_NoDup 0 24)) as [Hl [Hr [Hp Hg]]].
  { intros l Hl. apply in_range in Hl. rewrite Hlen. exact Hl. }
  assert (fst (update_lines (range 0 24) (dirty_line ds) (mkRedraw [] false))
          = repeat 0 24) as Hz.
  { apply all_zero_lines; [congruence|].
    intros j Hj. rewrite Hg by lia. rewrite existsb_range.
    change (Z.of_nat 24) with 24 in *. clear - Hj.
    destruct ((0 <=? j) && (j <? 0 + 24)) eqn:E; [reflexivity|lia]. }
  change (rendered (mkRedraw [] false)) with (@nil Z) in Hr.
  change (presented (mkRedraw [] false)) with false in Hp.
  rewrite app_nil_l in Hr. rewrite orb_false_l in Hp.
  split; [exact Hr|]. split; [exact Hp|]. split.
  - cbn [dirty_line set_dirty_line]. exact Hz.
  - rewrite Hz. cbn [dirty_line set_dirty_line].
    assert (update_lines (range 0 24) (repeat 0 24) (mkRedraw [] false)
            = (repeat 0 24, mkRedraw [] false)) as -> by (vm_compute; reflexivity).
    reflexivity.
Qed.

Lemma update_display_draws_dirty_lines_once_witness :
  let ds := txt_memory_write 0x0428 0xC1 (display_state_new (repeat 7 24) []) in
  rendered (fst (update_display ds)) = filter (is_dirty (dirty_line ds)) (range 0 24)
  /\ filter (is_dirty (dirty_line ds)) (range 0 24) = [8].
Proof.
  cbv zeta. split; [|vm_compute; reflexivity].
  refine (proj1 (update_display_draws_dirty_lines_once
                   (txt_memory_write 0x0428 0xC1
                      (display_state_new (repeat 7 24) [])) _)).
  vm_compute. reflexivity.
Defined.

(** ** Mode switches *)

(** A counting loop that writes [v] to every element it passes. *)
Lemma fill_range {A : Type} (dflt v : A) (lo : Z) (n : nat) (a : list A) :
  0 <= lo -> lo + Z.of_nat n <= Z.of_nat (length a) ->
  let a' := fold_left (fun acc y => array_set y v acc) (range lo n) a in
  length a' = length a
  /\ forall j, 0 <= j ->
       array_get dflt a' j
       = if (lo <=? j) && (j <? lo + Z.of_nat n) then v else array_get dflt a j.
Proof.
  cbv zeta. intros Hlo Hhi.
  destruct (fold_array_set dflt (fun _ => Some v) (range lo n) a
              (range_NoDup lo n)) as [Hlen Hget].
  { intros l Hl. apply in_range in Hl. lia. }
  cbv beta iota in Hlen, Hget.
  split; [exact Hlen|].
  intros j Hj. rewrite Hget by exact Hj. rewrite existsb_range. reflexivity.
Qed.

Lemma update_line_mode_lines (ds : display_state_t) (y : Z) :
  length (line_mode ds) = 24%nat -> 0 <= y < 24 ->
  array_get LM_TEXT_MODE (line_mode (update_line_mode ds)) y
  = let top_mode :=
      match display_mode ds with
      | TEXT_MODE => LM_TEXT_MODE
      | GRAPHICS_MODE =>
          match display_graphics_mode ds with
          | LORES_MODE => LM_LORES_MODE
          | HIRES_MODE => LM_HIRES_MODE
          end
      end in
    if y <? 20 then top_mode
    else match display_split_mode ds with
         | SPLIT_SCREEN => LM_TEXT_MODE
         | FULL_SCREEN => top_mode
         end.
Proof.
  intros Hlen Hy. unfold update_line_mode. cbv zeta.
  cbn [line_mode set_line_mode].
  set (top := match display_mode ds with
              | TEXT_MODE => LM_TEXT_MODE
              | GRAPHICS_MODE =>
                  match display_graphics_mode ds with
                  | LORES_MODE => LM_LORES_MODE
                  | HIRES_MODE => LM_HIRES_MODE
                  end
              end).
  set (bottom := match display_split_mode ds with
                 | SPLIT_SCREEN => LM_TEXT_MODE
                 | FULL_SCREEN => top
                 end).
  destruct (fill_range LM_TEXT_MODE top 0 20 (line_mode ds)) as [Hl1 Hg1];
    [lia | rewrite Hlen; cbn; lia |].
  set (lm1 := fold_left (fun lm y0 => array_set y0 top lm) (range 0 20)
                (line_mode ds)) in *.
  destruct (fill_range LM_TEXT_MODE bottom 20 4 lm1) as [Hl2 Hg2];
    [lia | rewrite Hl1, Hlen; cbn; lia |].
  rewrite Hg2, Hg1 by lia.
  change (Z.of_nat 20) with 20. change (Z.of_nat 4) with 4.
  destruct (y <? 20) eqn:E.
  - destruct ((20 <=? y) && (y <? 20 + 4)) eqn:E1; [lia|].
    destruct ((0 <=? y) && (y <? 0 + 20)) eqn:E2; [reflexivity|lia].
  - destruct ((20 <=? y) && (y <? 20 + 4)) eqn:E1; [reflexivity|lia].
Qed.

(** X14: after [update_line_mode], which every mode switch runs, the line
    modes follow the three flags.  In text mode all 24 lines are text
    lines; in graphics mode the top 20 lines are all lo-res or all hi-res
    lines, as the graphics flag says; the bottom 4 lines are text lines in
    split mode and follow the top otherwise. *)
Theorem line_modes_follow_the_flags (ds : display_state_t) (y : Z) :
  length (line_mode ds) = 24%nat -> 0 <= y < 24 ->
  let line := array_get LM_TEXT_MODE (line_mode (update_line_mode ds)) y in
  let graphics :=
    match display_graphics_mode ds with
    | LORES_MODE => LM_LORES_MODE
    | HIRES_MODE => LM_HIRES_MODE
    end in
  (display_mode ds = TEXT_MODE -> line = LM_TEXT_MODE)
  /\ (display_mode ds = GRAPHICS_MODE -> y < 20 -> line = graphics)
  /\ (display_mode ds = GRAPHICS_MODE -> display_split_mode ds = FULL_SCREEN ->
      line = graphics)
  /\ (display_split_mode ds = SPLIT_SCREEN -> 20 <= y -> line = LM_TEXT_MODE).
Proof.
  cbv zeta. intros Hlen Hy.
  rewrite (update_line_mode_lines ds y Hlen Hy). cbv zeta.
  repeat split.
  - intros ->. destruct (y <? 20), (display_split_mode ds); reflexivity.
  - intros -> Hlt. destruct (y <? 20) eqn:E; [reflexivity|lia].
  - intros -> ->. destruct (y <? 20); reflexivity.
  - intros -> Hge. destruct (y <? 20) eqn:E; [lia|reflexivity].
Qed.

Lemma line_modes_follow_the_flags_witness :
  let ds := set_split_mode SPLIT_SCREEN
              (set_display_mode GRAPHICS_MODE
                 (display_state_new (repeat 0 24) (repeat LM_HIRES_MODE 24))) in
  array_get LM_TEXT_MODE (line_mode (update_line_mode ds)) 21 = LM_TEXT_MODE.
Proof.
  cbv zeta.
  refine (proj2 (proj2 (proj2 (line_modes_follow_the_flags _ 21 _ _))) _ _).
  - vm_compute. reflexivity.
  - lia.
  - reflexivity.
  - lia.
Defined.

Lemma force_display_update_dirty (ds : display_state_t) :
  length (dirty_line ds) = 24%nat ->
  dirty_line (force_display_update ds) = repeat 1 24.
Proof.
  intros Hlen. unfold force_display_update. cbn [dirty_line set_dirty_line].
  destruct (fill_range 0 1 0 24 (dirty_line ds)) as [Hl Hg];
    [lia | rewrite Hlen; cbn; lia |].
  apply (array_ext 0).
  - rewrite repeat_length. congruence.
  - intros j Hj. rewrite Hl, Hlen in Hj. change (Z.of_nat 24) with 24 in *.
    rewrite Hg by lia. rewrite array_get_repeat by (cbn; lia).
    destruct ((0 <=? j) && (j <? 0 + 24)) eqn:E; [reflexivity|lia].
Qed.

Lemma update_line_mode_dirty (ds : display_state_t) :
  dirty_line (update_line_mode ds) = dirty_line ds.
Proof. reflexivity. Qed.

(** X15: each of the eight soft switches [$C050 .. $C057] returns 0 and
    marks all 24 lines dirty, whatever was marked before, so the
    [update_display] that follows draws the whole screen, lines 0 to 23 in
    order. *)
Theorem soft_switches_redraw_everything
  (switch : display_state_t -> Z * display_state_t) (ds : display_state_t) :
  In switch soft_switches ->
  length (dirty_line ds) = 24%nat ->
  let r := switch ds in
  fst r = 0
  /\ dirty_line (snd r) = repeat 1 24
  /\ rendered (fst (update_display (snd r))) = range 0 24.
Proof.
  cbv zeta. intros Hin Hlen.
  assert (fst (switch ds) = 0 /\ dirty_line (snd (switch ds)) = repeat 1 24)
    as [Hv Hd].
  { unfold soft_switches in Hin. cbn [In] in Hin.
    repeat (destruct Hin as [<- | Hin];
            [split; [reflexivity|];
             cbn [snd]; apply force_display_update_dirty; exact Hlen|]).
    contradiction. }
  split; [exact Hv|]. split; [exact Hd|].
  unfold update_display. cbn [fst]. rewrite Hd.
  vm_compute. reflexivity.
Qed.

Lemma soft_switches_redraw_everything_witness :
  let ds := display_state_new (repeat 5 24) (repeat LM_TEXT_MODE 24) in
  dirty_line (snd (txt_bus_read_C053 ds)) = repeat 1 24.
Proof.
  cbv zeta.
  refine (proj1 (proj2 (soft_switches_redraw_everything txt_bus_read_C053 _ _ _))).
  - right. right. right. left. reflexivity.
  - vm_compute. reflexivity.
Defined.

(** ** Text page writes *)

Lemma list_set_twice {A : Type} (n : nat) (v : A) (a : list A) :
  list_set n v (list_set n v a) = list_set n v a.
Proof.
  revert n. induction a as [|x rest IH]; intros [|n]; cbn;
    try reflexivity. rewrite IH. reflexivity.
Qed.

Lemma array_set_twice {A : Type} (i : Z) (v : A) (a : list A) :
  array_set i v (array_set i v a) = array_set i v a.
Proof.
  unfold array_set. destruct (i <? 0); [reflexivity|apply list_set_twice].
Qed.

(** The text page tables interleave the 24 lines: line [y] starts
    [128 * (y mod 8) + 40 * (y / 8)] bytes into the page. *)
Lemma text_page_table_entry (page : display_page_number_t) (y : Z) :
  0 <= y < 24 ->
  array_get 0 (text_page_table (display_pages page)) y
  = text_page_start (display_pages page) + 128 * (y mod 8) + 40 * (y / 8).
Proof.
  intros Hy. replace y with (Z.of_nat (Z.to_nat y)) by lia.
  assert (Z.to_nat y < 24)%nat as Hn by lia. revert Hn.
  generalize (Z.to_nat y). intros n Hn.
  do 24 (destruct n as [|n]; [destruct page; vm_compute; reflexivity|]).
  lia.
Qed.

Lemma text_page_extent (page : display_page_number_t) :
  0 <= text_page_start (display_pages page)
  /\ text_page_end (display_pages page)
     = text_page_start (display_pages page) + 1023.
Proof. destruct page; vm_compute; split; congruence. Qed.

(** [txt_memory_write] on an address of the shown text page, with the
    address decoding written as arithmetic. *)
Lemma txt_memory_write_in_page (page : display_page_number_t)
  (address value : Z) (ds : display_state_t) :
  display_page_table ds = display_pages page ->
  text_page_start (display_pages page) <= address
    <= text_page_end (display_pages page) ->
  let rel := address - text_page_start (display_pages page) in
  txt_memory_write address value ds
  = if rel mod 128 <? 120
    then set_dirty_line
           (array_set (8 * (rel mod 128 / 40) + rel / 128) 1 (dirty_line ds)) ds
    else ds.
Proof.
  intros Hpage Hin. destruct (text_page_extent page) as [Hs He].
  rewrite He in Hin. cbv zeta. unfold txt_memory_write. rewrite Hpage, He.
  set (start := text_page_start (display_pages page)) in *.
  set (rel := address - start).
  assert (0 <= rel < 1024) as Hrel by (unfold rel; lia).
  destruct ((address <? start) || (address >? start + 1023)) eqn:E; [lia|].
  assert (to_u16 rel = rel) as -> by (unfold to_u16; zsolve).
  rewrite Z.shiftr_div_pow2 by lia.
  change 0x7F with (Z.ones 7). rewrite Z.land_ones by lia.
  change (2 ^ 7) with 128.
  assert (to_u8 (rel / 128) = rel / 128) as -> by (unfold to_u8; zsolve).
  assert (to_u8 (rel mod 128) = rel mod 128) as -> by (unfold to_u8; zsolve).
  rewrite Z.quot_div_nonneg, Z.rem_mod_nonneg by zsolve.
  assert (to_u8 (rel mod 128 / 40) = rel mod 128 / 40) as ->
    by (unfold to_u8; zsolve).
  assert (to_u8 (rel mod 128 mod 40) = rel mod 128 mod 40) as ->
    by (unfold to_u8; zsolve).
  assert (to_u8 (rel mod 128 / 40 * 8 + rel / 128)
          = 8 * (rel mod 128 / 40) + rel / 128) as ->
    by (unfold to_u8; zsolve).
  set (y := 8 * (rel mod 128 / 40) + rel / 128).
  assert ((rel mod 128 mod 40 >=? 40) = false) as -> by zsolve.
  assert ((y >=? 24) = negb (rel mod 128 <? 120)) as ->.
  { unfold y. destruct (rel mod 128 <? 120) eqn:E1; cbn [negb]; zsolve. }
  cbn [orb]. destruct (rel mod 128 <? 120); cbn [negb]; [|reflexivity].
  destruct (display_mode ds); [reflexivity|].
  destruct (display_split_mode ds); [reflexivity|].
  destruct ((y >=? 20) && (y <? 24)); [|reflexivity].
  cbn [dirty_line set_dirty_line]. rewrite array_set_twice. reflexivity.
Qed.

(** X16: a write to column [x] of line [y] of the shown text page, at the
    address the page table gives for it, marks line [y] dirty and no other
    line, whatever the display mode, and changes nothing else of the display
    state. *)
Theorem text_cell_write_marks_its_line (page : display_page_number_t)
  (x y value : Z) (ds : display_state_t) :
  display_page_table ds = display_pages page ->
  length (dirty_line ds) = 24%nat ->
  0 <= x < 40 -> 0 <= y < 24 ->
  let address := array_get 0 (text_page_table (display_pages page)) y + x in
  let ds' := txt_memory_write address value ds in
  ds' = set_dirty_line (dirty_line ds') ds
  /\ forall j, 0 <= j < 24 ->
       is_dirty (dirty_line ds') j = (j =? y) || is_dirty (dirty_line ds) j.
Proof.
  intros Hpage Hlen Hx Hy. cbv zeta.
  rewrite (text_page_table_entry page y Hy).
  destruct (text_page_extent page) as [Hs He].
  set (start := text_page_start (display_pages page)) in *.
  pose proof (txt_memory_write_in_page page
                (start + 128 * (y mod 8) + 40 * (y / 8) + x) value ds Hpage)
    as Hw.
  fold start in Hw. rewrite He in Hw. cbv zeta in Hw.
  replace (start + 128 * (y mod 8) + 40 * (y / 8) + x - start)
    with (128 * (y mod 8) + 40 * (y / 8) + x) in Hw by lia.
  set (rel := 128 * (y mod 8) + 40 * (y / 8) + x) in *.
  assert (rel mod 128 = 40 * (y / 8) + x) as Hm by (unfold rel; zsolve).
  assert (rel / 128 = y mod 8) as Hd by (unfold rel; zsolve).
  rewrite Hm, Hd in Hw.
  assert ((40 * (y / 8) + x) / 40 = y / 8) as Hq by zsolve.
  rewrite Hq in Hw.
  replace (8 * (y / 8) + y mod 8) with y in Hw by zsolve.
  destruct (40 * (y / 8) + x <? 120) eqn:E; [|zsolve].
  rewrite Hw by zsolve.
  split; [reflexivity|].
  intros j Hj. cbn [dirty_line set_dirty_line]. unfold is_dirty.
  rewrite array_get_set by lia. rewrite Hlen.
  change (Z.of_nat 24) with 24.
  destruct (j =? y) eqn:Ej; cbn [andb orb]; [|reflexivity].
  destruct (y <? 24) eqn:E24; [reflexivity|lia].
Qed.

Lemma text_cell_write_marks_its_line_witness :
  let ds := display_state_new (repeat 0 24) (repeat LM_TEXT_MODE 24) in
  let ds' := txt_memory_write (0x0428 + 39) 0xC1 ds in
  is_dirty (dirty_line ds') 8 = (8 =? 8) || is_dirty (dirty_line ds) 8.
Proof.
  cbv zeta.
  refine (proj2 (text_cell_write_marks_its_line DISPLAY_PAGE_1 39 8 0xC1
                   (display_state_new (repeat 0 24) (repeat LM_TEXT_MODE 24))
                   _ _ _ _) 8 _).
  - reflexivity.
  - vm_compute. reflexivity.
  - lia.
  - lia.
  - lia.
Defined.

(** X17: a write changes the display state only at the address of one of
    the 40 x 24 character cells of the shown text page.  Addresses outside
    the page, and the last 8 bytes of each 128-byte block of the page (the
    screen holes), leave the state as it is. *)
Theorem only_text_cells_mark_lines (page : display_page_number_t)
  (address value : Z) (ds : display_state_t) :
  display_page_table ds = display_pages page ->
  let start := text_page_start (display_pages page) in
  let table := text_page_table (display_pages page) in
  (address < start \/ start + 1023 < address
   \/ 120 <= (address - start) mod 128 ->
   txt_memory_write address value ds = ds)
  /\ (txt_memory_write address value ds = ds
      \/ exists x y, 0 <= x < 40 /\ 0 <= y < 24
                     /\ address = array_get 0 table y + x).
Proof.
  intros Hpage. cbv zeta.
  destruct (text_page_extent page) as [Hs He].
  assert (address < text_page_start (display_pages page)
          \/ text_page_start (display_pages page) + 1023 < address ->
          txt_memory_write address value ds = ds) as Hout.
  { intros Ho. unfold txt_memory_write. rewrite Hpage, He.
    destruct ((address <? text_page_start (display_pages page))
              || (address >? text_page_start (display_pages page) + 1023))
      eqn:E; [reflexivity|lia]. }
  pose proof (txt_memory_write_in_page page address value ds Hpage) as Hw.
  rewrite He in Hw. cbv zeta in Hw.
  set (start := text_page_start (display_pages page)) in *.
  split.
  - intros [Ho|[Ho|Hh]]; [apply Hout; left; exact Ho
                         |apply Hout; right; exact Ho|].
    destruct (Z_lt_le_dec address start) as [Hl|Hge];
      [apply Hout; left; exact Hl|].
    destruct (Z_lt_le_dec (start + 1023) address) as [Hl|Hle];
      [apply Hout; right; exact Hl|].
    rewrite Hw by lia.
    destruct ((address - start) mod 128 <? 120) eqn:E; [lia|reflexivity].
  - destruct (Z_lt_le_dec address start) as [Hl|Hge];
      [left; apply Hout; left; exact Hl|].
    destruct (Z_lt_le_dec (start + 1023) address) as [Hl|Hle];
      [left; apply Hout; right; exact Hl|].
    rewrite Hw by lia.
    destruct ((address - start) mod 128 <? 120) eqn:E; [|left; reflexivity].
    right. set (rel := address - start) in *.
    assert (0 <= rel < 1024) as Hrel by (unfold rel; lia).
    exists (rel mod 128 mod 40), (8 * (rel mod 128 / 40) + rel / 128).
    assert (0 <= 8 * (rel mod 128 / 40) + rel / 128 < 24) as Hy by zsolve.
    split; [zsolve|]. split; [exact Hy|].
    rewrite (text_page_table_entry page _ Hy). fold start.
    unfold rel in *. zsolve.
Qed.

Lemma only_text_cells_mark_lines_witness :
  let ds := display_state_new (repeat 0 24) (repeat LM_TEXT_MODE 24) in
  txt_memory_write 0x0478 0xC1 ds = ds.
Proof.
  cbv zeta.
  refine (proj1 (only_text_cells_mark_lines DISPLAY_PAGE_1 0x0478 0xC1
                   (display_state_new (repeat 0 24) (repeat LM_TEXT_MODE 24))
                   _) _).
  - reflexivity.
  - right. right. vm_compute. discriminate.
Defined.

(** ** Flashing *)

Lemma fold_left_pointwise {A B : Type} (f g : A -> B -> A) (l : list B) :
  (forall a b, f a b = g a b) ->
  forall a, fold_left f l a = fold_left g l a.
Proof.
  intros H. induction l as [|b rest IH]; intros a; cbn; [reflexivity|].
  rewrite H. apply IH.
Qed.

(** The search of one line for a flashing character, as a search of its
    columns. *)
Lemma line_has_flash_columns (memory : Z -> Z) (base : Z) (columns : nat) :
  forall x,
  line_has_flash memory base x columns
  = existsb (fun x' => is_flash_char (to_u8 (memory (to_u16 (base + x')))))
      (range x columns).
Proof.
  induction columns as [|columns IH]; intros x; cbn [line_has_flash range existsb];
    [reflexivity|].
  rewrite IH. destruct (is_flash_char _); reflexivity.
Qed.

Lemma update_flash_state_waits (memory : Z -> Z) (c : Z) (ds : display_state_t) :
  c + 1 < 30 -> update_flash_state memory c ds = (c + 1, ds).
Proof.
  intros Hc. unfold update_flash_state.
  destruct (c + 1 <? 30) eqn:E; [reflexivity|lia].
Qed.

Lemma update_flash_state_toggles (memory : Z -> Z) (c : Z) (ds : display_state_t) :
  30 <= c + 1 ->
  fst (update_flash_state memory c ds) = 0
  /\ flash_state (snd (update_flash_state memory c ds)) = negb (flash_state ds)
  /\ display_page_table (snd (update_flash_state memory c ds))
     = display_page_table ds.
Proof.
  intros Hc. unfold update_flash_state.
  destruct (c + 1 <? 30) eqn:E; [lia|]. cbn. repeat split.
Qed.

(** X18: the flash state turns over every 30th frame.  With the frame
    counter at [c] (0 at the start, always below 30), [n] calls of
    [update_flash_state] leave the counter at [(c + n) mod 30] and have
    inverted [flash_state] [(c + n) / 30] times; the shown page stays. *)
Theorem flash_state_turns_every_30_frames (memory : Z -> Z) (n : nat) :
  forall (c : Z) (ds : display_state_t),
  0 <= c < 30 ->
  let r := flash_frames memory n c ds in
  fst r = (c + Z.of_nat n) mod 30
  /\ flash_state (snd r)
     = xorb (flash_state ds) (Z.odd ((c + Z.of_nat n) / 30))
  /\ display_page_table (snd r) = display_page_table ds.
Proof.
  cbv zeta. induction n as [|n IH]; intros c ds Hc.
  - cbn [flash_frames fst snd]. rewrite Z.add_0_r.
    rewrite Z.mod_small, Z.div_small by lia.
    cbn. rewrite xorb_false_r. repeat split.
  - cbn [flash_frames].
    destruct (Z_lt_le_dec (c + 1) 30) as [Hw|Ht].
    + rewrite update_flash_state_waits by exact Hw. cbn [fst snd].
      destruct (IH (c + 1) ds ltac:(lia)) as [H1 [H2 H3]].
      replace (c + Z.of_nat (S n)) with (c + 1 + Z.of_nat n) by lia.
      split; [exact H1|]. split; [exact H2|exact H3].
    + destruct (update_flash_state_toggles memory c ds Ht) as [T1 [T2 T3]].
      rewrite T1.
      destruct (IH 0 (snd (update_flash_state memory c ds)) ltac:(lia))
        as [H1 [H2 H3]].
      assert (c = 29) as -> by lia.
      replace (29 + Z.of_nat (S n)) with (Z.of_nat n + 1 * 30) by lia.
      rewrite Z.mod_add, Z.div_add by lia.
      rewrite Z.add_0_l in H1, H2.
      split; [exact H1|]. split; [|congruence].
      rewrite H2, T2. rewrite Z.add_1_r, Z.odd_succ, <- Z.negb_odd.
      destruct (flash_state ds), (Z.odd (Z.of_nat n / 30)); reflexivity.
Qed.

Lemma flash_state_turns_every_30_frames_witness :
  let ds := display_state_new (repeat 0 24) (repeat LM_TEXT_MODE 24) in
  flash_state (snd (flash_frames (fun _ => 0xA0) 75 0 ds))
  = xorb (flash_state ds) (Z.odd ((0 + Z.of_nat 75) / 30)).
Proof.
  cbv zeta.
  refine (proj1 (proj2 (flash_state_turns_every_30_frames (fun _ => 0xA0) 75 0
                          (display_state_new (repeat 0 24)
                             (repeat LM_TEXT_MODE 24)) _))).
  lia.
Defined.

(** X19: the frame that turns the flash state over marks a line dirty
    exactly when one of its 40 characters on the shown text page is a
    flashing one (bits 7 and 6 are 01); lines that were dirty stay dirty.
    Every other frame leaves the marks as they are. *)
Theorem flash_turn_marks_flashing_lines (memory : Z -> Z) (c y : Z)
  (ds : display_state_t) :
  length (dirty_line ds) = 24%nat ->
  0 <= y < 24 ->
  let table := text_page_table (display_page_table ds) in
  let flashing :=
    existsb (fun x => Z.land (to_u8 (memory (to_u16 (array_get 0 table y + x))))
                        0xC0 =? 0x40)
      (range 0 40) in
  is_dirty (dirty_line (snd (update_flash_state memory c ds))) y
  = is_dirty (dirty_line ds) y || ((30 <=? c + 1) && flashing).
Proof.
  intros Hlen Hy. cbv zeta. unfold update_flash_state.
  destruct (c + 1 <? 30) eqn:E.
  - cbn [snd]. replace (30 <=? c + 1) with false by lia.
    rewrite orb_false_r. reflexivity.
  - replace (30 <=? c + 1) with true by lia. cbn [snd andb].
    cbn [dirty_line set_dirty_line set_flash_state display_page_table].
    set (table := text_page_table (display_page_table ds)).
    set (write := fun y => if line_has_flash memory (array_get 0 table y) 0 40
                           then Some 1 else None).
    rewrite (fold_left_pointwise _
               (fun acc y => match write y with
                             | Some v => array_set y v acc
                             | None => acc
                             end)).
    2:{ intros a b. unfold write. destruct (line_has_flash _ _ _ _); reflexivity. }
    destruct (fold_array_set 0 write (range 0 24) (dirty_line ds)
                (range_NoDup 0 24)) as [_ Hget].
    { intros l Hl. apply in_range in Hl. rewrite Hlen.
      change (Z.of_nat 24) with 24 in *. lia. }
    cbv zeta in Hget. unfold is_dirty. rewrite Hget by lia.
    rewrite existsb_range. unfold write.
    rewrite line_has_flash_columns. unfold is_flash_char.
    destruct (existsb _ (range 0 40)).
    + replace ((0 <=? y) && (y <? 0 + Z.of_nat 24)) with true
        by (change (Z.of_nat 24) with 24; lia).
      rewrite orb_true_r. reflexivity.
    + rewrite orb_false_r. reflexivity.
Qed.

Lemma flash_turn_marks_flashing_lines_witness :
  let ds := display_state_new (repeat 0 24) (repeat LM_TEXT_MODE 24) in
  let memory := fun a => if a =? 0x0428 + 5 then 0x41 else 0xA0 in
  let table := text_page_table (display_page_table ds) in
  is_dirty (dirty_line (snd (update_flash_state memory 29 ds))) 8
  = is_dirty (dirty_line ds) 8
    || ((30 <=? 29 + 1)
        && existsb (fun x => Z.land (to_u8 (memory (to_u16 (array_get 0 table 8 + x))))
                               0xC0 =? 0x40)
             (range 0 40)).
Proof.
  cbv zeta.
  refine (flash_turn_marks_flashing_lines
            (fun a => if a =? 0x0428 + 5 then 0x41 else 0xA0) 29 8
            (display_state_new (repeat 0 24) (repeat LM_TEXT_MODE 24)) _ _).
  - vm_compute. reflexivity.
  - lia.
Defined.

(** ** The text font *)

(** Testing a bit as the code does, with a mask. *)
Lemma mask_tests_bit (a k : Z) :
  0 <= k ->
  negb (Z.land a (Z.shiftl 1 k) =? 0) = Z.testbit a k.
Proof.
  intros Hk. rewrite Z.shiftl_1_l.
  assert (Z.land a (2 ^ k) = if Z.testbit a k then 2 ^ k else 0) as ->.
  { apply Z.bits_inj'. intros n Hn. rewrite Z.land_spec, Z.pow2_bits_eqb by lia.
    destruct (k =? n) eqn:E.
    - assert (k = n) as -> by lia. destruct (Z.testbit a n); cbn.
      + rewrite Z.pow2_bits_true by lia. reflexivity.
      + rewrite Z.bits_0. reflexivity.
    - rewrite andb_false_r. destruct (Z.testbit a k).
      + rewrite Z.pow2_bits_false by lia. reflexivity.
      + rewrite Z.bits_0. reflexivity. }
  destruct (Z.testbit a k); [|reflexivity].
  assert (0 < 2 ^ k) by (apply Z.pow_pos_nonneg; lia).
  destruct (2 ^ k =? 0) eqn:E; [lia|reflexivity].
Qed.

(** The colour [pre_calculate_font] gives the pixel of column [col]. *)
Definition font_pixel (rowBits col : Z) : Z :=
  if Z.testbit rowBits (6 - col) then 0xFFFFFFFF else 0.

Lemma font_columns_fill (rowBits : Z) (n : nat) :
  forall (c : Z) (font : Z -> Z) (pos : Z),
  0 <= pos -> pos + Z.of_nat n <= 16384 -> 0 <= c -> c + Z.of_nat n <= 7 ->
  exists font',
    font_columns rowBits (range c n) font pos = Some (font', pos + Z.of_nat n)
    /\ forall i,
         font' i = if (pos <=? i) && (i <? pos + Z.of_nat n)
                   then font_pixel rowBits (c + (i - pos)) else font i.
Proof.
  induction n as [|n IH]; intros c font pos Hpos Hend Hc Hcn.
  - exists font. cbn [range font_columns]. rewrite Z.add_0_r.
    split; [reflexivity|]. intros i.
    destruct ((pos <=? i) && (i <? pos)) eqn:E; [lia|reflexivity].
  - cbn [range font_columns]. cbv zeta.
    assert (to_u32 (pos + 1) = pos + 1) as ->
      by (unfold to_u32; apply Z.mod_small; lia).
    change (CHAR_GLYPHS_COUNT * CHAR_GLYPHS_SIZE * 8) with 16384.
    destruct (pos + 1 >? 16384) eqn:E; [lia|].
    rewrite mask_tests_bit by lia.
    destruct (IH (c + 1)
                (store font pos (if Z.testbit rowBits (6 - c)
                                 then 0xFFFFFFFF else 0))
                (pos + 1)) as [font' [Hr Hf]]; try lia.
    exists font'. split.
    + rewrite Hr. f_equal. f_equal. lia.
    + intros i. rewrite Hf. unfold store.
      destruct (i =? pos) eqn:Ei.
      * assert (i = pos) as -> by lia.
        destruct ((pos + 1 <=? pos) && (pos <? pos + 1 + Z.of_nat n)) eqn:E1;
          [lia|].
        destruct ((pos <=? pos) && (pos <? pos + Z.of_nat (S n))) eqn:E2;
          [|lia].
        unfold font_pixel. replace (c + (pos - pos)) with c by lia.
        reflexivity.
      * destruct ((pos + 1 <=? i) && (i <? pos + 1 + Z.of_nat n)) eqn:E1;
          destruct ((pos <=? i) && (i <? pos + Z.of_nat (S n))) eqn:E2;
          try lia.
        f_equal. lia.
Qed.

Lemma font_rows_fill (char_rom_data : Z -> Z) (n : nat) :
  forall (r : Z) (font : Z -> Z) (pos : Z),
  0 <= pos -> pos + 7 * Z.of_nat n <= 16384 ->
  exists font',
    font_rows char_rom_data (range r n) font pos
    = Some (font', pos + 7 * Z.of_nat n)
    /\ forall i,
         font' i = if (pos <=? i) && (i <? pos + 7 * Z.of_nat n)
                   then font_pixel (to_u8 (char_rom_data (r + (i - pos) / 7)))
                          ((i - pos) mod 7)
                   else font i.
Proof.
  induction n as [|n IH]; intros r font pos Hpos Hend.
  - exists font. cbn [range font_rows].
    split; [f_equal; f_equal; lia|]. intros i.
    destruct ((pos <=? i) && (i <? pos + 7 * Z.of_nat 0)) eqn:E;
      [lia|reflexivity].
  - change (range r (S n)) with (r :: range (r + 1) n).
    cbn [font_rows]. cbv zeta.
    destruct (font_columns_fill (to_u8 (char_rom_data r)) 7 0 font pos)
      as [font1 [Hc Hf1]]; try lia.
    rewrite Hc. cbn [fst snd].
    destruct (IH (r + 1) font1 (pos + Z.of_nat 7)) as [font' [Hr Hf]];
      try lia.
    exists font'. split.
    + rewrite Hr. f_equal. f_equal. lia.
    + intros i. rewrite Hf, Hf1. change (Z.of_nat 7) with 7.
      destruct ((pos + 7 <=? i) && (i <? pos + 7 + 7 * Z.of_nat n)) eqn:E1.
      * destruct ((pos <=? i) && (i <? pos + 7 * Z.of_nat (S n))) eqn:E2;
          [|lia].
        assert ((i - (pos + 7)) / 7 = (i - pos) / 7 - 1) as -> by zsolve.
        assert ((i - (pos + 7)) mod 7 = (i - pos) mod 7) as -> by zsolve.
        f_equal. f_equal. f_equal. lia.
      * destruct ((pos <=? i) && (i <? pos + 7)) eqn:E3.
        -- destruct ((pos <=? i) && (i <? pos + 7 * Z.of_nat (S n))) eqn:E2;
             [|lia].
           assert ((i - pos) / 7 = 0) as -> by zsolve.
           assert ((i - pos) mod 7 = i - pos) as -> by zsolve.
           rewrite Z.add_0_r, Z.add_0_l. reflexivity.
        -- destruct ((pos <=? i) && (i <? pos + 7 * Z.of_nat (S n))) eqn:E2;
             [lia|reflexivity].
Qed.

Lemma pre_calculate_font_fill (char_rom_data font : Z -> Z) :
  exists font',
    pre_calculate_font char_rom_data font = Some font'
    /\ forall i,
         font' i = if (0 <=? i) && (i <? 14336)
                   then font_pixel (to_u8 (char_rom_data (i / 7))) (i mod 7)
                   else font i.
Proof.
  destruct (font_rows_fill char_rom_data (Z.to_nat (256 * 8)) 0 font 0)
    as [font' [Hr Hf]]; try lia.
  exists font'. unfold pre_calculate_font. rewrite Hr. cbn [fst].
  split; [reflexivity|]. intros i. rewrite Hf.
  rewrite Z2Nat.id by lia. rewrite Z.sub_0_r, !Z.add_0_l. reflexivity.
Qed.

(** X20: [pre_calculate_font] never takes its out-of-bounds exit.  It
    fills the entries 0 to 14335 of the font array and no other: the entry
    [7 * row + col] of ROM row [row] (0..2047) and column [col] (0..6) is
    0xFFFFFFFF when bit [6 - col] of the ROM byte is set and 0 when it is
    clear. *)
Theorem font_array_holds_the_rom_bits (char_rom_data font : Z -> Z) :
  exists font',
    pre_calculate_font char_rom_data font = Some font'
    /\ (forall row col, 0 <= row < 2048 -> 0 <= col < 7 ->
          font' (7 * row + col)
          = if Z.testbit (char_rom_data row) (6 - col) then 0xFFFFFFFF else 0)
    /\ (forall i, i < 0 \/ 14336 <= i -> font' i = font i).
Proof.
  destruct (pre_calculate_font_fill char_rom_data font) as [font' [Hr Hf]].
  exists font'. split; [exact Hr|]. split.
  - intros row col Hrow Hcol. rewrite Hf.
    destruct ((0 <=? 7 * row + col) && (7 * row + col <? 14336)) eqn:E; [|lia].
    assert ((7 * row + col) / 7 = row) as -> by (clear - Hcol; zsolve).
    assert ((7 * row + col) mod 7 = col) as -> by (clear - Hcol; zsolve).
    unfold font_pixel, to_u8. change 256 with (2 ^ 8).
    rewrite Z.mod_pow2_bits_low by lia. reflexivity.
  - intros i Hi. rewrite Hf.
    destruct ((0 <=? i) && (i <? 14336)) eqn:E; [lia|reflexivity].
Qed.

(** ** The drawing of a character *)

(** Pixels of different rows or columns have different places in a texture
    whose rows are [p] pixels apart. *)
Lemma cell_index_unique (p row row' c c' : Z) :
  0 <= c < p -> 0 <= c' < p ->
  row * p + c = row' * p + c' -> row = row' /\ c = c'.
Proof.
  intros Hc Hc' H.
  assert ((row * p + c) / p = row) as H1
    by (rewrite Z.div_add_l by lia; rewrite Z.div_small by lia; lia).
  assert ((row' * p + c') / p = row') as H2
    by (rewrite Z.div_add_l by lia; rewrite Z.div_small by lia; lia).
  rewrite H in H1. assert (row = row') as Hr by congruence.
  subst row'. split; [reflexivity|lia].
Qed.

Lemma render_text_row_pixels (font : Z -> Z) (xor_mask color_value : Z)
  (pitchoff charoff charPixels : Z) (texturePixels : Z -> Z) (row : Z) :
  0 <= row * pitchoff -> 0 <= charoff ->
  row * pitchoff + charoff + 6 < 2 ^ 32 ->
  let st := render_text_row font xor_mask color_value pitchoff charoff
              (charPixels, texturePixels) row in
  fst st = charPixels + 7
  /\ forall i,
       snd st i
       = if (row * pitchoff + charoff <=? i)
            && (i <? row * pitchoff + charoff + 7)
         then Z.land (Z.lxor (font (charPixels
                                    + (i - (row * pitchoff + charoff))))
                        xor_mask) color_value
         else texturePixels i.
Proof.
  intros Hrow Hoff Hfit. cbv zeta. unfold render_text_row. cbn [fst snd].
  split; [reflexivity|]. intros i.
  assert (to_u32 (row * pitchoff) = row * pitchoff) as ->
    by (unfold to_u32; apply Z.mod_small; lia).
  set (base := row * pitchoff + charoff) in *.
  assert (forall k, 0 <= k <= 6 ->
            to_u32 (row * pitchoff + charoff + k) = base + k) as Hk
    by (intros k Hk; unfold to_u32, base; apply Z.mod_small; lia).
  rewrite !Hk by lia. unfold store.
  destruct (i =? base + 6) eqn:E6;
    [assert (i = base + 6) as -> by lia;
     destruct ((base <=? base + 6) && (base + 6 <? base + 7)) eqn:E; [|lia];
     do 3 f_equal; lia|].
  destruct (i =? base + 5) eqn:E5;
    [assert (i = base + 5) as -> by lia;
     destruct ((base <=? base + 5) && (base + 5 <? base + 7)) eqn:E; [|lia];
     do 3 f_equal; lia|].
  destruct (i =? base + 4) eqn:E4;
    [assert (i = base + 4) as -> by lia;
     destruct ((base <=? base + 4) && (base + 4 <? base + 7)) eqn:E; [|lia];
     do 3 f_equal; lia|].
  destruct (i =? base + 3) eqn:E3;
    [assert (i = base + 3) as -> by lia;
     destruct ((base <=? base + 3) && (base + 3 <? base + 7)) eqn:E; [|lia];
     do 3 f_equal; lia|].
  destruct (i =? base + 2) eqn:E2;
    [assert (i = base + 2) as -> by lia;
     destruct ((base <=? base + 2) && (base + 2 <? base + 7)) eqn:E; [|lia];
     do 3 f_equal; lia|].
  destruct (i =? base + 1) eqn:E1;
    [assert (i = base + 1) as -> by lia;
     destruct ((base <=? base + 1) && (base + 1 <? base + 7)) eqn:E; [|lia];
     do 3 f_equal; lia|].
  destruct (i =? base + 0) eqn:E0;
    [assert (i = base) as -> by lia;
     destruct ((base <=? base) && (base <? base + 7)) eqn:E; [|lia];
     do 3 f_equal; lia|].
  destruct ((base <=? i) && (i <? base + 7)) eqn:E; [lia|reflexivity].
Qed.

Lemma render_text_rows_pixels (font : Z -> Z) (xor_mask color_value : Z)
  (pitchoff charoff : Z) (n : nat) :
  forall (r charPixels : Z) (texturePixels : Z -> Z),
  0 <= r -> 0 <= charoff -> charoff + 7 <= pitchoff ->
  (r + Z.of_nat n) * pitchoff <= 2 ^ 32 ->
  let out := snd (fold_left
                    (render_text_row font xor_mask color_value pitchoff charoff)
                    (range r n) (charPixels, texturePixels)) in
  (forall row col, r <= row < r + Z.of_nat n -> 0 <= col < 7 ->
     out (row * pitchoff + charoff + col)
     = Z.land (Z.lxor (font (charPixels + 7 * (row - r) + col)) xor_mask)
         color_value)
  /\ (forall i,
        (forall row col, r <= row < r + Z.of_nat n -> 0 <= col < 7 ->
           i <> row * pitchoff + charoff + col) ->
        out i = texturePixels i).
Proof.
  induction n as [|n IH]; intros r cp tex Hr Hoff Hp Hfit; cbv zeta.
  - cbn [range fold_left snd]. split; [intros row col Hrow; lia|reflexivity].
  - change (range r (S n)) with (r :: range (r + 1) n). cbn [fold_left].
    assert (0 <= r * pitchoff) as Hrp by (apply Z.mul_nonneg_nonneg; lia).
    assert (0 <= Z.of_nat n * pitchoff) as Hnp
      by (apply Z.mul_nonneg_nonneg; lia).
    destruct (render_text_row_pixels font xor_mask color_value pitchoff charoff
                cp tex r Hrp Hoff ltac:(lia)) as [Hcp Htex].
    destruct (render_text_row font xor_mask color_value pitchoff charoff
                (cp, tex) r) as [cp1 tex1].
    cbn [fst snd] in Hcp, Htex. subst cp1.
    destruct (IH (r + 1) (cp + 7) tex1 ltac:(lia) Hoff Hp ltac:(lia))
      as [Hin Hout].
    split.
    + intros row col Hrow Hcol.
      destruct (Z.eq_dec row r) as [->|Hne].
      * rewrite Hout.
        -- rewrite Htex.
           destruct ((r * pitchoff + charoff <=? r * pitchoff + charoff + col)
                     && (r * pitchoff + charoff + col
                         <? r * pitchoff + charoff + 7)) eqn:E; [|lia].
           do 3 f_equal. lia.
        -- intros row' col' Hrow' Hcol' Heq.
           destruct (cell_index_unique pitchoff r row' (charoff + col)
                       (charoff + col') ltac:(lia) ltac:(lia) ltac:(lia)).
           lia.
      * rewrite Hin by lia. do 3 f_equal. lia.
    + intros i Hi. rewrite Hout.
      * rewrite Htex.
        destruct ((r * pitchoff + charoff <=? i)
                  && (i <? r * pitchoff + charoff + 7)) eqn:E; [|reflexivity].
        exfalso. apply (Hi r (i - (r * pitchoff + charoff))); lia.
      * intros row col Hrow Hcol. apply Hi; lia.
Qed.

(** X21: with the font that [pre_calculate_font] makes of the character
    ROM, [render_text] draws the character stored at column [x] of line [y]
    into its own 7 x 8 cell of the line's texture and touches no other
    pixel.  The pixel of row [row] and column [col] gets the text colour of
    the colour mode when bit [6 - col] of the character's ROM row differs
    from the inverse flag, and 0 when it does not; the flag is set for the
    characters 0x00..0x3F and follows [flash_state] for 0x40..0x7F. *)
Theorem render_text_draws_the_rom_glyph (memory char_rom_data font0 : Z -> Z)
  (x y pitch : Z) (ds : display_state_t) (pixels : Z -> Z) :
  0 <= x < 40 -> 0 <= y < 24 ->
  280 * 4 <= pitch < 2 ^ 31 ->
  0 <= color_mode ds < DM_NUM_MODES ->
  let character :=
    to_u8 (memory (array_get 0 (text_page_table (display_page_table ds)) y + x)) in
  let color := array_get 0 text_color_table (color_mode ds) in
  exists font,
    pre_calculate_font char_rom_data font0 = Some font
    /\ let out := render_text memory font x y pitch ds pixels in
       (forall row col, 0 <= row < 8 -> 0 <= col < 7 ->
          out (row * (pitch / 4) + 7 * x + col)
          = if xorb (Z.testbit (char_rom_data (8 * character + row)) (6 - col))
                 (inverse_video character ds)
            then color else 0)
       /\ (forall i,
             (forall row col, 0 <= row < 8 -> 0 <= col < 7 ->
                i <> row * (pitch / 4) + 7 * x + col) ->
             out i = pixels i).
Proof.
  intros Hx Hy Hpitch Hmode. cbv zeta.
  destruct (pre_calculate_font_fill char_rom_data font0) as [font [Hfont Hf]].
  exists font. split; [exact Hfont|].
  unfold render_text.
  destruct ((x <? 0) || (x >=? 40) || (y <? 0) || (y >=? 24)) eqn:E; [lia|].
  rewrite Z.quot_div_nonneg by lia.
  set (character :=
         to_u8 (memory (array_get 0 (text_page_table (display_page_table ds)) y
                        + x))).
  assert (0 <= character < 256) as Hch
    by (unfold character, to_u8; apply Z.mod_pos_bound; lia).
  assert (280 <= pitch / 4 < 2 ^ 29) as Hp by (clear - Hpitch; zsolve).
  destruct (render_text_rows_pixels font
              (if inverse_video character ds then 0xFFFFFFFF else 0)
              (array_get 0 text_color_table (color_mode ds))
              (pitch / 4) (x * 7) 8 0 (character * 56) pixels)
    as [Hin Hout]; try lia.
  cbv zeta in Hin, Hout. change (Z.of_nat 8) with 8 in *.
  rewrite Z.add_0_l in *.
  split.
  - intros row col Hrow Hcol.
    replace (row * (pitch / 4) + 7 * x + col)
      with (row * (pitch / 4) + x * 7 + col) by lia.
    rewrite Hin by lia. rewrite Hf.
    rewrite Z.sub_0_r.
    destruct ((0 <=? character * 56 + 7 * row + col)
              && (character * 56 + 7 * row + col <? 14336)) eqn:E1; [|lia].
    assert ((character * 56 + 7 * row + col) / 7 = 8 * character + row) as ->
      by (clear - Hcol; zsolve).
    assert ((character * 56 + 7 * row + col) mod 7 = col) as ->
      by (clear - Hcol; zsolve).
    unfold font_pixel, to_u8. change 256 with (2 ^ 8).
    rewrite Z.mod_pow2_bits_low by lia.
    assert (color_mode ds = 0 \/ color_mode ds = 1 \/ color_mode ds = 2)
      as Hc by (unfold DM_NUM_MODES in Hmode; lia).
    destruct (Z.testbit (char_rom_data (8 * character + row)) (6 - col)),
      (inverse_video character ds);
      destruct Hc as [-> | [-> | ->]]; reflexivity.
  - intros i Hi. apply Hout. intros row col Hrow Hcol.
    specialize (Hi row col Hrow Hcol). lia.
Qed.

Lemma render_text_draws_the_rom_glyph_witness :
  let ds := display_state_new (repeat 0 24) (repeat LM_TEXT_MODE 24) in
  exists font,
    pre_calculate_font (fun _ => 0x7F) (fun _ => 0) = Some font
    /\ render_text (fun _ => 0xC1) font 39 23 1120 ds (fun _ => 5) 2236
       = 0xFFFFFFFF.
Proof.
  cbv zeta.
  destruct (render_text_draws_the_rom_glyph (fun _ => 0xC1) (fun _ => 0x7F)
              (fun _ => 0) 39 23 1120
              (display_state_new (repeat 0 24) (repeat LM_TEXT_MODE 24))
              (fun _ => 5) ltac:(lia) ltac:(lia) ltac:(lia)
              ltac:(vm_compute; split; congruence))
    as [font [Hfont [Hin _]]].
  exists font. split; [exact Hfont|].
  exact (Hin 7 3 ltac:(lia) ltac:(lia)).
Defined.

(** ** A new display, and the colour modes *)

Lemma display_state_new_dirty (raw_dirty : list Z) (raw_modes : list line_mode_t) :
  length raw_dirty = 24%nat ->
  dirty_line (display_state_new raw_dirty raw_modes) = repeat 0 24.
Proof.
  intros Hlen. unfold display_state_new. cbn [dirty_line].
  destruct (fill_range 0 0 0 24 raw_dirty) as [Hl Hg];
    [lia | rewrite Hlen; cbn; lia |].
  apply all_zero_lines; [congruence|].
  intros j Hj. rewrite Hg by lia. change (Z.of_nat 24) with 24 in *.
  destruct ((0 <=? j) && (j <? 0 + 24)) eqn:E; [reflexivity|lia].
Qed.

(** X22: a display state as its constructor leaves it has no line marked,
    whatever the allocation held: the first [update_display] draws nothing,
    presents nothing and leaves the state as it is, and the first write to
    a character cell makes the next [update_display] draw that one line. *)
Theorem new_display_draws_only_what_is_written
  (raw_dirty : list Z) (raw_modes : list line_mode_t) (x y value : Z) :
  length raw_dirty = 24%nat ->
  0 <= x < 40 -> 0 <= y < 24 ->
  let ds := display_state_new raw_dirty raw_modes in
  let address := array_get 0 (text_page_table display_page_1) y + x in
  update_display ds = (mkRedraw [] false, ds)
  /\ fst (update_display (txt_memory_write address value ds))
     = mkRedraw [y] true.
Proof.
  intros Hlen Hx Hy. cbv zeta.
  pose proof (display_state_new_dirty raw_dirty raw_modes Hlen) as Hd.
  split.
  - unfold update_display. rewrite Hd.
    assert (update_lines (range 0 24) (repeat 0 24) (mkRedraw [] false)
            = (repeat 0 24, mkRedraw [] false)) as ->
      by (vm_compute; reflexivity).
    cbn [fst snd]. rewrite <- Hd.
    unfold display_state_new, set_dirty_line. reflexivity.
  - pose proof (text_page_table_entry DISPLAY_PAGE_1 y Hy) as Ht.
    change (display_pages DISPLAY_PAGE_1) with display_page_1 in Ht.
    rewrite Ht.
    pose proof (txt_memory_write_in_page DISPLAY_PAGE_1
                  (text_page_start display_page_1 + 128 * (y mod 8)
                   + 40 * (y / 8) + x) value
                  (display_state_new raw_dirty raw_modes) eq_refl) as Hw.
    change (display_pages DISPLAY_PAGE_1) with display_page_1 in Hw.
    change (text_page_start display_page_1) with 0x0400 in *.
    change (text_page_end display_page_1) with 0x07FF in *.
    cbv zeta in Hw.
    replace (0x0400 + 128 * (y mod 8) + 40 * (y / 8) + x - 0x0400)
      with (128 * (y mod 8) + 40 * (y / 8) + x) in Hw by lia.
    assert ((128 * (y mod 8) + 40 * (y / 8) + x) mod 128 = 40 * (y / 8) + x)
      as Hm by (clear - Hx Hy; zsolve).
    assert ((128 * (y mod 8) + 40 * (y / 8) + x) / 128 = y mod 8)
      as Hq by (clear - Hx Hy; zsolve).
    rewrite Hm, Hq in Hw.
    assert ((40 * (y / 8) + x) / 40 = y / 8) as Hq' by (clear - Hx Hy; zsolve).
    rewrite Hq' in Hw.
    replace (8 * (y / 8) + y mod 8) with y in Hw by (clear; zsolve).
    destruct (40 * (y / 8) + x <? 120) eqn:E; [|clear - Hx Hy E; zsolve].
    rewrite Hw by (clear - Hx Hy; zsolve).
    unfold update_display. cbn [fst snd dirty_line set_dirty_line].
    rewrite Hd. clear - Hy.
    assert (y = 0 \/ y = 1 \/ y = 2 \/ y = 3 \/ y = 4 \/ y = 5 \/ y = 6
            \/ y = 7 \/ y = 8 \/ y = 9 \/ y = 10 \/ y = 11 \/ y = 12
            \/ y = 13 \/ y = 14 \/ y = 15 \/ y = 16 \/ y = 17 \/ y = 18
            \/ y = 19 \/ y = 20 \/ y = 21 \/ y = 22 \/ y = 23) as Hc by lia.
    repeat (destruct Hc as [-> | Hc]; [vm_compute; reflexivity|]).
    subst y. vm_compute. reflexivity.
Qed.

Lemma new_display_draws_only_what_is_written_witness :
  let ds := display_state_new (repeat 9 24) [] in
  fst (update_display (txt_memory_write (0x07D0 + 39) 0xC1 ds))
  = mkRedraw [23] true.
Proof.
  cbv zeta.
  refine (proj2 (new_display_draws_only_what_is_written (repeat 9 24) []
                   39 23 0xC1 _ _ _)).
  - vm_compute. reflexivity.
  - lia.
  - lia.
Defined.

(** X23: [toggle_display_color_mode] steps through the three colour
    modes in turn: after [n] toggles from a mode [c] of 0..2 the mode is
    [(c + n) mod 3], so it never leaves 0..2 and is back after three. *)
Theorem color_mode_cycles_through_three (n : nat) (ds : display_state_t) :
  0 <= color_mode ds < DM_NUM_MODES ->
  color_mode (Nat.iter n toggle_display_color_mode ds)
  = (color_mode ds + Z.of_nat n) mod 3.
Proof.
  unfold DM_NUM_MODES. intros Hc. induction n as [|n IH].
  - change (Nat.iter 0 toggle_display_color_mode ds) with ds.
    rewrite Z.add_0_r, Z.mod_small by lia. reflexivity.
  - change (Nat.iter (S n) toggle_display_color_mode ds)
      with (toggle_display_color_mode
              (Nat.iter n toggle_display_color_mode ds)).
    set (d := Nat.iter n toggle_display_color_mode ds) in *.
    unfold toggle_display_color_mode.
    cbn [color_mode set_color_mode]. rewrite IH. unfold DM_NUM_MODES.
    rewrite Z.rem_mod_nonneg by (clear; zsolve).
    clear. zsolve.
Qed.

Lemma color_mode_cycles_through_three_witness :
  color_mode (Nat.iter 4 toggle_display_color_mode
                (display_state_new (repeat 0 24) []))
  = (color_mode (display_state_new (repeat 0 24) []) + Z.of_nat 4) mod 3.
Proof.
  refine (color_mode_cycles_through_three 4
            (display_state_new (repeat 0 24) []) _).
  vm_compute. split; congruence.
Defined.
